(** * Removemark: tensor marshalling, model loading, the inpainting worker,
      the mask editor's history and stroke interpolation, and the SEO
      head-tag generator.

    Sources embedded here:
    - [src/lib/image-processing.ts] (tensor conversion library, main-thread
      model loader, inpainting worker),
    - [src/sections/hero/hero.tsx] (the [WatermarkSelector] mask editor),
    - [src/lib/seo.ts].

    Conventions.  A JavaScript number is a binary64 value: a rational
    (type [number], extended with [NaN] and the two infinities), every
    arithmetic operation returning the exact result rounded to nearest,
    ties to even; a store into a [Float32Array] rounds to binary32.
    Signed zeros are not represented.  The strokes of the mask editor go
    through [Math.sqrt] and are over the real numbers.  A string is the
    sequence of the UTF-8 bytes of the JavaScript string.  Browser
    services (canvas rasterisation, IndexedDB, fetch, the inference
    engine) are outcomes supplied by an environment record. *)

From Stdlib Require Import ZArith QArith Qround Qabs Qpower Qminmax Lia String Ascii.
From Stdlib Require Import Lqa.
From Stdlib Require Import Reals Lra.
From stdpp Require Import base list strings gmap.

Local Open Scope Z_scope.

Set Warnings "-register-all,-abstract-large-number".

(** ** JavaScript numbers *)

Inductive number : Type :=
| NaN
| NegInfinity
| Num (q : Q)
| Infinity.

(** The numbers that are neither [NaN] nor an infinity. *)
Definition finite (x : number) : Prop := exists q, x = Num q.

(** ** Binary floating point *)

(** The nearest integer, ties to even. *)
Definition round_half_even (x : Q) : Z :=
  let f := Qfloor x in
  let r := (x - inject_Z f)%Q in
  if Qle_bool r (1 # 2)
  then if Qeq_bool r (1 # 2) then (if Z.even f then f else f + 1) else f
  else f + 1.

Definition pow2 (e : Z) : Q := (2 ^ e)%Q.

(** For positive [a], the integer [e] with [2^e <= a < 2^(e+1)]. *)
Definition binade (a : Q) : Z :=
  let e0 := Z.log2 (Qnum a) - Z.log2 (Zpos (Qden a)) in
  if Qle_bool (pow2 e0) a then e0 else e0 - 1.

(** The exponent of the unit in the last place at the positive [a]:
    [e - prec + 1] in the binade of exponent [e], and [emin] below the
    normal range. *)
Definition ulp_exp (prec emin : Z) (a : Q) : Z :=
  Z.max (binade a - (prec - 1)) emin.

(** The multiple of the unit in the last place nearest to the positive
    [a], ties to even. *)
Definition round_mag (prec emin : Z) (a : Q) : Q :=
  let u := ulp_exp prec emin a in
  Qred (inject_Z (round_half_even (a / pow2 u)) * pow2 u).

(** Round to nearest, ties to even, in the format of precision [prec]
    whose least positive value is [2^emin] and whose finite values lie
    below [2^emax]. *)
Definition round_to (prec emin emax : Z) (x : Q) : number :=
  match Qnum x with
  | 0 => Num 0
  | Zpos _ =>
      let r := round_mag prec emin x in
      if Qle_bool (pow2 emax) r then Infinity else Num r
  | Zneg _ =>
      let r := round_mag prec emin (- x) in
      if Qle_bool (pow2 emax) r then NegInfinity else Num (- r)
  end.

(** The value of an arithmetic operation: a binary64. *)
Definition double (x : Q) : number := round_to 53 (-1074) 1024 x.

(** [Math.fround], the conversion of a store into a [Float32Array]. *)
Definition fround (v : number) : number :=
  match v with
  | Num x => round_to 24 (-149) 128 x
  | _ => v
  end.

Arguments round_to : simpl never.
Arguments double : simpl never.
Arguments fround : simpl never.

(** A numeric literal: the binary64 nearest to its decimal value. *)
Definition js_lit (q : Q) : number := double q.

(** [a > b], [a >= b], [a < b], [a <= b]: all false as soon as one side is
    [NaN]. *)
Definition js_lt (a b : number) : bool :=
  match a, b with
  | NaN, _ | _, NaN => false
  | NegInfinity, NegInfinity => false
  | NegInfinity, _ => true
  | _, NegInfinity => false
  | Infinity, _ => false
  | Num _, Infinity => true
  | Num x, Num y => negb (Qle_bool y x)
  end.

Definition js_le (a b : number) : bool :=
  match a, b with
  | NaN, _ | _, NaN => false
  | NegInfinity, _ => true
  | _, NegInfinity => false
  | _, Infinity => true
  | Infinity, Num _ => false
  | Num x, Num y => Qle_bool x y
  end.

Definition js_gt (a b : number) : bool := js_lt b a.
Definition js_ge (a b : number) : bool := js_le b a.

(** [a === b] on numbers. *)
Definition js_eq (a b : number) : bool :=
  match a, b with
  | Num x, Num y => Qeq_bool x y
  | Infinity, Infinity | NegInfinity, NegInfinity => true
  | _, _ => false
  end.

Definition Qsign (q : Q) : comparison := (Qnum q ?= 0)%Z.

Definition js_neg (a : number) : number :=
  match a with
  | NaN => NaN
  | NegInfinity => Infinity
  | Infinity => NegInfinity
  | Num x => Num (- x)
  end.

Definition js_add (a b : number) : number :=
  match a, b with
  | NaN, _ | _, NaN => NaN
  | Infinity, NegInfinity | NegInfinity, Infinity => NaN
  | Infinity, _ | _, Infinity => Infinity
  | NegInfinity, _ | _, NegInfinity => NegInfinity
  | Num x, Num y => double (x + y)
  end.

Definition js_sub (a b : number) : number := js_add a (js_neg b).

Definition signed_inf (c : comparison) : number :=
  match c with
  | Gt => Infinity
  | Lt => NegInfinity
  | Eq => NaN
  end.

Definition js_mul (a b : number) : number :=
  match a, b with
  | NaN, _ | _, NaN => NaN
  | Num x, Num y => double (x * y)
  | Num x, Infinity | Infinity, Num x => signed_inf (Qsign x)
  | Num x, NegInfinity | NegInfinity, Num x => js_neg (signed_inf (Qsign x))
  | Infinity, Infinity | NegInfinity, NegInfinity => Infinity
  | Infinity, NegInfinity | NegInfinity, Infinity => NegInfinity
  end.

(** Division; a finite value over zero is an infinity of the dividend's
    sign (the zero counts as positive), zero over zero is [NaN]. *)
Definition js_div (a b : number) : number :=
  match a, b with
  | NaN, _ | _, NaN => NaN
  | Num x, Num y =>
      match Qsign y with
      | Eq => signed_inf (Qsign x)
      | _ => double (x / y)
      end
  | Num _, (Infinity | NegInfinity) => Num 0
  | Infinity, Num y =>
      match Qsign y with Lt => NegInfinity | _ => Infinity end
  | NegInfinity, Num y =>
      match Qsign y with Lt => Infinity | _ => NegInfinity end
  | (Infinity | NegInfinity), (Infinity | NegInfinity) => NaN
  end.

Definition Math_min (a b : number) : number :=
  match a, b with
  | NaN, _ | _, NaN => NaN
  | _, _ => if js_le a b then a else b
  end.

Definition Math_max (a b : number) : number :=
  match a, b with
  | NaN, _ | _, NaN => NaN
  | _, _ => if js_le a b then b else a
  end.

(** [Math.round]: nearest integer, ties towards plus infinity. *)
Definition Math_round (a : number) : number :=
  match a with
  | Num x => Num (inject_Z (Qfloor (x + (1 # 2))))
  | _ => a
  end.

(** [Math.min(...xs)] and [Math.max(...xs)]: the empty spread gives
    [Infinity] and [-Infinity]. *)
Definition Math_min_spread (xs : list number) : number :=
  fold_left Math_min xs Infinity.

Definition Math_max_spread (xs : list number) : number :=
  fold_left Math_max xs NegInfinity.

(** A read [a[i]] of an array: [undefined] past the end. *)
Definition js_index {A : Type} (a : list A) (i : Z) : option A :=
  if i <? 0 then None else a !! Z.to_nat i.

(** [undefined] coerced to a number is [NaN]. *)
Definition to_number (o : option number) : number :=
  match o with Some v => v | None => NaN end.

Definition byte_to_number (o : option Z) : number :=
  match o with Some b => Num (inject_Z b) | None => NaN end.

(** The conversion applied by a store into a [Uint8ClampedArray]: [NaN]
    becomes 0, the value is clamped to [0,255] and rounded to the nearest
    integer, ties to even. *)
Definition to_uint8_clamped (a : number) : Z :=
  match a with
  | NaN => 0
  | NegInfinity => 0
  | Infinity => 255
  | Num x => Z.max 0 (Z.min 255 (round_half_even x))
  end.

(** ** Shared data: pixel buffers, tensors, thrown values *)

(** [ImageData]: RGBA bytes, row-major, four per pixel. *)
Record ImageData : Type := mkImageData {
  width : Z;
  height : Z;
  data : list Z
}.

(** [ort.Tensor] of type float32. *)
Record Tensor : Type := mkTensor {
  tensor_data : list number;
  dims : list Z
}.

(** A thrown value: an [Error] carrying its message, or anything else. *)
Inductive Exn : Type :=
| Error (message : string)
| NonError.

Inductive result (A : Type) : Type :=
| Ok (a : A)
| Throw (e : Exn).
Arguments Ok {A} a.
Arguments Throw {A} e.

(** Sequencing of steps that may throw: the first [Throw] ends the run. *)
#[global] Instance result_bind : MBind result := fun A B k r =>
  match r with
  | Ok a => k a
  | Throw e => Throw e
  end.

#[global] Instance result_ret : MRet result := fun A a => Ok a.

(** [if (!ctx) throw new Error(msg)]. *)
Definition require (ok : bool) (msg : string) : result unit :=
  if ok then Ok tt else Throw (Error msg).

(** [error instanceof Error ? error.message : "Unknown error"]. *)
Definition error_message (e : Exn) : string :=
  match e with
  | Error m => m
  | NonError => "Unknown error"
  end.

Definition INPUT_SIZE : nat := 512.

(** [new Float32Array(n)]: [n] zeros; and the store [a[i] = v], which
    keeps the binary32 nearest to [v] and does nothing past the end. *)
Definition Float32Array (n : nat) : list number := replicate n (Num 0).

Definition Float32Array_set (i : nat) (v : number) (a : list number)
    : list number :=
  <[i := fround v]> a.

(** [JSON.stringify(dims)] for the error text. *)
Definition digit_of (n : nat) : ascii := ascii_of_nat (48 + n).

Fixpoint nat_to_string_aux (fuel n : nat) (acc : string) : string :=
  match fuel with
  | O => acc
  | S fuel' =>
      let acc' := String (digit_of (n mod 10)) acc in
      match (n / 10)%nat with
      | O => acc'
      | q => nat_to_string_aux fuel' q acc'
      end
  end.

Definition nat_to_string (n : nat) : string := nat_to_string_aux (S n) n EmptyString.

Definition Z_to_string (z : Z) : string :=
  match z with
  | Z0 => "0"
  | Zpos p => nat_to_string (Pos.to_nat p)
  | Zneg p => "-" ++ nat_to_string (Pos.to_nat p)
  end.

Fixpoint join (sep : string) (l : list string) : string :=
  match l with
  | [] => EmptyString
  | [x] => x
  | x :: rest => x ++ sep ++ join sep rest
  end.

Definition JSON_stringify_dims (d : list Z) : string :=
  "[" ++ join "," (map Z_to_string d) ++ "]".

(** The shape guard shared by [tensorToImage] and [tensorToImageData]:
    [!dims || dims.length !== 4 || dims[0] !== 1 || dims[1] !== 3]. *)
Definition bad_dims (d : list Z) : bool :=
  negb (length d =? 4)%nat
  || negb (bool_decide (d !! 0%nat = Some 1))
  || negb (bool_decide (d !! 1%nat = Some 3)).

Definition check_dims (d : list Z) : result unit :=
  if bad_dims d
  then Throw (Error ("Unexpected tensor format: " ++ JSON_stringify_dims d))
  else Ok tt.

(** [ort.InferenceSession]: its declared tensor names; [handle] tells
    sessions apart. *)
Record Session : Type := mkSession {
  handle : nat;
  session_inputNames : list string;
  session_outputNames : list string
}.


(** ** Model loading: cache, download *)

Definition ArrayBuffer : Type := list Z.

Definition MODEL_URL : string := "/models/lama_fp32.onnx".
Definition MODEL_VERSION : string := "1.0".

(** The record stored under the cache key. *)
Record CacheRecord : Type := mkCacheRecord {
  record_data : option ArrayBuffer;
  record_version : string
}.

(** How the IndexedDB read of [loadModelFromCache] ends. *)
Inductive CacheRead : Type :=
| OpenThrows (e : Exn)
| OpenError
| GetError
| GetResult (r : option CacheRecord).

(** The promise body shared by both copies of [loadModelFromCache]: every
    callback resolves, a synchronous throw of [indexedDB.open] rejects. *)
Definition cache_promise (c : CacheRead) : result (option ArrayBuffer) :=
  match c with
  | OpenThrows e => Throw e
  | OpenError | GetError => Ok None
  | GetResult None => Ok None
  | GetResult (Some r) =>
      match record_data r with
      | Some d => if String.eqb (record_version r) MODEL_VERSION then Ok (Some d) else Ok None
      | None => Ok None
      end
  end.

(** A streamed response body: the chunks read before the stream ends, and
    the error that ends it early, if any. *)
Record Body : Type := mkBody {
  chunks : list (list Z);
  failure : option Exn
}.

(** The [fetch] response; [content_length] is the header after [parseInt],
    absent when the header is missing or not a number. *)
Record Response : Type := mkResponse {
  ok : bool;
  status : Z;
  statusText : string;
  content_length : option Z;
  body : option Body
}.

(** [Math.round((loaded / total) * 100)], called with a positive
    [total]; both are whole numbers of bytes, held exactly by a number
    as long as they do not exceed 2^53.  The quotient and the product
    are each rounded to binary64. *)
Definition percent_of (loaded total : Z) : Z :=
  match Math_round
          (js_mul (js_div (Num (inject_Z loaded)) (Num (inject_Z total)))
             (Num 100)) with
  | Num p => Qfloor p
  | _ => 0
  end.

(** The [while (true)] read loop: the running [loaded] count after each
    chunk. *)
Fixpoint loaded_counts (loaded : Z) (cs : list (list Z)) : list Z :=
  match cs with
  | [] => []
  | c :: cs' =>
      let loaded' := loaded + Z.of_nat (length c) in
      loaded' :: loaded_counts loaded' cs'
  end.

(** What the asynchronous steps of one load attempt deliver.  Both
    loaders swallow a failed [cacheWrite], so its outcome changes
    nothing. *)
Record LoadEnv : Type := mkLoadEnv {
  cacheRead : CacheRead;
  fetched : result Response;
  cacheWrite : result unit;
  created : ArrayBuffer -> result Session
}.

(** [downloadModel] up to the progress payload: the [loaded] and [total]
    of each report, and the bytes or the thrown error.  [notFound] is the
    message of the 404 case, which differs between the two copies. *)
Definition downloadModel_core (notFound : string) (env : LoadEnv)
    : list (Z * Z) * result ArrayBuffer :=
  match fetched env with
  | Throw e => ([], Throw e)
  | Ok response =>
      if negb (ok response) then
        if status response =? 404
        then ([], Throw (Error notFound))
        else ([], Throw (Error ("Failed to fetch model: " ++ statusText response)))
      else
        let total := default 0 (content_length response) in
        match body response with
        | None => ([], Throw (Error "Response body is null"))
        | Some b =>
            let reports :=
              if 0 <? total
              then map (fun loaded => (loaded, total)) (loaded_counts 0 (chunks b))
              else [] in
            match failure b with
            | Some e => (reports, Throw e)
            | None => (reports, Ok (concat (chunks b)))
            end
        end
  end.

(** What a call of [loadModel] returns. *)
Inductive Loaded : Type :=
| RetSession (s : Session)
| RetPromise (p : nat).


(** ** The tensor conversion library *)

(** Canvas services of one [tensorToImage] call; [dataURL] is the PNG
    encoding of the 512 x 512 pixels drawn rescaled to the requested
    size. *)
Record ImageEnv : Type := mkImageEnv {
  libCanvasCtx : bool;
  libResultCtx : bool;
  dataURL : list Z -> Z -> Z -> string
}.

(** One iteration of the pixel loop of [tensorToImage]. *)
Definition lib_channel (v : number) : Z :=
  to_uint8_clamped
    (Math_round (Math_max (Num 0) (Math_min (Num 255) (js_mul v (Num 255))))).

Definition lib_pixel_step (channelSize : nat) (tdata : list number)
    (px : list Z) (i : nat) : list Z :=
  let r := lib_channel (to_number (tdata !! i)) in
  let g := lib_channel (to_number (tdata !! (i + channelSize)%nat)) in
  let b := lib_channel (to_number (tdata !! (i + 2 * channelSize)%nat)) in
  <[(i * 4 + 3)%nat := 255]>
    (<[(i * 4 + 2)%nat := b]>
       (<[(i * 4 + 1)%nat := g]>
          (<[(i * 4)%nat := r]> px))).

Definition lib_pixel_loop (size : nat) (tdata : list number) (n : nat) : list Z :=
  fold_left (lib_pixel_step (size * size) tdata) (seq 0 n)
    (replicate (4 * size * size) 0).

Definition tensorToImage (env : ImageEnv) (tensor : Tensor)
    (originalWidth originalHeight : Z) : result string :=
  let size := INPUT_SIZE in
  _ ← check_dims (dims tensor);
  _ ← require (libCanvasCtx env) "Failed to get canvas context";
  let px := lib_pixel_loop size (tensor_data tensor) (size * size) in
  _ ← require (libResultCtx env) "Failed to get result canvas context";
  Ok (dataURL env px originalWidth originalHeight).

(** One iteration of the loop of [imageToTensor], and the loop run for its
    first [n] iterations over the pixels [data] read back from the
    [size] x [size] canvas. *)
Definition imageToTensor_step (size : nat) (data : list Z)
    (tensor : list number) (i : nat) : list number :=
  Float32Array_set (i + 2 * size * size)
    (js_div (byte_to_number (data !! (i * 4 + 2)%nat)) (Num 255))
    (Float32Array_set (i + size * size)
       (js_div (byte_to_number (data !! (i * 4 + 1)%nat)) (Num 255))
       (Float32Array_set i
          (js_div (byte_to_number (data !! (i * 4)%nat)) (Num 255)) tensor)).

Definition imageToTensor_loop (size : nat) (data : list Z) (n : nat)
    : list number :=
  fold_left (imageToTensor_step size data) (seq 0 n)
    (Float32Array (3 * size * size)).

(** [imageToTensor(image, size)]: [ctx] tells whether the 2D context was
    obtained, [data] is what [getImageData] returns after the image has
    been drawn rescaled. *)
Definition imageToTensor (ctx : bool) (data : list Z) (size : nat)
    : result Tensor :=
  _ ← require ctx "Failed to get canvas context";
  Ok (mkTensor (imageToTensor_loop size data (size * size))
        [1; 3; Z.of_nat size; Z.of_nat size]).

(** The loop of [maskToTensor]. *)
Definition maskToTensor_step (data : list Z) (tensor : list number) (i : nat)
    : list number :=
  let gray := byte_to_number (data !! (i * 4)%nat) in
  Float32Array_set i (if js_gt gray (Num 127) then Num 1 else Num 0) tensor.

Definition maskToTensor_loop (size : nat) (data : list Z) (n : nat)
    : list number :=
  fold_left (maskToTensor_step data) (seq 0 n) (Float32Array (size * size)).

Definition maskToTensor (ctx : bool) (data : list Z) (size : nat)
    : result Tensor :=
  _ ← require ctx "Failed to get canvas context";
  Ok (mkTensor (maskToTensor_loop size data (size * size))
        [1; 1; Z.of_nat size; Z.of_nat size]).

(** ** The main-thread model loader *)

Module ModelLoader.

Record ModelLoadProgress : Type := mkProgress {
  loaded : Z;
  total : Z;
  percent : Z
}.

(** A promise created by [loadModel]; a pending one remembers the
    [onProgress] callback its body holds, if one was passed. *)
Inductive PromiseState : Type :=
| Pending (onProgress : option nat)
| Fulfilled (s : Session)
| Rejected (e : Exn).

(** The module-level variables, every promise [loadModel] created, and
    the calls made to the progress callbacks. *)
Record Loader : Type := mkLoader {
  session : option Session;
  loadingPromise : option nat;
  promises : list PromiseState;
  reported : list (nat * ModelLoadProgress)
}.

Definition init : Loader :=
  {| session := None; loadingPromise := None; promises := []; reported := [] |}.

(** [loadModelFromCache]: no IndexedDB means no cached bytes. *)
Definition loadModelFromCache (hasIndexedDB : bool) (c : CacheRead)
    : result (option ArrayBuffer) :=
  if negb hasIndexedDB then Ok None else cache_promise c.

Definition downloadModel (onProgress : option nat) (env : LoadEnv)
    : list (nat * ModelLoadProgress) * result ArrayBuffer :=
  let '(reports, r) :=
    downloadModel_core
      ("Model file not found. Please ensure " ++ MODEL_URL
       ++ " exists in the public directory. See MODEL_SETUP.md for instructions.")
      env in
  (match onProgress with
   | Some cb =>
       map (fun '(loaded, total) =>
              (cb, mkProgress loaded total (percent_of loaded total))) reports
   | None => []
   end, r).

(** The body of the promise created by [loadModel], up to its [catch]. *)
Definition load_body (hasIndexedDB : bool) (onProgress : option nat)
    (env : LoadEnv) : list (nat * ModelLoadProgress) * result Session :=
  match loadModelFromCache hasIndexedDB (cacheRead env) with
  | Throw e => ([], Throw e)
  | Ok (Some modelData) => ([], created env modelData)
  | Ok None =>
      let '(reports, r) := downloadModel onProgress env in
      match r with
      | Throw e => (reports, Throw e)
      | Ok modelData => (reports, created env modelData)
      end
  end.

(** [loadModel(onProgress)], up to the first suspension of the promise
    body. *)
Definition loadModel (onProgress : option nat) (st : Loader) : Loaded * Loader :=
  match session st with
  | Some s => (RetSession s, st)
  | None =>
      match loadingPromise st with
      | Some p => (RetPromise p, st)
      | None =>
          let p := length (promises st) in
          (RetPromise p,
           {| session := session st; loadingPromise := Some p;
              promises := promises st ++ [Pending onProgress];
              reported := reported st |})
      end
  end.

Definition getSession (st : Loader) : option Session := session st.

(** The body of pending promise [p] runs to its end under [env].
    Settling a promise that is not pending changes nothing. *)
Definition settle (p : nat) (hasIndexedDB : bool) (env : LoadEnv) (st : Loader)
    : Loader :=
  match promises st !! p with
  | Some (Pending onProgress) =>
      let '(reports, r) := load_body hasIndexedDB onProgress env in
      match r with
      | Ok s =>
          {| session := Some s; loadingPromise := loadingPromise st;
             promises := <[p := Fulfilled s]> (promises st);
             reported := reported st ++ reports |}
      | Throw e =>
          {| session := session st; loadingPromise := None;
             promises := <[p := Rejected e]> (promises st);
             reported := reported st ++ reports |}
      end
  | _ => st
  end.

Inductive Event : Type :=
| Call (onProgress : option nat)
| Settle (p : nat) (hasIndexedDB : bool) (env : LoadEnv).

Definition step (st : Loader) (ev : Event) : Loader :=
  match ev with
  | Call onProgress => snd (loadModel onProgress st)
  | Settle p hasIndexedDB env => settle p hasIndexedDB env st
  end.

Definition run_events (evs : list Event) : Loader := fold_left step evs init.

(** What holds of every state the loader reaches: a pending promise is
    the one [loadingPromise] holds, and no session exists beside it. *)
Definition loader_inv (st : Loader) : Prop :=
  forall p cb, promises st !! p = Some (Pending cb) ->
    loadingPromise st = Some p /\ session st = None.

End ModelLoader.

(** ** The inpainting worker: tensor construction *)

Module InpaintingWorker.

Record MaskedBuild : Type := mkMaskedBuild {
  imageTensorData : list number;
  maskTensorData : list number;
  whiteCount : nat;
  blackCount : nat
}.

(** One iteration of the loop of [createMaskedInputTensors]. *)
Definition masked_step (size : nat) (imgData mskData : list Z)
    (acc : MaskedBuild) (i : nat) : MaskedBuild :=
  let maskVal :=
    if js_gt (byte_to_number (mskData !! (i * 4)%nat)) (Num 127)
    then Num 1 else Num 0 in
  let mt := Float32Array_set i maskVal (maskTensorData acc) in
  if js_eq maskVal (Num 1) then
    {| maskTensorData := mt;
       whiteCount := S (whiteCount acc);
       blackCount := blackCount acc;
       imageTensorData :=
         Float32Array_set (i + 2 * size * size) (Num 0)
           (Float32Array_set (i + size * size) (Num 0)
              (Float32Array_set i (Num 0) (imageTensorData acc))) |}
  else
    {| maskTensorData := mt;
       whiteCount := whiteCount acc;
       blackCount := S (blackCount acc);
       imageTensorData :=
         Float32Array_set (i + 2 * size * size)
           (js_div (byte_to_number (imgData !! (i * 4 + 2)%nat)) (Num 255))
           (Float32Array_set (i + size * size)
              (js_div (byte_to_number (imgData !! (i * 4 + 1)%nat)) (Num 255))
              (Float32Array_set i
                 (js_div (byte_to_number (imgData !! (i * 4)%nat)) (Num 255))
                 (imageTensorData acc))) |}.

(** [for (let i = 0; i < size * size; i++) ...] run for its first [n]
    iterations. *)
Definition masked_loop (size : nat) (imgData mskData : list Z) (n : nat)
    : MaskedBuild :=
  fold_left (masked_step size imgData mskData) (seq 0 n)
    {| imageTensorData := Float32Array (3 * size * size);
       maskTensorData := Float32Array (size * size);
       whiteCount := 0;
       blackCount := 0 |}.

(** What iteration [i] stores in the mask tensor, and in channel [c] of
    the image tensor. *)
Definition mask_value (mskData : list Z) (i : nat) : number :=
  if js_gt (byte_to_number (mskData !! (i * 4)%nat)) (Num 127) then Num 1 else Num 0.

Definition image_value (imgData mskData : list Z) (c i : nat) : number :=
  if js_eq (mask_value mskData i) (Num 1) then Num 0
  else fround (js_div (byte_to_number (imgData !! (i * 4 + c)%nat)) (Num 255)).

(** What the canvas services of one [createMaskedInputTensors] call
    deliver: whether each 2D context could be obtained, whether decoding
    each buffer to a bitmap succeeded, and the pixels read back after
    drawing each bitmap rescaled to the [size] x [size] surface. *)
Record TensorEnv : Type := mkTensorEnv {
  imageCtx : bool;
  maskCtx : bool;
  imageBitmap : ImageData -> result unit;
  maskBitmap : ImageData -> result unit;
  scaled : ImageData -> nat -> list Z
}.

Definition createMaskedInputTensors (env : TensorEnv)
    (imageData maskData : ImageData) (size : nat)
    : result (Tensor * Tensor) :=
  _ ← require (imageCtx env) "Failed to get image canvas context";
  _ ← require (maskCtx env) "Failed to get mask canvas context";
  _ ← imageBitmap env imageData;
  _ ← maskBitmap env maskData;
  let imgData := scaled env imageData size in
  let mskData := scaled env maskData size in
  let b := masked_loop size imgData mskData (size * size) in
  Ok (mkTensor (imageTensorData b) [1; 3; Z.of_nat size; Z.of_nat size],
      mkTensor (maskTensorData b) [1; 1; Z.of_nat size; Z.of_nat size]).


(** The range flags of [tensorToImageData].  The thresholds are the
    decimals of the source; the values compared with them come from a
    [Float32Array], and a binary32 value compares with a decimal as with
    the binary64 literal nearest to it. *)
Definition isNormalized01 (minVal maxVal : number) : bool :=
  js_ge minVal (Num (- (1 # 10))) && js_le maxVal (Num (11 # 10)).

Definition isNormalized11 (minVal maxVal : number) : bool :=
  js_ge minVal (Num (- (11 # 10))) && js_le maxVal (Num (11 # 10))
  && js_lt minVal (Num (- (1 # 10))).

Definition is0255 (minVal maxVal : number) : bool :=
  js_gt maxVal (Num (11 # 10)) && js_le maxVal (Num (511 # 2)).

(** The [if (isNormalized11) ... else if (is0255) ...] applied to one
    channel value. *)
Definition remap (minVal maxVal : number) (v : number) : number :=
  if isNormalized11 minVal maxVal then js_div (js_add v (Num 1)) (Num 2)
  else if is0255 minVal maxVal then js_div v (Num 255)
  else v.

(** [Math.round(Math.max(0, Math.min(255, r * 255)))] stored into the
    [Uint8ClampedArray] of the image. *)
Definition to_channel (r : number) : Z :=
  to_uint8_clamped
    (Math_round (Math_max (Num 0) (Math_min (Num 255) (js_mul r (Num 255))))).

(** One iteration of the pixel loop of [tensorToImageData]. *)
Definition pixel_step (channelSize : nat) (minVal maxVal : number)
    (tdata : list number) (px : list Z) (i : nat) : list Z :=
  let r := remap minVal maxVal (to_number (tdata !! i)) in
  let g := remap minVal maxVal (to_number (tdata !! (i + channelSize)%nat)) in
  let b := remap minVal maxVal (to_number (tdata !! (i + 2 * channelSize)%nat)) in
  <[(i * 4 + 3)%nat := 255]>
    (<[(i * 4 + 2)%nat := to_channel b]>
       (<[(i * 4 + 1)%nat := to_channel g]>
          (<[(i * 4)%nat := to_channel r]> px))).

(** [ctx.createImageData(size, size)] followed by the first [n]
    iterations of the pixel loop. *)
Definition pixel_loop (size : nat) (minVal maxVal : number)
    (tdata : list number) (n : nat) : list Z :=
  fold_left (pixel_step (size * size) minVal maxVal tdata) (seq 0 n)
    (replicate (4 * size * size) 0).

(** Canvas services of one [tensorToImageData] call: the two 2D contexts,
    the construction of the result surface, and the pixels read back after
    drawing the 512 x 512 surface rescaled onto it. *)
Record OutputEnv : Type := mkOutputEnv {
  canvasCtx : bool;
  resultCanvas : Z -> Z -> result unit;
  resultCtx : bool;
  readback : list Z -> Z -> Z -> result ImageData
}.

Definition tensorToImageData (env : OutputEnv) (tensor : Tensor)
    (originalWidth originalHeight : Z) (minVal maxVal : number)
    : result ImageData :=
  let size := INPUT_SIZE in
  _ ← check_dims (dims tensor);
  _ ← require (canvasCtx env) "Failed to get canvas context";
  let px := pixel_loop size minVal maxVal (tensor_data tensor) (size * size) in
  _ ← resultCanvas env originalWidth originalHeight;
  _ ← require (resultCtx env) "Failed to get result canvas context";
  readback env px originalWidth originalHeight.

(** ** The inpainting worker: inference *)

(** [n.toLowerCase()] on ASCII letters. *)
Definition lower_ascii (c : ascii) : ascii :=
  let n := nat_of_ascii c in
  if (65 <=? n)%nat && (n <=? 90)%nat then ascii_of_nat (n + 32) else c.

Fixpoint toLowerCase (s : string) : string :=
  match s with
  | EmptyString => EmptyString
  | String c s' => String (lower_ascii c) (toLowerCase s')
  end.

(** [s.includes(sub)]. *)
Fixpoint includes (sub s : string) : bool :=
  String.prefix sub s
  || match s with
     | EmptyString => false
     | String _ s' => includes sub s'
     end.

(** [a || b] on possibly-undefined strings: the empty string is falsy. *)
Definition or_else (a b : option string) : option string :=
  match a with
  | Some s => if String.eqb s EmptyString then b else a
  | None => b
  end.

(** A computed property key: [undefined] becomes the text "undefined". *)
Definition property_key (o : option string) : string :=
  default "undefined" o.

(** [data.slice(0, 10000)]. *)
Definition SAMPLE : nat := Z.to_nat 10000.

Inductive EngineCall : Type :=
| CallCreateTensors
| CallRun.

(** Services of one [processImage] call. *)
Record ProcessEnv : Type := mkProcessEnv {
  tensorEnv : TensorEnv;
  run : Session -> gmap string Tensor -> result (gmap string Tensor);
  outputEnv : OutputEnv
}.

(** [processImage], with the list of engine-facing steps it reached. *)
Definition processImage (env : ProcessEnv) (session : option Session)
    (inputNames outputNames : list string)
    (imageData maskData : ImageData) (originalWidth originalHeight : Z)
    : list EngineCall * result ImageData :=
  match session with
  | None => ([], Throw (Error "Model not loaded"))
  | Some s =>
      match createMaskedInputTensors (tensorEnv env) imageData maskData INPUT_SIZE with
      | Throw e => ([CallCreateTensors], Throw e)
      | Ok (imageTensor, maskTensor) =>
          let imageInputName :=
            or_else (find (fun n => includes "image" (toLowerCase n)) inputNames)
                    (inputNames !! 0%nat) in
          let maskInputName :=
            or_else (find (fun n => includes "mask" (toLowerCase n)) inputNames)
                    (inputNames !! 1%nat) in
          let feeds : gmap string Tensor :=
            <[property_key maskInputName := maskTensor]>
              (<[property_key imageInputName := imageTensor]> ∅) in
          ([CallCreateTensors; CallRun],
           results ← run env s feeds;
           match results !! property_key (outputNames !! 0%nat) with
           | None => Throw (Error "No output tensor received from model")
           | Some outputTensor =>
               let data := tensor_data outputTensor in
               let minVal := Math_min_spread (take SAMPLE data) in
               let maxVal := Math_max_spread (take SAMPLE data) in
               tensorToImageData (outputEnv env) outputTensor
                 originalWidth originalHeight minVal maxVal
           end)
      end
  end.

(** The two input names [processImage] resolves, and the [feeds] object it
    builds from them. *)
Definition imageInputName (inputNames : list string) : option string :=
  or_else (find (fun n => includes "image" (toLowerCase n)) inputNames)
          (inputNames !! 0%nat).

Definition maskInputName (inputNames : list string) : option string :=
  or_else (find (fun n => includes "mask" (toLowerCase n)) inputNames)
          (inputNames !! 1%nat).

Definition make_feeds (inputNames : list string) (imageTensor maskTensor : Tensor)
    : gmap string Tensor :=
  <[property_key (maskInputName inputNames) := maskTensor]>
    (<[property_key (imageInputName inputNames) := imageTensor]> ∅).

Inductive WorkerMessage : Type :=
| Load
| Process (imageData maskData : ImageData) (originalWidth originalHeight : Z).

Inductive WorkerResponse : Type :=
| LoadProgress (percent : Z)
| LoadComplete
| LoadError (error : string)
| ProcessComplete (resultData : ImageData)
| ProcessError (error : string).

Definition downloadModel (env : LoadEnv) : list Z * result ArrayBuffer :=
  let '(reports, r) :=
    downloadModel_core ("Model file not found at " ++ MODEL_URL) env in
  (map (fun '(loaded, total) => percent_of loaded total) reports, r).

(** The body of the promise created by [loadModel], up to its [catch]:
    the percents passed to [onProgress] and the session or the error. *)
Definition load_body (env : LoadEnv) : list Z * result Session :=
  match cache_promise (cacheRead env) with
  | Throw e => ([], Throw e)
  | Ok (Some modelData) => ([100], created env modelData)
  | Ok None =>
      let '(percents, r) := downloadModel env in
      match r with
      | Throw e => (percents, Throw e)
      | Ok modelData => (percents, created env modelData)
      end
  end.

(** ** The inpainting worker: module state and message handler *)

(** A promise created by [loadModel]; a pending one remembers the request
    whose [onProgress] callback its body holds. *)
Inductive PromiseState : Type :=
| Pending (starter : nat)
| Fulfilled (s : Session)
| Rejected (e : Exn).


(** The module-level variables of the worker, with the bookkeeping of the
    event loop: every promise [loadModel] created, the [load] requests
    suspended at their [await], the requests received (a request is named
    by its position), every [self.postMessage] with the request on whose
    behalf it was made, and every exception that left the handler. *)
Record Worker : Type := mkWorker {
  session : option Session;
  loadingPromise : option nat;
  inputNames : list string;
  outputNames : list string;
  promises : list PromiseState;
  waiting : list (nat * nat);
  inbox : list WorkerMessage;
  posted : list (nat * WorkerResponse);
  engineCalls : list (nat * EngineCall);
  uncaught : list (nat * Exn)
}.

Definition init : Worker :=
  {| session := None; loadingPromise := None;
     inputNames := []; outputNames := [];
     promises := []; waiting := []; inbox := []; posted := [];
     engineCalls := []; uncaught := [] |}.

(** [loadModel(onProgress)], called while handling request [rid], up to
    the first suspension of the promise body. *)
Definition loadModel (rid : nat) (w : Worker) : Loaded * Worker :=
  match session w with
  | Some s => (RetSession s, w)
  | None =>
      match loadingPromise w with
      | Some p => (RetPromise p, w)
      | None =>
          let p := length (promises w) in
          (RetPromise p,
           {| session := session w; loadingPromise := Some p;
              inputNames := inputNames w; outputNames := outputNames w;
              promises := promises w ++ [Pending rid];
              waiting := waiting w; inbox := inbox w; posted := posted w;
              engineCalls := engineCalls w; uncaught := uncaught w |})
      end
  end.

(** A run of handler code: the messages it posted and how it ended. *)
Definition Handler (A : Type) : Type := list WorkerResponse * result A.

Definition postMessage (r : WorkerResponse) : Handler unit := ([r], Ok tt).

Definition then_ {A B : Type} (h : Handler A) (k : A -> Handler B) : Handler B :=
  match h with
  | (log, Ok a) => let '(log', r) := k a in (log ++ log', r)
  | (log, Throw e) => (log, Throw e)
  end.

(** [try { body } catch (error) { handler }]. *)
Definition try_catch {A : Type} (body : Handler A) (handler : Exn -> Handler A)
    : Handler A :=
  match body with
  | (log, Ok a) => (log, Ok a)
  | (log, Throw e) => let '(log', r) := handler e in (log ++ log', r)
  end.

(** [case "load"]: [awaited] is the run of [await loadModel(...)], with the
    [load-progress] messages its callback posted. *)
Definition load_case (awaited : Handler Session) : Handler unit :=
  try_catch
    (then_ awaited (fun _ => postMessage LoadComplete))
    (fun error => postMessage (LoadError (error_message error))).

(** [case "process"]: [awaited] is the run of [await processImage(...)]. *)
Definition process_case (awaited : Handler ImageData) : Handler unit :=
  try_catch
    (then_ awaited (fun resultData => postMessage (ProcessComplete resultData)))
    (fun error => postMessage (ProcessError (error_message error))).

(** Record the outcome of a finished handler run for request [rid]. *)
Definition finish (rid : nat) (h : Handler unit) (w : Worker) : Worker :=
  {| session := session w; loadingPromise := loadingPromise w;
     inputNames := inputNames w; outputNames := outputNames w;
     promises := promises w; waiting := waiting w; inbox := inbox w;
     posted := posted w ++ map (fun r => (rid, r)) (fst h);
     engineCalls := engineCalls w;
     uncaught :=
       uncaught w ++ match snd h with Ok _ => [] | Throw e => [(rid, e)] end |}.

(** [self.onmessage]: the handler runs up to its [await]; a [load] whose
    promise is pending stays suspended until the promise settles. *)
Definition onmessage (message : WorkerMessage) (env : ProcessEnv) (w : Worker)
    : Worker :=
  let rid := length (inbox w) in
  let w0 :=
    {| session := session w; loadingPromise := loadingPromise w;
       inputNames := inputNames w; outputNames := outputNames w;
       promises := promises w; waiting := waiting w;
       inbox := inbox w ++ [message]; posted := posted w;
       engineCalls := engineCalls w; uncaught := uncaught w |} in
  match message with
  | Load =>
      match loadModel rid w0 with
      | (RetSession s, w1) => finish rid (load_case ([], Ok s)) w1
      | (RetPromise p, w1) =>
          {| session := session w1; loadingPromise := loadingPromise w1;
             inputNames := inputNames w1; outputNames := outputNames w1;
             promises := promises w1; waiting := waiting w1 ++ [(rid, p)];
             inbox := inbox w1; posted := posted w1;
             engineCalls := engineCalls w1; uncaught := uncaught w1 |}
      end
  | Process imageData maskData originalWidth originalHeight =>
      let '(calls, r) :=
        processImage env (session w0) (inputNames w0) (outputNames w0)
          imageData maskData originalWidth originalHeight in
      let w1 := finish rid (process_case ([], r)) w0 in
      {| session := session w1; loadingPromise := loadingPromise w1;
         inputNames := inputNames w1; outputNames := outputNames w1;
         promises := promises w1; waiting := waiting w1; inbox := inbox w1;
         posted := posted w1;
         engineCalls := engineCalls w1 ++ map (fun c => (rid, c)) calls;
         uncaught := uncaught w1 |}
  end.

(** Resume the [load] requests suspended on promise [p], in arrival order;
    the request that started the load sees the progress messages. *)
Definition resume (p starter : nat) (percents : list Z) (r : result Session)
    (w : Worker) : Worker :=
  fold_left
    (fun acc '(rid, q) =>
       if (q =? p)%nat then
         finish rid
           (load_case
              (if (rid =? starter)%nat then (map LoadProgress percents, r)
               else ([], r)))
           acc
       else acc)
    (waiting w)
    {| session := session w; loadingPromise := loadingPromise w;
       inputNames := inputNames w; outputNames := outputNames w;
       promises := promises w;
       waiting := filter (fun '(_, q) => q ≠ p) (waiting w);
       inbox := inbox w; posted := posted w;
       engineCalls := engineCalls w; uncaught := uncaught w |}.

(** The body of pending promise [p] runs to its end under [env]: on
    success the session and its tensor names are stored; the [catch]
    clears [loadingPromise] and rethrows.  Then the awaiting handlers
    resume.  Settling a promise that is not pending changes nothing. *)
Definition settle (p : nat) (env : LoadEnv) (w : Worker) : Worker :=
  match promises w !! p with
  | Some (Pending starter) =>
      let '(percents, r) := load_body env in
      let w1 :=
        match r with
        | Ok s =>
            {| session := Some s; loadingPromise := loadingPromise w;
               inputNames := session_inputNames s;
               outputNames := session_outputNames s;
               promises := <[p := Fulfilled s]> (promises w);
               waiting := waiting w; inbox := inbox w; posted := posted w;
               engineCalls := engineCalls w; uncaught := uncaught w |}
        | Throw e =>
            {| session := session w; loadingPromise := None;
               inputNames := inputNames w; outputNames := outputNames w;
               promises := <[p := Rejected e]> (promises w);
               waiting := waiting w; inbox := inbox w; posted := posted w;
               engineCalls := engineCalls w; uncaught := uncaught w |}
        end in
      resume p starter percents r w1
  | _ => w
  end.

(** The events of the worker's event loop. *)
Inductive Event : Type :=
| Receive (message : WorkerMessage) (env : ProcessEnv)
| Settle (p : nat) (env : LoadEnv).

Definition step (w : Worker) (ev : Event) : Worker :=
  match ev with
  | Receive message env => onmessage message env w
  | Settle p env => settle p env w
  end.

Definition run_events (evs : list Event) : Worker := fold_left step evs init.

(** The response on which [load_case] ends. *)
Definition load_terminal (r : result Session) : WorkerResponse :=
  match r with
  | Ok _ => LoadComplete
  | Throw e => LoadError (error_message e)
  end.

Definition process_terminal (r : result ImageData) : WorkerResponse :=
  match r with
  | Ok resultData => ProcessComplete resultData
  | Throw e => ProcessError (error_message e)
  end.

(** The posts of one resumed [load] handler. *)
Definition resumed_posts (starter : nat) (percents : list Z) (r : result Session)
    (rid : nat) : list (nat * WorkerResponse) :=
  map (fun resp => (rid, resp))
    ((if (rid =? starter)%nat then map LoadProgress percents else [])
     ++ [load_terminal r]).

(** The terminal responses, as opposed to progress reports. *)
Definition is_terminal (r : WorkerResponse) : bool :=
  match r with
  | LoadProgress _ => false
  | _ => true
  end.

(** The terminal responses posted on behalf of request [rid]. *)
Definition answers_in (rid : nat) (log : list (nat * WorkerResponse))
    : list WorkerResponse :=
  omap (fun entry : nat * WorkerResponse =>
          if (fst entry =? rid)%nat && is_terminal (snd entry)
          then Some (snd entry) else None) log.

Definition answers (rid : nat) (w : Worker) : list WorkerResponse :=
  answers_in rid (posted w).

(** The terminal response a request of each kind may get. *)
Definition answer_kind (m : WorkerMessage) (r : WorkerResponse) : bool :=
  match m, r with
  | Load, (LoadComplete | LoadError _) => true
  | Process _ _ _ _, (ProcessComplete _ | ProcessError _) => true
  | _, _ => false
  end.

(** A request is suspended when its handler sits at [await loadModel]. *)
Definition suspended (rid : nat) (w : Worker) : Prop :=
  rid ∈ (fst <$> waiting w).

(** What holds of every state the event loop reaches. *)
Record worker_inv (w : Worker) : Prop := mkWorkerInv {
  inv_uncaught : uncaught w = [];
  inv_pending : forall p st, promises w !! p = Some (Pending st) ->
    loadingPromise w = Some p /\ session w = None;
  inv_loading : forall p, session w = None -> loadingPromise w = Some p ->
    exists st, promises w !! p = Some (Pending st);
  inv_waiting : forall r p, (r, p) ∈ waiting w ->
    inbox w !! r = Some Load /\ exists st, promises w !! p = Some (Pending st);
  inv_nodup : NoDup (fst <$> waiting w);
  inv_posted : forall r resp, (r, resp) ∈ posted w -> (r < length (inbox w))%nat;
  inv_answers : forall r m, inbox w !! r = Some m ->
    (suspended r w /\ answers r w = [])
    \/ (~ suspended r w
        /\ exists resp, answers r w = [resp] /\ answer_kind m resp = true)
}.

End InpaintingWorker.

(** ** The page ([routes/index.tsx]) *)

Module App.

Import InpaintingWorker.

(** What one event of the page finds outside its own state: the answer
    of the usage tracker, the 2D contexts and the pixels read from the
    image and from the mask canvas, and the canvas that turns a result
    into a data URL. *)
Record PageEnv : Type := mkPageEnv {
  canProcess : bool;
  pageImageCtx : bool;
  imagePixels : ImageData;
  pageMaskCtx : bool;
  maskPixels : ImageData;
  pageResultCtx : bool;
  toDataURL : ImageData -> string
}.

(** The state of the component: the image (its width and height) and
    the mask canvas once chosen, the [useState] cells, whether
    [workerRef] holds a worker, whether the two [processing...Ref] hold
    the callbacks of a pending promise, the messages posted to the
    worker, and the number of calls of [recordUsage]. *)
Record Page : Type := mkPage {
  imageElement : option (Z * Z);
  maskCanvas : bool;
  resultUrl : option string;
  isProcessing : bool;
  isLoadingModel : bool;
  modelProgress : Z;
  error : option string;
  workerRef : bool;
  processingRef : bool;
  sent : list WorkerMessage;
  usage : nat
}.

Definition initial : Page :=
  {| imageElement := None; maskCanvas := false; resultUrl := None;
     isProcessing := false; isLoadingModel := true; modelProgress := 0;
     error := None; workerRef := false; processingRef := false;
     sent := []; usage := 0 |}.

Definition setImageElement (v : option (Z * Z)) (a : Page) : Page :=
  {| imageElement := v; maskCanvas := maskCanvas a; resultUrl := resultUrl a;
     isProcessing := isProcessing a; isLoadingModel := isLoadingModel a; modelProgress := modelProgress a;
     error := error a; workerRef := workerRef a; processingRef := processingRef a;
     sent := sent a; usage := usage a |}.

Definition setMaskCanvas (v : bool) (a : Page) : Page :=
  {| imageElement := imageElement a; maskCanvas := v; resultUrl := resultUrl a;
     isProcessing := isProcessing a; isLoadingModel := isLoadingModel a; modelProgress := modelProgress a;
     error := error a; workerRef := workerRef a; processingRef := processingRef a;
     sent := sent a; usage := usage a |}.

Definition setResultUrl (v : option string) (a : Page) : Page :=
  {| imageElement := imageElement a; maskCanvas := maskCanvas a; resultUrl := v;
     isProcessing := isProcessing a; isLoadingModel := isLoadingModel a; modelProgress := modelProgress a;
     error := error a; workerRef := workerRef a; processingRef := processingRef a;
     sent := sent a; usage := usage a |}.

Definition setIsProcessing (v : bool) (a : Page) : Page :=
  {| imageElement := imageElement a; maskCanvas := maskCanvas a; resultUrl := resultUrl a;
     isProcessing := v; isLoadingModel := isLoadingModel a; modelProgress := modelProgress a;
     error := error a; workerRef := workerRef a; processingRef := processingRef a;
     sent := sent a; usage := usage a |}.

Definition setIsLoadingModel (v : bool) (a : Page) : Page :=
  {| imageElement := imageElement a; maskCanvas := maskCanvas a; resultUrl := resultUrl a;
     isProcessing := isProcessing a; isLoadingModel := v; modelProgress := modelProgress a;
     error := error a; workerRef := workerRef a; processingRef := processingRef a;
     sent := sent a; usage := usage a |}.

Definition setModelProgress (v : Z) (a : Page) : Page :=
  {| imageElement := imageElement a; maskCanvas := maskCanvas a; resultUrl := resultUrl a;
     isProcessing := isProcessing a; isLoadingModel := isLoadingModel a; modelProgress := v;
     error := error a; workerRef := workerRef a; processingRef := processingRef a;
     sent := sent a; usage := usage a |}.

Definition setError (v : option string) (a : Page) : Page :=
  {| imageElement := imageElement a; maskCanvas := maskCanvas a; resultUrl := resultUrl a;
     isProcessing := isProcessing a; isLoadingModel := isLoadingModel a; modelProgress := modelProgress a;
     error := v; workerRef := workerRef a; processingRef := processingRef a;
     sent := sent a; usage := usage a |}.

Definition setWorkerRef (v : bool) (a : Page) : Page :=
  {| imageElement := imageElement a; maskCanvas := maskCanvas a; resultUrl := resultUrl a;
     isProcessing := isProcessing a; isLoadingModel := isLoadingModel a; modelProgress := modelProgress a;
     error := error a; workerRef := v; processingRef := processingRef a;
     sent := sent a; usage := usage a |}.

Definition setProcessingRef (v : bool) (a : Page) : Page :=
  {| imageElement := imageElement a; maskCanvas := maskCanvas a; resultUrl := resultUrl a;
     isProcessing := isProcessing a; isLoadingModel := isLoadingModel a; modelProgress := modelProgress a;
     error := error a; workerRef := workerRef a; processingRef := v;
     sent := sent a; usage := usage a |}.

Definition postMessage (m : WorkerMessage) (a : Page) : Page :=
  {| imageElement := imageElement a; maskCanvas := maskCanvas a; resultUrl := resultUrl a;
     isProcessing := isProcessing a; isLoadingModel := isLoadingModel a; modelProgress := modelProgress a;
     error := error a; workerRef := workerRef a; processingRef := processingRef a;
     sent := sent a ++ [m]; usage := usage a |}.

Definition recordUsage (a : Page) : Page :=
  {| imageElement := imageElement a; maskCanvas := maskCanvas a; resultUrl := resultUrl a;
     isProcessing := isProcessing a; isLoadingModel := isLoadingModel a; modelProgress := modelProgress a;
     error := error a; workerRef := workerRef a; processingRef := processingRef a;
     sent := sent a; usage := S (usage a) |}.

(** The mount effect: create the worker and ask it to load the model. *)
Definition mount (a : Page) : Page := postMessage Load (setWorkerRef true a).

(** The [finally] of [handleProcess]. *)
Definition finally (a : Page) : Page :=
  setProcessingRef false (setIsProcessing false a).

(** The [catch] of [handleProcess]. *)
Definition catch (e : Exn) (a : Page) : Page :=
  setError (Some ("Processing failed: " ++ error_message e)%string) a.

(** [handleProcess] up to its [await]. *)
Definition handleProcess (env : PageEnv) (a : Page) : Page :=
  match imageElement a, maskCanvas a with
  | Some (w, h), true =>
      if negb (canProcess env)
      then setError (Some "Unable to process. Please try again."%string) a
      else if negb (workerRef a) || isLoadingModel a
      then setError (Some "Model not loaded. Please wait..."%string) a
      else
        let a1 := recordUsage (setError None (setIsProcessing true a)) in
        if negb (pageImageCtx env)
        then finally (catch (Error "Failed to create image canvas context") a1)
        else if negb (pageMaskCtx env)
        then finally (catch (Error "Failed to get mask canvas context") a1)
        else postMessage (Process (imagePixels env) (maskPixels env) w h)
               (setProcessingRef true a1)
  | _, _ => setError (Some "Please select an image and create a mask"%string) a
  end.

(** The rest of [handleProcess] once its promise settles; nothing
    happens when the refs hold no callback. *)
Definition settleProcess (outcome : result string) (a : Page) : Page :=
  if processingRef a
  then finally (match outcome with
                | Ok url => setResultUrl (Some url) a
                | Throw e => catch e a
                end)
  else a.

Definition handleWorkerMessage (env : PageEnv) (message : WorkerResponse)
    (a : Page) : Page :=
  match message with
  | LoadProgress percent => setModelProgress percent a
  | LoadComplete => setIsLoadingModel false a
  | LoadError e =>
      setIsLoadingModel false
        (setError (Some ("Failed to load model: " ++ e)%string) a)
  | ProcessComplete resultData =>
      if pageResultCtx env
      then settleProcess (Ok (toDataURL env resultData)) a
      else settleProcess (Throw (Error "Failed to create result canvas")) a
  | ProcessError e => settleProcess (Throw (Error e)) a
  end.

(** [handleImageSelect], and the later [onload] of the image. *)
Definition handleImageSelect (a : Page) : Page :=
  setError None (setResultUrl None a).

Definition imageLoaded (w h : Z) (a : Page) : Page :=
  setImageElement (Some (w, h)) a.

Definition handleMaskChange (a : Page) : Page := setMaskCanvas true a.

(** A click on the button, which is rendered once an image and a mask
    are there and disabled while loading or processing. *)
Definition clickProcess (env : PageEnv) (a : Page) : Page :=
  match imageElement a, maskCanvas a with
  | Some _, true =>
      if isProcessing a || isLoadingModel a then a else handleProcess env a
  | _, _ => a
  end.

(** The events of a mounted page. *)
Inductive PageEvent : Type :=
| SelectImage
| ImageLoaded (w h : Z)
| MaskChange
| Click (env : PageEnv)
| FromWorker (env : PageEnv) (message : WorkerResponse).

Definition step (a : Page) (ev : PageEvent) : Page :=
  match ev with
  | SelectImage => handleImageSelect a
  | ImageLoaded w h => imageLoaded w h a
  | MaskChange => handleMaskChange a
  | Click env => clickProcess env a
  | FromWorker env message => handleWorkerMessage env message a
  end.

Definition run_events (evs : list PageEvent) : Page :=
  fold_left step evs (mount initial).

(** The [process] requests among posted messages, and the answers to
    such requests among the events of the page. *)
Definition is_process (m : WorkerMessage) : bool :=
  match m with Process _ _ _ _ => true | Load => false end.

Definition is_process_answer (ev : PageEvent) : bool :=
  match ev with
  | FromWorker _ (ProcessComplete _ | ProcessError _) => true
  | _ => false
  end.

(** What holds of the page after events of which [answered] were
    answers to [process] requests. *)
Definition page_inv (answered : nat) (a : Page) : Prop :=
  processingRef a = isProcessing a
  /\ workerRef a = true
  /\ (exists ps, sent a = Load :: ps /\ forallb is_process ps = true)
  /\ (isLoadingModel a = true ->
      sent a = [Load] /\ usage a = 0%nat /\ isProcessing a = false
      /\ resultUrl a = None)
  /\ (length (List.filter is_process (sent a))
      <= answered + (if isProcessing a then 1 else 0))%nat
  /\ (length (List.filter is_process (sent a)) <= usage a)%nat.

(** The responses the worker posted between two of its states, and
    their delivery to the page. *)
Definition new_posts (before after : Worker) : list WorkerResponse :=
  map snd (drop (length (posted before)) (posted after)).

Definition deliver (env : PageEnv) (responses : list WorkerResponse) (a : Page)
    : Page :=
  fold_left (fun acc r => handleWorkerMessage env r acc) responses a.

End App.

(** ** The mask editor ([WatermarkSelector]) *)

Module WatermarkSelector.

Local Open Scope R_scope.

Inductive PresetPosition : Type :=
| bottom_right | bottom_left | top_right | top_left | center | bottom_center.

Inductive Tool : Type := brush | eraser.

Inductive FillStyle : Type := white | black.

Record Point : Type := mkPoint { x : R; y : R }.

(** [interpolatePoints]. *)
Definition distance (p1 p2 : Point) : R :=
  sqrt ((x p2 - x p1) ^ 2 + (y p2 - y p1) ^ 2).

Definition steps (p1 p2 : Point) (size : R) : Z :=
  Z.max (Zfloor (distance p1 p2 / (size / 4))) 1.

Definition interpolatePoints (p1 p2 : Point) (size : R) : list Point :=
  map (fun i : nat =>
         let t := INR i / IZR (steps p1 p2 size) in
         {| x := x p1 + (x p2 - x p1) * t;
            y := y p1 + (y p2 - y p1) * t |})
      (seq 0 (S (Z.to_nat (steps p1 p2 size)))).

(** [a.slice(0, e)]: a negative [e] counts from the end. *)
Definition slice0 {A : Type} (a : list A) (e : Z) : list A :=
  if (e <? 0)%Z
  then take (Z.to_nat (Z.max (Z.of_nat (length a) + e) 0)) a
  else take (Z.to_nat e) a.

(** [a.shift()]. *)
Definition shift {A : Type} (a : list A) : list A := drop 1 a.

(** The refs of one mounted component that the history and the drawing
    handlers read and write.  [maskCanvasRef] holds the pixels of the mask
    canvas, or nothing before a successful mount. *)
Record Selector : Type := mkSelector {
  maskCanvasRef : option ImageData;
  historyRef : list ImageData;
  historyIndexRef : Z;
  isDrawingRef : bool;
  lastPointRef : option Point;
  brushSizeRef : R;
  activeToolRef : Tool;
  maskSize : number
}.

(** The refs as [useRef]/[useState] initialise them. *)
Definition initial : Selector :=
  {| maskCanvasRef := None; historyRef := []; historyIndexRef := -1;
     isDrawingRef := false; lastPointRef := None;
     brushSizeRef := 80; activeToolRef := brush; maskSize := Num 7 |}.

(** The history update shared by [saveToHistory] and [saveHistoryState]:
    truncate after the cursor, append the snapshot, drop the oldest entry
    past fifty. *)
Definition pushSnapshot (imageData : ImageData) (st : Selector) : Selector :=
  let newHistory := slice0 (historyRef st) (historyIndexRef st + 1) ++ [imageData] in
  let newHistory :=
    if (50 <? Z.of_nat (length newHistory))%Z then shift newHistory else newHistory in
  {| maskCanvasRef := maskCanvasRef st;
     historyRef := newHistory;
     historyIndexRef := Z.min (Z.of_nat (length newHistory) - 1) 49;
     isDrawingRef := isDrawingRef st; lastPointRef := lastPointRef st;
     brushSizeRef := brushSizeRef st; activeToolRef := activeToolRef st;
     maskSize := maskSize st |}.

Definition saveToHistory (st : Selector) : Selector :=
  match maskCanvasRef st with
  | None => st
  | Some imageData => pushSnapshot imageData st
  end.

Definition saveHistoryState (st : Selector) : Selector :=
  match maskCanvasRef st with
  | None => st
  | Some imageData => pushSnapshot imageData st
  end.

(** [putImageData(imageData, 0, 0)] and the cursor move shared by [undo]
    and [redo]. *)
Definition restore (newIndex : Z) (st : Selector) : Selector :=
  match js_index (historyRef st) newIndex with
  | Some imageData =>
      {| maskCanvasRef := Some imageData;
         historyRef := historyRef st;
         historyIndexRef := newIndex;
         isDrawingRef := isDrawingRef st; lastPointRef := lastPointRef st;
         brushSizeRef := brushSizeRef st; activeToolRef := activeToolRef st;
         maskSize := maskSize st |}
  | None => st
  end.

Definition undo (st : Selector) : Selector :=
  if (historyIndexRef st <=? 0)%Z then st
  else match maskCanvasRef st with
       | None => st
       | Some _ => restore (historyIndexRef st - 1) st
       end.

Definition redo (st : Selector) : Selector :=
  if (Z.of_nat (length (historyRef st)) - 1 <=? historyIndexRef st)%Z then st
  else match maskCanvasRef st with
       | None => st
       | Some _ => restore (historyIndexRef st + 1) st
       end.

Definition setMask (m : ImageData) (st : Selector) : Selector :=
  {| maskCanvasRef := Some m;
     historyRef := historyRef st; historyIndexRef := historyIndexRef st;
     isDrawingRef := isDrawingRef st; lastPointRef := lastPointRef st;
     brushSizeRef := brushSizeRef st; activeToolRef := activeToolRef st;
     maskSize := maskSize st |}.

(** The history holds between one and fifty snapshots and the cursor
    names one of them. *)
Definition hist_ok (st : Selector) : Prop :=
  is_Some (maskCanvasRef st)
  /\ (1 <= Z.of_nat (length (historyRef st)) <= 50)%Z
  /\ (0 <= historyIndexRef st <= Z.of_nat (length (historyRef st)) - 1)%Z.

(** A stroke commit at a moment when the mask canvas holds [m]. *)
Definition commit (st : Selector) (m : ImageData) : Selector :=
  saveHistoryState (setMask m st).

Section Canvas.

(** The rasteriser of the 2D context: [fillRect] with the given fill
    style, and [beginPath(); arc(x, y, r, 0, 2 * Math.PI); fill()]. *)
Variable fillRect :
  FillStyle -> number -> number -> number -> number -> ImageData -> ImageData.
Variable fillArc : FillStyle -> Point -> R -> ImageData -> ImageData.

(** The rectangle of a preset on a [w] x [h] canvas. *)
Definition presetRect (position : PresetPosition) (w h currentMaskSize : number)
    : number * number * number * number :=
  let maskW := js_mul w (js_div currentMaskSize (Num 100)) in
  let maskH := js_mul h (js_div currentMaskSize (Num 100)) in
  let padding := js_mul (Math_min w h) (js_lit (2 # 100)) in
  match position with
  | bottom_right =>
      (js_sub (js_sub w maskW) padding, js_sub (js_sub h maskH) padding,
       maskW, maskH)
  | bottom_left => (padding, js_sub (js_sub h maskH) padding, maskW, maskH)
  | top_right => (js_sub (js_sub w maskW) padding, padding, maskW, maskH)
  | top_left => (padding, padding, maskW, maskH)
  | center =>
      (js_div (js_sub w maskW) (Num 2), js_div (js_sub h maskH) (Num 2),
       maskW, maskH)
  | bottom_center =>
      (js_div (js_sub w maskW) (Num 2), js_sub (js_sub h maskH) padding,
       maskW, maskH)
  end.

Definition fillPreset (position : PresetPosition) (currentMaskSize : number)
    (m : ImageData) : ImageData :=
  let '(rx, ry, rw, rh) :=
    presetRect position (Num (inject_Z (width m))) (Num (inject_Z (height m)))
      currentMaskSize in
  fillRect white rx ry rw rh m.

Definition applyPresetMask (position : PresetPosition) (st : Selector) : Selector :=
  match maskCanvasRef st with
  | None => st
  | Some m => setMask (fillPreset position (maskSize st) m) (saveToHistory st)
  end.

Definition clearMask (st : Selector) : Selector :=
  match maskCanvasRef st with
  | None => st
  | Some m =>
      setMask
        (fillRect black (Num 0) (Num 0) (Num (inject_Z (width m)))
           (Num (inject_Z (height m))) m)
        (saveToHistory st)
  end.

(** The mount effect for an image of the given size; [ctxOk] tells
    whether the canvases and their 2D contexts were obtained, [st] holds
    the refs before the effect runs. *)
Definition mount (imageWidth imageHeight : Z) (ctxOk : bool)
    (initialPreset : option PresetPosition) (st : Selector) : Selector :=
  if negb ctxOk then st
  else
    let fresh :=
      mkImageData imageWidth imageHeight
        (replicate (Z.to_nat (4 * imageWidth * imageHeight)) 0%Z) in
    let initialImageData :=
      fillRect black (Num 0) (Num 0) (Num (inject_Z imageWidth))
        (Num (inject_Z imageHeight)) fresh in
    match initialPreset with
    | Some position =>
        let presetImageData := fillPreset position (Num 7) initialImageData in
        {| maskCanvasRef := Some presetImageData;
           historyRef := [initialImageData; presetImageData];
           historyIndexRef := 1;
           isDrawingRef := isDrawingRef st; lastPointRef := lastPointRef st;
           brushSizeRef := brushSizeRef st; activeToolRef := activeToolRef st;
           maskSize := maskSize st |}
    | None =>
        {| maskCanvasRef := Some initialImageData;
           historyRef := [initialImageData];
           historyIndexRef := 0;
           isDrawingRef := isDrawingRef st; lastPointRef := lastPointRef st;
           brushSizeRef := brushSizeRef st; activeToolRef := activeToolRef st;
           maskSize := maskSize st |}
    end.

(** The points [drawAt] stamps for a pointer position. *)
Definition stampPoints (st : Selector) (point : Point) : list Point :=
  match lastPointRef st with
  | Some last => interpolatePoints last point (brushSizeRef st)
  | None => [point]
  end.

Definition drawAt (point : Point) (st : Selector) : Selector :=
  match maskCanvasRef st with
  | None => st
  | Some m =>
      let style := match activeToolRef st with brush => white | eraser => black end in
      let m' :=
        fold_left (fun acc p => fillArc style p (brushSizeRef st / 2) acc)
          (stampPoints st point) m in
      {| maskCanvasRef := Some m';
         historyRef := historyRef st; historyIndexRef := historyIndexRef st;
         isDrawingRef := isDrawingRef st; lastPointRef := Some point;
         brushSizeRef := brushSizeRef st; activeToolRef := activeToolRef st;
         maskSize := maskSize st |}
  end.

Definition setDrawing (drawing : bool) (st : Selector) : Selector :=
  {| maskCanvasRef := maskCanvasRef st;
     historyRef := historyRef st; historyIndexRef := historyIndexRef st;
     isDrawingRef := drawing; lastPointRef := None;
     brushSizeRef := brushSizeRef st; activeToolRef := activeToolRef st;
     maskSize := maskSize st |}.

(** [handleMouseDown] and [handleTouchStart]. *)
Definition handleDown (point : Point) (st : Selector) : Selector :=
  drawAt point (setDrawing true (saveHistoryState st)).

(** [handleMouseMove] and [handleTouchMove]. *)
Definition handleMove (point : Point) (st : Selector) : Selector :=
  if isDrawingRef st then drawAt point st else st.

(** [handleMouseUp] and [handleTouchEnd]. *)
Definition handleUp (st : Selector) : Selector :=
  if isDrawingRef st then setDrawing false st else st.

Definition handleMouseLeave (st : Selector) : Selector := setDrawing false st.

(** What the user can do to a mounted editor. *)
Inductive Action : Type :=
| Down (point : Point)
| Move (point : Point)
| Up
| Leave
| Preset (position : PresetPosition)
| Clear
| Undo
| Redo.

Definition act (st : Selector) (a : Action) : Selector :=
  match a with
  | Down p => handleDown p st
  | Move p => handleMove p st
  | Up => handleUp st
  | Leave => handleMouseLeave st
  | Preset position => applyPresetMask position st
  | Clear => clearMask st
  | Undo => undo st
  | Redo => redo st
  end.

End Canvas.

(** [getBoundingClientRect()] of the visible canvas. *)
Record DOMRect : Type := mkRect {
  rect_left : R;
  rect_top : R;
  rect_width : R;
  rect_height : R
}.

(** [getCanvasCoords]: a pointer position in canvas pixels. *)
Definition getCanvasCoords (canvasWidth canvasHeight : R) (rect : DOMRect)
    (clientX clientY : R) : Point :=
  let scaleX := canvasWidth / rect_width rect in
  let scaleY := canvasHeight / rect_height rect in
  {| x := (clientX - rect_left rect) * scaleX;
     y := (clientY - rect_top rect) * scaleY |}.

(** The style [updateCursorImmediate] gives the brush cursor, lengths in
    CSS pixels. *)
Record CursorStyle : Type := mkCursor {
  cursor_left : R;
  cursor_top : R;
  cursor_width : R;
  cursor_height : R;
  borderColor : string
}.

Definition updateCursorImmediate (canvasWidth canvasHeight : R) (rect : DOMRect)
    (st : Selector) (point : Point) : CursorStyle :=
  let displayX := (x point / canvasWidth) * rect_width rect in
  let displayY := (y point / canvasHeight) * rect_height rect in
  let displaySize := (brushSizeRef st / canvasWidth) * rect_width rect in
  {| cursor_left := displayX; cursor_top := displayY;
     cursor_width := displaySize; cursor_height := displaySize;
     borderColor :=
       match activeToolRef st with
       | brush => "#ef4444"%string
       | eraser => "#3b82f6"%string
       end |}.

(** The [keydown] listener.  [setBrushSize] and [setActiveTool] reach the
    refs through their effects; the model writes the refs at once. *)
Record KeyboardEvent : Type := mkKey {
  key : string;
  metaKey : bool;
  ctrlKey : bool;
  shiftKey : bool;
  targetIsField : bool
}.

Definition setBrushSize (f : R -> R) (st : Selector) : Selector :=
  {| maskCanvasRef := maskCanvasRef st;
     historyRef := historyRef st; historyIndexRef := historyIndexRef st;
     isDrawingRef := isDrawingRef st; lastPointRef := lastPointRef st;
     brushSizeRef := f (brushSizeRef st); activeToolRef := activeToolRef st;
     maskSize := maskSize st |}.

Definition setActiveTool (t : Tool) (st : Selector) : Selector :=
  {| maskCanvasRef := maskCanvasRef st;
     historyRef := historyRef st; historyIndexRef := historyIndexRef st;
     isDrawingRef := isDrawingRef st; lastPointRef := lastPointRef st;
     brushSizeRef := brushSizeRef st; activeToolRef := t;
     maskSize := maskSize st |}.

Definition handleKeyDown (isFocused : bool) (e : KeyboardEvent) (st : Selector)
    : Selector :=
  if negb isFocused then st
  else if targetIsField e then st
  else if String.eqb (key e) "[" then setBrushSize (fun prev => Rmax 5 (prev - 5)) st
  else if String.eqb (key e) "]" then setBrushSize (fun prev => Rmin 100 (prev + 5)) st
  else if String.eqb (key e) "b" || String.eqb (key e) "B" then setActiveTool brush st
  else if String.eqb (key e) "e" || String.eqb (key e) "E" then setActiveTool eraser st
  else if (metaKey e || ctrlKey e) && String.eqb (key e) "z"
       then (if shiftKey e then redo st else undo st)
  else st.

(** The overlay pass of [redrawCanvas] and [scheduleRedraw]: one
    iteration of the loop over the mask pixels, and the loop on the fresh
    [createImageData] buffer of the temporary canvas. *)
Definition overlay_alpha (maskOpacity : number) : Z :=
  to_uint8_clamped (Math_round (js_mul (js_div maskOpacity (Num 100)) (Num 255))).

Definition overlay_step (maskOpacity : number) (maskData overlayData : list Z)
    (k : nat) : list Z :=
  let i := (k * 4)%nat in
  if js_gt (byte_to_number (maskData !! i)) (Num 127)
  then <[(i + 3)%nat := overlay_alpha maskOpacity]>
         (<[(i + 2)%nat := 68%Z]>
            (<[(i + 1)%nat := 68%Z]> (<[i := 239%Z]> overlayData)))
  else <[(i + 3)%nat := 0%Z]> overlayData.

Definition overlay_loop (maskOpacity : number) (maskData : list Z)
    (overlayLength : nat) (n : nat) : list Z :=
  fold_left (overlay_step maskOpacity maskData) (seq 0 n)
    (replicate overlayLength 0%Z).

(** The number of iterations of [for (i = 0; i < maskData.length; i += 4)]. *)
Definition overlay_iterations (maskData : list Z) : nat :=
  ((length maskData + 3) / 4)%nat.

Definition overlay (maskOpacity : number) (maskData : list Z)
    (overlayLength : nat) : list Z :=
  overlay_loop maskOpacity maskData overlayLength (overlay_iterations maskData).

End WatermarkSelector.

(** ** The SEO head-tag generator *)

Module Seo.

Local Open Scope string_scope.

Record MetaTag : Type := mkMeta {
  charSet : option string;
  name : option string;
  content : option string;
  property : option string;
  title : option string
}.

Record LinkTag : Type := mkLink {
  rel : string;
  href : string;
  sizes : option string
}.

Record ScriptTag : Type := mkScript {
  type : option string;
  children : option string
}.

Record HeadTags : Type := mkHead {
  meta : list MetaTag;
  links : list LinkTag;
  scripts : list ScriptTag
}.

Record BlogSeoPayload : Type := mkPost {
  slug : string;
  post_title : string;
  excerpt : option string;
  tags : option (list string);
  date : option string
}.

(** Object literals of the shapes the generator uses. *)
Definition metaName (n c : string) : MetaTag :=
  mkMeta None (Some n) (Some c) None None.
Definition metaProperty (p c : string) : MetaTag :=
  mkMeta None None (Some c) (Some p) None.
Definition metaTitle (t : string) : MetaTag :=
  mkMeta None None None None (Some t).
Definition metaCharSet (c : string) : MetaTag :=
  mkMeta (Some c) None None None None.

(** The tags of a head that carry a given [name] or [property]. *)
Definition has_name (n : string) (t : MetaTag) : bool :=
  match name t with Some m => String.eqb m n | None => false end.
Definition has_property (p : string) (t : MetaTag) : bool :=
  match property t with Some q => String.eqb q p | None => false end.

(** *** JavaScript values and [JSON.stringify] *)

Inductive jsval : Type :=
| VUndefined
| VNull
| VString (s : string)
| VArray (items : list jsval)
| VObject (fields : list (string * jsval)).

(** What [JSON.stringify] keeps of a value: properties whose value is
    [undefined] are left out, [undefined] array items become [null]. *)
Fixpoint prune (v : jsval) : jsval :=
  match v with
  | VArray items =>
      VArray (map (fun i => match i with VUndefined => VNull | _ => prune i end) items)
  | VObject fields =>
      VObject
        ((fix go (fs : list (string * jsval)) : list (string * jsval) :=
            match fs with
            | [] => []
            | (k, VUndefined) :: rest => go rest
            | (k, w) :: rest => (k, prune w) :: go rest
            end) fields)
  | _ => v
  end.

Definition dquote : string := String (ascii_of_nat 34) EmptyString.

Definition hex_digit (n : nat) : ascii :=
  if (n <? 10)%nat then ascii_of_nat (48 + n) else ascii_of_nat (87 + n).

(** The escape of one character inside a JSON string. *)
Definition escape_char (c : ascii) : string :=
  let n := nat_of_ascii c in
  if (n =? 34)%nat then "\" ++ dquote
  else if (n =? 92)%nat then "\\"
  else if (n =? 8)%nat then "\b"
  else if (n =? 9)%nat then "\t"
  else if (n =? 10)%nat then "\n"
  else if (n =? 12)%nat then "\f"
  else if (n =? 13)%nat then "\r"
  else if (n <? 32)%nat
       then "\u00" ++ String (hex_digit (n / 16)) (String (hex_digit (n mod 16)) EmptyString)
  else String c EmptyString.

Fixpoint escape (s : string) : string :=
  match s with
  | EmptyString => EmptyString
  | String c s' => escape_char c ++ escape s'
  end.

Definition quote (s : string) : string := dquote ++ escape s ++ dquote.

(** The text of a pruned value. *)
Fixpoint render (v : jsval) : string :=
  match v with
  | VUndefined | VNull => "null"
  | VString s => quote s
  | VArray items => "[" ++ join "," (map render items) ++ "]"
  | VObject fields =>
      "{" ++ join "," (map (fun kv => quote (fst kv) ++ ":" ++ render (snd kv)) fields) ++ "}"
  end.

Definition JSON_stringify (v : jsval) : string := render (prune v).

(** [JSON.parse] for the texts [render] produces: strings with the
    escapes above, arrays, objects and [null], no white space.  [fuel]
    bounds the nesting and length. *)
Definition hex_value (c : ascii) : option nat :=
  let n := nat_of_ascii c in
  if (48 <=? n)%nat && (n <=? 57)%nat then Some (n - 48)%nat
  else if (97 <=? n)%nat && (n <=? 102)%nat then Some (n - 87)%nat
  else if (65 <=? n)%nat && (n <=? 70)%nat then Some (n - 55)%nat
  else None.

(** The characters of a string literal after its opening quote. *)
Fixpoint parse_chars (s : string) : option (string * string) :=
  match s with
  | EmptyString => None
  | String c rest =>
      if Ascii.eqb c (ascii_of_nat 34) then Some (EmptyString, rest)
      else if Ascii.eqb c "\"%char then
        match rest with
        | String e rest' =>
            let plain (d : ascii) :=
              match parse_chars rest' with
              | Some (t, r) => Some (String d t, r)
              | None => None
              end in
            if Ascii.eqb e (ascii_of_nat 34) then plain (ascii_of_nat 34)
            else if Ascii.eqb e "\"%char then plain "\"%char
            else if Ascii.eqb e "/"%char then plain "/"%char
            else if Ascii.eqb e "b"%char then plain (ascii_of_nat 8)
            else if Ascii.eqb e "t"%char then plain (ascii_of_nat 9)
            else if Ascii.eqb e "n"%char then plain (ascii_of_nat 10)
            else if Ascii.eqb e "f"%char then plain (ascii_of_nat 12)
            else if Ascii.eqb e "r"%char then plain (ascii_of_nat 13)
            else if Ascii.eqb e "u"%char then
              match rest' with
              | String a (String b (String h (String l rest''))) =>
                  match hex_value a, hex_value b, hex_value h, hex_value l with
                  | Some 0%nat, Some 0%nat, Some hi, Some lo =>
                      match parse_chars rest'' with
                      | Some (t, r) => Some (String (ascii_of_nat (16 * hi + lo)) t, r)
                      | None => None
                      end
                  | _, _, _, _ => None
                  end
              | _ => None
              end
            else None
        | EmptyString => None
        end
      else
        match parse_chars rest with
        | Some (t, r) => Some (String c t, r)
        | None => None
        end
  end.

Fixpoint parse_value (fuel : nat) (s : string) : option (jsval * string) :=
  match fuel with
  | O => None
  | S fuel' =>
      match s with
      | String c rest =>
          if Ascii.eqb c (ascii_of_nat 34) then
            match parse_chars rest with
            | Some (t, r) => Some (VString t, r)
            | None => None
            end
          else if Ascii.eqb c "n"%char then
            if String.prefix "ull" rest
            then Some (VNull, String.substring 3 (String.length rest - 3) rest)
            else None
          else if Ascii.eqb c "["%char then
            match rest with
            | String "]"%char r => Some (VArray [], r)
            | _ =>
                (fun '(vs, r) => (VArray vs, r)) <$>
                (fix items (n : nat) (s : string) : option (list jsval * string) :=
                   match n with
                   | O => None
                   | S n' =>
                       match parse_value fuel' s with
                       | Some (v, String ","%char r) =>
                           match items n' r with
                           | Some (vs, r') => Some (v :: vs, r')
                           | None => None
                           end
                       | Some (v, String "]"%char r) => Some ([v], r)
                       | _ => None
                       end
                   end) fuel' rest
            end
          else if Ascii.eqb c "{"%char then
            match rest with
            | String "}"%char r => Some (VObject [], r)
            | _ =>
                (fun '(kvs, r) => (VObject kvs, r)) <$>
                (fix members (n : nat) (s : string)
                   : option (list (string * jsval) * string) :=
                   match n with
                   | O => None
                   | S n' =>
                       match s with
                       | String q s1 =>
                           if Ascii.eqb q (ascii_of_nat 34) then
                             match parse_chars s1 with
                             | Some (k, String ":"%char s2) =>
                                 match parse_value fuel' s2 with
                                 | Some (v, String ","%char r) =>
                                     match members n' r with
                                     | Some (kvs, r') => Some ((k, v) :: kvs, r')
                                     | None => None
                                     end
                                 | Some (v, String "}"%char r) => Some ([(k, v)], r)
                                 | _ => None
                                 end
                             | _ => None
                             end
                           else None
                       | EmptyString => None
                       end
                   end) fuel' rest
            end
          else None
      | EmptyString => None
      end
  end.

Definition JSON_parse (s : string) : option jsval :=
  match parse_value (String.length s) s with
  | Some (v, EmptyString) => Some v
  | _ => None
  end.

(** [obj[key]]. *)
Definition get_field (key : string) (v : jsval) : option jsval :=
  match v with
  | VObject fields => snd <$> find (fun kv => String.eqb (fst kv) key) fields
  | _ => None
  end.

Definition has_key (key : string) (v : jsval) : bool :=
  match get_field key v with Some _ => true | None => false end.

(** *** Site constants *)

Definition SITE_URL : string := "https://littlegoat.com.br".
Definition SITE_NAME : string := "Watermark Remover".
Definition DEFAULT_TITLE : string :=
  "Watermark Remover | Free AI-Powered Image Watermark Removal Tool".
Definition DEFAULT_DESCRIPTION : string :=
  "Remove watermarks from images instantly using AI. 100% free, unlimited removals, private browser-based processing. No sign-up required.".
Definition DEFAULT_KEYWORDS : list string :=
  [ "watermark remover"; "remove watermark"; "watermark removal tool";
    "AI watermark remover"; "remove watermark from image";
    "online watermark remover"; "free watermark remover";
    "watermark removal software"; "image watermark removal";
    "photo watermark remover"; "privacy watermark remover";
    "browser watermark remover" ].
Definition AUTHOR : string := "Little Goat".

(** [new URL(path, base).toString()] for a base made of scheme and host
    only, as [SITE_URL] is: the serialisation is the base, a slash, and
    the reference without its leading slash.  Normalisation inside the
    reference (dot segments, percent-encoding) is left out. *)
Definition URL_toString (path base : string) : string :=
  match path with
  | String "/"%char rest => base ++ "/" ++ rest
  | _ => base ++ "/" ++ path
  end.

(** [absoluteUrl(path = "/")]. *)
Definition absoluteUrl (arg : option string) : string :=
  let path := default "/" arg in
  if String.eqb path EmptyString then SITE_URL
  else if String.prefix "http://" path || String.prefix "https://" path then path
  else URL_toString path SITE_URL.

Definition DEFAULT_IMAGE : string := absoluteUrl (Some "/og-image.png").
Definition DEFAULT_LOGO : string := absoluteUrl (Some "/favicon-32x32.png").

Definition baseUrl : string := SITE_URL.

Definition defaultJsonLd : jsval :=
  VObject
    [ ("@context", VString "https://schema.org");
      ("@type", VString "SoftwareApplication");
      ("name", VString SITE_NAME);
      ("image", VString DEFAULT_IMAGE);
      ("url", VString (absoluteUrl (Some "/")));
      ("description", VString DEFAULT_DESCRIPTION);
      ("applicationCategory", VString "ImageEditingApplication");
      ("operatingSystem", VString "Web Browser");
      ("offers",
       VObject
         [ ("@type", VString "Offer");
           ("name", VString "Watermark Remover - Free Access");
           ("description",
            VString "AI-powered watermark removal tool. 100% free with unlimited removals. No sign-up required.");
           ("price", VString "0");
           ("priceCurrency", VString "USD") ]);
      ("aggregateRating",
       VObject
         [ ("@type", VString "AggregateRating");
           ("ratingValue", VString "5");
           ("reviewCount", VString "50") ]);
      ("featureList",
       VArray
         [ VString "AI-powered watermark removal";
           VString "Browser-based processing";
           VString "100% private";
           VString "Manual and auto detection";
           VString "High quality results";
           VString "Fast processing";
           VString "Completely free";
           VString "Unlimited removals" ]) ].

Definition getRootSeo : HeadTags :=
  let canonical := absoluteUrl (Some "/") in
  {| meta :=
       [ metaCharSet "utf-8";
         metaName "viewport" "width=device-width, initial-scale=1";
         metaTitle DEFAULT_TITLE;
         metaName "description" DEFAULT_DESCRIPTION;
         metaName "keywords" (join ", " DEFAULT_KEYWORDS);
         metaName "author" AUTHOR;
         metaName "robots" "index,follow";
         metaProperty "og:type" "website";
         metaProperty "og:site_name" SITE_NAME;
         metaProperty "og:url" canonical;
         metaProperty "og:title" DEFAULT_TITLE;
         metaProperty "og:description" DEFAULT_DESCRIPTION;
         metaProperty "og:image" DEFAULT_IMAGE;
         metaName "twitter:card" "summary_large_image";
         metaProperty "twitter:url" canonical;
         metaProperty "twitter:title" DEFAULT_TITLE;
         metaProperty "twitter:description" DEFAULT_DESCRIPTION;
         metaProperty "twitter:image" DEFAULT_IMAGE ];
     links :=
       [ mkLink "canonical" canonical None;
         mkLink "icon" "/favicon.ico" None;
         mkLink "icon" "/favicon-96x96.png" (Some "96x96");
         mkLink "apple-touch-icon" "/apple-touch-icon.png" None;
         mkLink "manifest" "/site.webmanifest" None ];
     scripts :=
       [ mkScript (Some "application/ld+json") (Some (JSON_stringify defaultJsonLd)) ] |}.

(** [String.prototype.trim].  The white space it strips is ECMAScript's
    WhiteSpace and LineTerminator: U+0009 to U+000D, U+0020, U+00A0,
    U+1680, U+2000 to U+200A, U+2028, U+2029, U+202F, U+205F, U+3000 and
    U+FEFF, listed here by their UTF-8 bytes. *)
Definition white_space : list (list nat) :=
  [ [9]; [10]; [11]; [12]; [13]; [32];
    [194; 160];
    [225; 154; 128];
    [226; 128; 128]; [226; 128; 129]; [226; 128; 130]; [226; 128; 131];
    [226; 128; 132]; [226; 128; 133]; [226; 128; 134]; [226; 128; 135];
    [226; 128; 136]; [226; 128; 137]; [226; 128; 138];
    [226; 128; 168]; [226; 128; 169];
    [226; 128; 175];
    [226; 129; 159];
    [227; 128; 128];
    [239; 187; 191] ]%nat.

Definition bytes_to_string (l : list nat) : string :=
  fold_right (fun n acc => String (ascii_of_nat n) acc) EmptyString l.

(** The number of bytes of the white space character [s] starts with, 0
    when it starts with none. *)
Definition ws_len (s : string) : nat :=
  match List.find (fun w => String.prefix (bytes_to_string w) s) white_space with
  | Some w => length w
  | None => 0
  end.

(** [skip] counts the bytes still to pass of the white space character
    being read. *)
Fixpoint trim_start_from (skip : nat) (s : string) : string :=
  match s with
  | EmptyString => EmptyString
  | String c rest =>
      match skip with
      | S k => trim_start_from k rest
      | O =>
          match ws_len s with
          | O => s
          | S k => trim_start_from k rest
          end
      end
  end.

Definition trim_start (s : string) : string := trim_start_from 0 s.

(** A string of white space only. *)
Fixpoint blank_from (skip : nat) (s : string) : bool :=
  match s with
  | EmptyString => true
  | String c rest =>
      match skip with
      | S k => blank_from k rest
      | O =>
          match ws_len s with
          | O => false
          | S k => blank_from k rest
          end
      end
  end.

Definition blank (s : string) : bool := blank_from 0 s.

Fixpoint trim_end (s : string) : string :=
  match s with
  | EmptyString => EmptyString
  | String c rest => if blank s then EmptyString else String c (trim_end rest)
  end.

Definition trim (s : string) : string := trim_end (trim_start s).

(** [a || b] where [a] may be [undefined] or empty. *)
Definition truthy_or (a : option string) (b : string) : string :=
  match a with
  | Some s => if String.eqb s EmptyString then b else s
  | None => b
  end.

Definition optional_string (o : option string) : jsval :=
  match o with Some s => VString s | None => VUndefined end.

Section Dates.

(** The platform's [Date]: the time value [new Date(input).getTime()], or
    nothing when it is [NaN]; and [toISOString] of a valid time value. *)
Variable Date_getTime : string -> option Z.
Variable toISOString : Z -> string.

Definition getIsoDate (input : option string) : option string :=
  match input with
  | None => None
  | Some i =>
      if String.eqb i EmptyString then None
      else match Date_getTime i with
           | None => None
           | Some t => Some (toISOString t)
           end
  end.

Definition post_keywords (post : BlogSeoPayload) : option string :=
  match tags post with
  | Some ts => if (0 <? length ts)%nat then Some (join ", " ts) else None
  | None => None
  end.

Definition blogJsonLd (post : BlogSeoPayload) : jsval :=
  let canonical := absoluteUrl (Some ("/blog/" ++ slug post)) in
  let description := truthy_or (trim <$> excerpt post) DEFAULT_DESCRIPTION in
  let isoDate := getIsoDate (date post) in
  VObject
    [ ("@context", VString "https://schema.org");
      ("@type", VString "BlogPosting");
      ("mainEntityOfPage",
       VObject [ ("@type", VString "WebPage"); ("@id", VString canonical) ]);
      ("headline", VString (post_title post));
      ("description", VString description);
      ("image", VString DEFAULT_IMAGE);
      ("datePublished", optional_string isoDate);
      ("dateModified", optional_string isoDate);
      ("author", VObject [ ("@type", VString "Person"); ("name", VString AUTHOR) ]);
      ("publisher",
       VObject
         [ ("@type", VString "Organization");
           ("name", VString SITE_NAME);
           ("logo",
            VObject [ ("@type", VString "ImageObject"); ("url", VString DEFAULT_LOGO) ]) ]);
      ("keywords", optional_string (post_keywords post)) ].

Definition getBlogPostSeo (post : BlogSeoPayload) : HeadTags :=
  let canonical := absoluteUrl (Some ("/blog/" ++ slug post)) in
  let description := truthy_or (trim <$> excerpt post) DEFAULT_DESCRIPTION in
  let keywords := default (join ", " DEFAULT_KEYWORDS) (post_keywords post) in
  let isoDate := getIsoDate (date post) in
  let meta0 :=
    [ metaTitle (post_title post ++ " | Little Goat Blog");
      metaName "description" description;
      metaName "author" AUTHOR;
      metaName "keywords" keywords;
      metaProperty "og:type" "article";
      metaProperty "og:site_name" SITE_NAME;
      metaProperty "og:url" canonical;
      metaProperty "og:title" (post_title post);
      metaProperty "og:description" description;
      metaProperty "og:image" DEFAULT_IMAGE;
      metaProperty "twitter:card" "summary_large_image";
      metaProperty "twitter:url" canonical;
      metaProperty "twitter:title" (post_title post);
      metaProperty "twitter:description" description;
      metaProperty "twitter:image" DEFAULT_IMAGE ] in
  let meta1 :=
    match isoDate with
    | Some iso =>
        (meta0 ++ [ metaProperty "article:published_time" iso;
                    metaProperty "article:modified_time" iso ])%list
    | None => meta0
    end in
  let meta2 :=
    (meta1 ++
     map (fun tag => metaProperty "article:tag" tag)
         (List.filter (fun tag => negb (String.eqb tag EmptyString)
                                  && (0 <? String.length (trim tag))%nat)
                      (default [] (tags post))))%list in
  {| meta := meta2;
     links := [ mkLink "canonical" canonical None ];
     scripts :=
       [ mkScript (Some "application/ld+json")
                  (Some (JSON_stringify (blogJsonLd post))) ] |}.

End Dates.

End Seo.

(** ** Sample inputs *)

Definition sample_tensor_env : InpaintingWorker.TensorEnv :=
  {| InpaintingWorker.imageCtx := true; InpaintingWorker.maskCtx := true;
     InpaintingWorker.imageBitmap := fun _ => Ok tt;
     InpaintingWorker.maskBitmap := fun _ => Ok tt;
     InpaintingWorker.scaled := fun d _ => data d |}.

Definition sample_image : ImageData := mkImageData 1 1 [51; 102; 255; 255].
Definition sample_mask : ImageData := mkImageData 1 1 [7; 7; 7; 255].

Definition sample_session : Session := mkSession 0 ["image"; "mask"] ["output"].

Definition sample_output : Tensor :=
  mkTensor (replicate (3 * (INPUT_SIZE * INPUT_SIZE)) (Num (- (1 # 2))))
    [1; 3; 512; 512].

Definition sample_output_env : InpaintingWorker.OutputEnv :=
  {| InpaintingWorker.canvasCtx := true;
     InpaintingWorker.resultCanvas := fun _ _ => Ok tt;
     InpaintingWorker.resultCtx := true;
     InpaintingWorker.readback := fun px w h => Ok (mkImageData w h (take 4 px)) |}.

Definition sample_process_env : InpaintingWorker.ProcessEnv :=
  {| InpaintingWorker.tensorEnv := sample_tensor_env;
     InpaintingWorker.run := fun _ _ => Ok {[ "output"%string := sample_output ]};
     InpaintingWorker.outputEnv := sample_output_env |}.

Definition sample_image_env : ImageEnv :=
  {| libCanvasCtx := true; libResultCtx := true;
     dataURL := fun _ _ _ => "data:image/png;base64,"%string |}.

(** A load attempt whose cache is empty and whose download answers 404;
    one that finds the model in the cache; one that downloads it in two
    chunks. *)
Definition sample_load_404 : LoadEnv :=
  {| cacheRead := GetResult None;
     fetched := Ok (mkResponse false 404 "Not Found" None None);
     cacheWrite := Ok tt;
     created := fun _ => Ok sample_session |}.

Definition sample_load_cached : LoadEnv :=
  {| cacheRead := GetResult (Some (mkCacheRecord (Some [1; 2; 3]) "1.0"));
     fetched := Throw NonError;
     cacheWrite := Ok tt;
     created := fun _ => Ok sample_session |}.

(** No IndexedDB: the worker's [indexedDB.open] throws. *)
Definition sample_load_no_indexedDB : LoadEnv :=
  {| cacheRead := OpenThrows (Error "indexedDB is not defined");
     fetched := Ok (mkResponse true 200 "OK" (Some 4)
                      (Some (mkBody [[1]; [2; 3; 4]] None)));
     cacheWrite := Ok tt;
     created := fun _ => Ok sample_session |}.

Definition sample_load_download : LoadEnv :=
  {| cacheRead := OpenError;
     fetched := Ok (mkResponse true 200 "OK" (Some 4)
                      (Some (mkBody [[1]; [2; 3; 4]] None)));
     cacheWrite := Throw (Error "Failed to save model to cache");
     created := fun _ => Ok sample_session |}.

(** A rasteriser that paints nothing, snapshots told apart by their red
    byte, and an editor mounted on a one-pixel image. *)
Definition sample_fillRect
    : WatermarkSelector.FillStyle -> number -> number -> number -> number ->
      ImageData -> ImageData :=
  fun _ _ _ _ _ m => m.

Definition sample_fillArc
    : WatermarkSelector.FillStyle -> WatermarkSelector.Point -> R -> ImageData -> ImageData :=
  fun _ _ _ m => m.

Definition sample_snapshot (k : nat) : ImageData :=
  mkImageData 1 1 [Z.of_nat k; 0; 0; 255].

Definition sample_mounted : WatermarkSelector.Selector :=
  WatermarkSelector.mount sample_fillRect 1 1 true
    (Some WatermarkSelector.bottom_right) WatermarkSelector.initial.

(** A platform [Date] that parses nothing, and a post whose date does not
    parse. *)
Definition sample_getTime : string -> option Z := fun _ => None.
Definition sample_toISOString : Z -> string := fun _ => "1970-01-01T00:00:00.000Z"%string.

Definition sample_post : Seo.BlogSeoPayload :=
  Seo.mkPost "hello" "Hello" (Some " An excerpt ") (Some ["a"; " "; "b"]%string)
    (Some "not a date"%string).
(** * Binary floating point *)
(** ** Powers of two *)

Lemma two_neq_0 : ~ (2 == 0)%Q.
Proof. discriminate. Qed.

Lemma pow2_pos (e : Z) : (0 < pow2 e)%Q.
Proof. apply Qpower_0_lt. reflexivity. Qed.

Lemma pow2_plus (a b : Z) : (pow2 (a + b) == pow2 a * pow2 b)%Q.
Proof. apply Qpower_plus, two_neq_0. Qed.

Lemma pow2_minus (a b : Z) : (pow2 (a - b) == pow2 a / pow2 b)%Q.
Proof. apply Qpower_minus, two_neq_0. Qed.

Lemma pow2_le (a b : Z) : a <= b -> (pow2 a <= pow2 b)%Q.
Proof. intros H. apply Qpower_le_compat_l; [exact H|discriminate]. Qed.

Lemma pow2_lt (a b : Z) : a < b -> (pow2 a < pow2 b)%Q.
Proof. intros H. apply Qpower_lt_compat_l; [exact H|reflexivity]. Qed.

Lemma pow2_lt_inv (a b : Z) : (pow2 a < pow2 b)%Q -> a < b.
Proof. intros H. apply (Qpower_lt_compat_l_inv 2); [exact H|reflexivity]. Qed.

Lemma pow2_Z (e : Z) : 0 <= e -> (pow2 e == inject_Z (2 ^ e))%Q.
Proof. intros H. unfold pow2. rewrite Zpower_Qpower by exact H. reflexivity. Qed.

Lemma pow2_S (e : Z) : (pow2 (e + 1) == 2 * pow2 e)%Q.
Proof. rewrite pow2_plus. change (pow2 1) with 2%Q. ring. Qed.

(** ** The binade of a positive rational *)

Lemma Z_quot_bounds (n d : positive) :
  let e0 := Z.log2 (Zpos n) - Z.log2 (Zpos d) in
  (pow2 (e0 - 1) < Zpos n # d < pow2 (e0 + 1))%Q.
Proof.
  cbn zeta.
  pose proof (Z.log2_spec (Zpos n) eq_refl) as [Hn1 Hn2].
  pose proof (Z.log2_spec (Zpos d) eq_refl) as [Hd1 Hd2].
  pose proof (Z.log2_nonneg (Zpos n)) as Hln.
  pose proof (Z.log2_nonneg (Zpos d)) as Hld.
  set (ln := Z.log2 (Zpos n)) in *. set (ld := Z.log2 (Zpos d)) in *.
  assert (Hq : (Zpos n # d == inject_Z (Zpos n) / inject_Z (Zpos d))%Q)
    by apply Qmake_Qdiv.
  assert (Hdpos : (0 < inject_Z (Zpos d))%Q) by reflexivity.
  assert (Hpn : (pow2 ln <= inject_Z (Zpos n))%Q).
  { rewrite pow2_Z by lia. rewrite <- Zle_Qle. exact Hn1. }
  assert (Hpn' : (inject_Z (Zpos n) < pow2 (ln + 1))%Q).
  { rewrite pow2_Z by lia. rewrite <- Zlt_Qlt. lia. }
  assert (Hpd : (pow2 ld <= inject_Z (Zpos d))%Q).
  { rewrite pow2_Z by lia. rewrite <- Zle_Qle. exact Hd1. }
  assert (Hpd' : (inject_Z (Zpos d) < pow2 (ld + 1))%Q).
  { rewrite pow2_Z by lia. rewrite <- Zlt_Qlt. lia. }
  pose proof (pow2_pos ld) as Hld0. pose proof (pow2_pos (ld + 1)) as Hld1.
  pose proof (pow2_pos ln) as Hln0.
  rewrite Hq. split.
  - replace (ln - ld - 1) with (ln - (ld + 1)) by lia. rewrite pow2_minus.
    apply Qlt_shift_div_l; [exact Hdpos|].
    apply Qlt_le_trans with (pow2 ln / pow2 (ld + 1) * pow2 (ld + 1))%Q.
    + apply Qmult_lt_l; [|exact Hpd'].
      apply Qlt_shift_div_l; [exact Hld1|]. rewrite Qmult_0_l. exact Hln0.
    + assert (E : (pow2 ln / pow2 (ld + 1) * pow2 (ld + 1) == pow2 ln)%Q).
      { field. intros H0. rewrite H0 in Hld1. discriminate. }
      rewrite E. exact Hpn.
  - replace (ln - ld + 1) with ((ln + 1) - ld) by lia. rewrite pow2_minus.
    apply Qlt_shift_div_r; [exact Hdpos|].
    apply Qlt_le_trans with (pow2 (ln + 1)); [exact Hpn'|].
    assert (E : (pow2 (ln + 1) == pow2 (ln + 1) / pow2 ld * pow2 ld)%Q).
    { field. intros H0. rewrite H0 in Hld0. discriminate. }
    rewrite E at 1. apply Qmult_le_l; [|exact Hpd].
    apply Qlt_shift_div_l; [exact Hld0|]. rewrite Qmult_0_l. apply pow2_pos.
Qed.

Lemma binade_spec (a : Q) :
  (0 < a)%Q -> (pow2 (binade a) <= a < pow2 (binade a + 1))%Q.
Proof.
  intros Ha. destruct a as [n d].
  assert (Hn : 0 < n).
  { unfold Qlt in Ha. cbn in Ha. lia. }
  destruct n as [|n|n]; try lia.
  pose proof (Z_quot_bounds n d) as [H1 H2]. cbn zeta in H1, H2.
  unfold binade. cbn [Qnum Qden].
  set (e0 := Z.log2 (Zpos n) - Z.log2 (Zpos d)) in *.
  destruct (Qle_bool (pow2 e0) (Zpos n # d)) eqn:E.
  - apply Qle_bool_iff in E. split; [exact E|exact H2].
  - split; [apply Qlt_le_weak; exact H1|].
    replace (e0 - 1 + 1) with e0 by lia.
    apply Qnot_le_lt. intros H. apply Qle_bool_iff in H. congruence.
Qed.

Lemma binade_unique (a : Q) (e : Z) :
  (pow2 e <= a < pow2 (e + 1))%Q -> binade a = e.
Proof.
  intros [H1 H2].
  assert (Ha : (0 < a)%Q) by (apply Qlt_le_trans with (pow2 e); [apply pow2_pos|exact H1]).
  destruct (binade_spec a Ha) as [B1 B2].
  assert (binade a < e + 1).
  { apply pow2_lt_inv. apply Qle_lt_trans with a; assumption. }
  assert (e < binade a + 1).
  { apply pow2_lt_inv. apply Qle_lt_trans with a; assumption. }
  lia.
Qed.

Lemma binade_mono (a b : Q) : (0 < a)%Q -> (a <= b)%Q -> binade a <= binade b.
Proof.
  intros Ha Hab.
  assert (Hb : (0 < b)%Q) by (apply Qlt_le_trans with a; assumption).
  destruct (binade_spec a Ha) as [A1 A2]. destruct (binade_spec b Hb) as [B1 B2].
  assert (binade a < binade b + 1); [|lia].
  apply pow2_lt_inv. apply Qle_lt_trans with a; [exact A1|].
  apply Qle_lt_trans with b; assumption.
Qed.

Lemma binade_eq (a b : Q) : (0 < a)%Q -> (a == b)%Q -> binade a = binade b.
Proof.
  intros Ha Hab. symmetry. apply binade_unique. rewrite <- Hab.
  apply binade_spec, Ha.
Qed.

(** ** Rounding to the nearest integer, ties to even *)

Lemma round_half_even_eq (x y : Q) :
  (x == y)%Q -> round_half_even x = round_half_even y.
Proof.
  intros H. unfold round_half_even.
  assert (Hf : Qfloor x = Qfloor y) by (rewrite H; reflexivity).
  rewrite Hf.
  assert (Hx : (x - inject_Z (Qfloor y) == y - inject_Z (Qfloor y))%Q)
    by (rewrite H; reflexivity).
  rewrite (Qleb_comp _ _ Hx _ _ (Qeq_refl (1 # 2))).
  rewrite (Qeqb_comp _ _ Hx _ _ (Qeq_refl (1 # 2))).
  reflexivity.
Qed.

(** The rounded value is an integer within one half of the argument. *)
Lemma round_half_even_near (x : Q) :
  (inject_Z (round_half_even x) - (1 # 2) <= x
   <= inject_Z (round_half_even x) + (1 # 2))%Q.
Proof.
  unfold round_half_even.
  pose proof (Qfloor_le x) as Hlo. pose proof (Qlt_floor x) as Hhi.
  set (f := Qfloor x) in *.
  assert (Hf1 : (inject_Z (f + 1) == inject_Z f + 1)%Q) by (rewrite inject_Z_plus; reflexivity).
  destruct (Qle_bool (x - inject_Z f) (1 # 2)) eqn:Hle.
  - apply Qle_bool_iff in Hle.
    destruct (Qeq_bool (x - inject_Z f) (1 # 2)) eqn:Heq.
    + apply Qeq_bool_iff in Heq. destruct (Z.even f); [Lqa.lra|]. rewrite Hf1. Lqa.lra.
    + Lqa.lra.
  - assert (Hgt : ((1 # 2) < x - inject_Z f)%Q).
    { apply Qnot_le_lt. intros H. apply Qle_bool_iff in H. congruence. }
    rewrite Hf1 in *. Lqa.lra.
Qed.

Lemma round_half_even_Z (k : Z) : round_half_even (inject_Z k) = k.
Proof.
  unfold round_half_even. rewrite Qfloor_Z.
  assert (H : (inject_Z k - inject_Z k == 0)%Q) by ring.
  assert (Hle : Qle_bool (inject_Z k - inject_Z k) (1 # 2) = true).
  { apply Qle_bool_iff. rewrite H. discriminate. }
  assert (Hne : Qeq_bool (inject_Z k - inject_Z k) (1 # 2) = false).
  { destruct (Qeq_bool _ _) eqn:E; [|reflexivity].
    apply Qeq_bool_eq in E. rewrite H in E. discriminate. }
  rewrite Hle, Hne. reflexivity.
Qed.

Lemma round_half_even_mono (x y : Q) :
  (x <= y)%Q -> round_half_even x <= round_half_even y.
Proof.
  intros Hxy.
  destruct (Qeq_dec x y) as [E|N].
  - rewrite (round_half_even_eq x y E). lia.
  - assert (Hlt : (x < y)%Q).
    { apply Qle_lt_or_eq in Hxy as [H|H]; [exact H|contradiction]. }
    (* the floors are ordered; if they agree the fractional parts decide *)
    pose proof (Qfloor_resp_le x y Hxy) as Hf.
    unfold round_half_even.
    pose proof (Qfloor_le x) as Hx1. pose proof (Qlt_floor x) as Hx2.
    pose proof (Qfloor_le y) as Hy1. pose proof (Qlt_floor y) as Hy2.
    set (fx := Qfloor x) in *. set (fy := Qfloor y) in *.
    assert (Hfx1 : (inject_Z (fx + 1) == inject_Z fx + 1)%Q) by (rewrite inject_Z_plus; reflexivity).
    assert (Hfy1 : (inject_Z (fy + 1) == inject_Z fy + 1)%Q) by (rewrite inject_Z_plus; reflexivity).
    destruct (Z.eq_dec fx fy) as [Efy|Nf].
    + rewrite <- Efy in *.
      destruct (Qle_bool (x - inject_Z fx) (1 # 2)) eqn:Lx;
        destruct (Qle_bool (y - inject_Z fx) (1 # 2)) eqn:Ly.
      * apply Qle_bool_iff in Lx, Ly.
        destruct (Qeq_bool (x - inject_Z fx) (1 # 2)) eqn:Ex.
        -- apply Qeq_bool_iff in Ex. exfalso. Lqa.lra.
        -- destruct (Qeq_bool (y - inject_Z fx) (1 # 2));
             [destruct (Z.even fx)|]; lia.
      * destruct (Qeq_bool (x - inject_Z fx) (1 # 2));
          [destruct (Z.even fx)|]; lia.
      * apply Qle_bool_iff in Ly.
        assert (((1 # 2) < x - inject_Z fx)%Q).
        { apply Qnot_le_lt. intros H. apply Qle_bool_iff in H. congruence. }
        exfalso. Lqa.lra.
      * lia.
    + assert (fx + 1 <= fy) by lia.
      assert (round_half_even_le : forall z, round_half_even z <= Qfloor z + 1).
      { intros z. unfold round_half_even.
        destruct (Qle_bool _ _); [destruct (Qeq_bool _ _); [destruct (Z.even _)|]|]; lia. }
      assert (round_half_even_ge : forall z, Qfloor z <= round_half_even z).
      { intros z. unfold round_half_even.
        destruct (Qle_bool _ _); [destruct (Qeq_bool _ _); [destruct (Z.even _)|]|]; lia. }
      pose proof (round_half_even_le x) as A. pose proof (round_half_even_ge y) as B.
      unfold round_half_even in A, B. fold fx in A. fold fy in B. lia.
Qed.

Lemma round_half_even_nonneg (x : Q) : (0 <= x)%Q -> 0 <= round_half_even x.
Proof.
  intros H. change 0 with (round_half_even (inject_Z 0)).
  apply round_half_even_mono. exact H.
Qed.

(** ** Rounding of a positive rational *)

Section RoundMag.
Variables (prec emin : Z).
Hypothesis prec_pos : 1 <= prec.

Lemma round_mag_val (a : Q) :
  (round_mag prec emin a
   == inject_Z (round_half_even (a / pow2 (ulp_exp prec emin a))) * pow2 (ulp_exp prec emin a))%Q.
Proof. unfold round_mag. apply Qred_correct. Qed.

Lemma round_mag_eq (a b : Q) :
  (0 < a)%Q -> (a == b)%Q -> round_mag prec emin a = round_mag prec emin b.
Proof.
  intros Ha Hab. unfold round_mag, ulp_exp. rewrite (binade_eq a b Ha Hab).
  apply Qred_complete.
  rewrite (round_half_even_eq (a / _) (b / pow2 (Z.max (binade b - (prec - 1)) emin)));
    [reflexivity|].
  rewrite Hab. reflexivity.
Qed.

Lemma scaled_back (x : Q) (u : Z) : (x / pow2 u * pow2 u == x)%Q.
Proof.
  field. intros H. pose proof (pow2_pos u) as Hp. rewrite H in Hp. discriminate.
Qed.

(** The rounded value is within half a unit of the argument. *)
Lemma round_mag_near (a : Q) :
  (round_mag prec emin a - pow2 (ulp_exp prec emin a - 1) <= a
   <= round_mag prec emin a + pow2 (ulp_exp prec emin a - 1))%Q.
Proof.
  rewrite round_mag_val. set (u := ulp_exp prec emin a).
  pose proof (round_half_even_near (a / pow2 u)) as [H1 H2].
  pose proof (pow2_pos u) as Hu.
  assert (Hhalf : (pow2 (u - 1) == (1 # 2) * pow2 u)%Q).
  { rewrite pow2_minus. change (pow2 1) with 2%Q. field. }
  rewrite Hhalf.
  set (m := inject_Z (round_half_even (a / pow2 u))) in *.
  assert (G1 : ((m - (1 # 2)) * pow2 u <= a / pow2 u * pow2 u)%Q)
    by (apply Qmult_le_compat_r; [exact H1|apply Qlt_le_weak; exact Hu]).
  assert (G2 : (a / pow2 u * pow2 u <= (m + (1 # 2)) * pow2 u)%Q)
    by (apply Qmult_le_compat_r; [exact H2|apply Qlt_le_weak; exact Hu]).
  rewrite scaled_back in G1, G2.
  split; Lqa.lra.
Qed.

Lemma round_mag_nonneg (a : Q) : (0 <= a)%Q -> (0 <= round_mag prec emin a)%Q.
Proof.
  intros Ha. rewrite round_mag_val.
  apply Qmult_le_0_compat; [|apply Qlt_le_weak, pow2_pos].
  change 0%Q with (inject_Z 0). rewrite <- Zle_Qle.
  apply round_half_even_nonneg.
  apply Qle_shift_div_l; [apply pow2_pos|]. rewrite Qmult_0_l. exact Ha.
Qed.

(** A power of two on the grid of [a] that bounds [a] bounds its rounded
    value, from above and from below. *)
Lemma round_mag_le_pow2 (a : Q) (k : Z) :
  (0 < a)%Q -> (a <= pow2 k)%Q -> emin <= k ->
  (round_mag prec emin a <= pow2 k)%Q.
Proof.
  intros Ha Hk Hemin.
  assert (He : binade a <= k).
  { rewrite <- (binade_unique (pow2 k) k).
    - apply binade_mono; assumption.
    - split; [apply Qle_refl|apply pow2_lt; lia]. }
  assert (Hu : ulp_exp prec emin a <= k) by (unfold ulp_exp; lia).
  rewrite round_mag_val. set (u := ulp_exp prec emin a) in *.
  assert (Hgrid : (pow2 k == inject_Z (2 ^ (k - u)) * pow2 u)%Q).
  { rewrite <- pow2_Z by lia. rewrite <- pow2_plus. replace (k - u + u) with k by lia.
    reflexivity. }
  rewrite Hgrid. apply Qmult_le_compat_r; [|apply Qlt_le_weak, pow2_pos].
  rewrite <- Zle_Qle.
  rewrite <- (round_half_even_Z (2 ^ (k - u))).
  apply round_half_even_mono.
  apply Qle_shift_div_r; [apply pow2_pos|]. rewrite <- Hgrid. exact Hk.
Qed.

Lemma round_mag_ge_pow2 (a : Q) (k : Z) :
  (pow2 k <= a)%Q -> ulp_exp prec emin a <= k ->
  (pow2 k <= round_mag prec emin a)%Q.
Proof.
  intros Hk Hu.
  rewrite round_mag_val. set (u := ulp_exp prec emin a) in *.
  assert (Hgrid : (pow2 k == inject_Z (2 ^ (k - u)) * pow2 u)%Q).
  { rewrite <- pow2_Z by lia. rewrite <- pow2_plus. replace (k - u + u) with k by lia.
    reflexivity. }
  rewrite Hgrid. apply Qmult_le_compat_r; [|apply Qlt_le_weak, pow2_pos].
  rewrite <- Zle_Qle.
  rewrite <- (round_half_even_Z (2 ^ (k - u))).
  apply round_half_even_mono.
  apply Qle_shift_div_l; [apply pow2_pos|]. rewrite <- Hgrid. exact Hk.
Qed.

Lemma round_mag_mono (a b : Q) :
  (0 < a)%Q -> (a <= b)%Q ->
  (round_mag prec emin a <= round_mag prec emin b)%Q.
Proof.
  intros Ha Hab.
  assert (Hb : (0 < b)%Q) by (apply Qlt_le_trans with a; assumption).
  pose proof (binade_mono a b Ha Hab) as He.
  destruct (binade_spec a Ha) as [A1 A2]. destruct (binade_spec b Hb) as [B1 B2].
  destruct (Z.eq_dec (ulp_exp prec emin a) (ulp_exp prec emin b)) as [Eu|Nu].
  - rewrite !round_mag_val. rewrite Eu.
    apply Qmult_le_compat_r; [|apply Qlt_le_weak, pow2_pos].
    rewrite <- Zle_Qle. apply round_half_even_mono.
    apply Qmult_le_compat_r; [exact Hab|].
    apply Qlt_le_weak, Qinv_lt_0_compat, pow2_pos.
  - assert (Hlt : ulp_exp prec emin a < ulp_exp prec emin b) by (unfold ulp_exp in *; lia).
    set (k := Z.max (binade a + 1) emin).
    assert (Hkb : k <= binade b) by (unfold ulp_exp, k in *; lia).
    apply Qle_trans with (pow2 k).
    + apply round_mag_le_pow2; [exact Ha| |unfold k; lia].
      apply Qle_trans with (pow2 (binade a + 1));
        [apply Qlt_le_weak; exact A2|apply pow2_le; unfold k; lia].
    + apply Qle_trans with (pow2 (binade b)); [apply pow2_le; exact Hkb|].
      apply round_mag_ge_pow2; [exact B1|unfold ulp_exp, k in *; lia].
Qed.

End RoundMag.

(** ** Rounding to a format *)

Section RoundTo.
Variables (prec emin emax : Z).
Hypothesis prec_pos : 1 <= prec.

Lemma round_to_eq (x y : Q) :
  (x == y)%Q -> round_to prec emin emax x = round_to prec emin emax y.
Proof.
  intros H. unfold round_to.
  destruct x as [nx dx], y as [ny dy]. unfold Qeq in H. cbn [Qnum Qden] in *.
  destruct nx as [|nx|nx], ny as [|ny|ny]; try lia; try reflexivity.
  - rewrite (round_mag_eq prec emin (Zpos nx # dx) (Zpos ny # dy));
      [reflexivity|reflexivity|exact H].
  - rewrite (round_mag_eq prec emin (- (Zneg nx # dx)) (- (Zneg ny # dy)));
      [reflexivity|reflexivity|].
    unfold Qeq, Qopp. cbn [Qnum Qden]. lia.
Qed.

(** A non-negative value bounded by a power of two of the format rounds
    to a finite value under the same bound. *)
Lemma round_to_bound (x : Q) (k : Z) :
  (0 <= x)%Q -> (x <= pow2 k)%Q -> emin <= k -> k < emax ->
  exists q, round_to prec emin emax x = Num q /\ (0 <= q <= pow2 k)%Q.
Proof.
  intros H0 Hk Hemin Hemax. unfold round_to.
  destruct x as [n d]. cbn [Qnum].
  destruct n as [|n|n].
  - exists 0%Q. split; [reflexivity|]. split; [apply Qle_refl|].
    apply Qlt_le_weak, pow2_pos.
  - pose proof (round_mag_le_pow2 prec emin prec_pos (Zpos n # d) k eq_refl Hk Hemin)
      as Hle.
    pose proof (round_mag_nonneg prec emin (Zpos n # d) H0) as Hge.
    destruct (Qle_bool (pow2 emax) (round_mag prec emin (Zpos n # d))) eqn:E.
    + apply Qle_bool_iff in E. exfalso.
      pose proof (pow2_lt k emax Hemax) as Hlt.
      apply (Qlt_irrefl (pow2 k)). apply Qlt_le_trans with (pow2 emax); [exact Hlt|].
      apply Qle_trans with (round_mag prec emin (Zpos n # d)); assumption.
    + eexists. split; [reflexivity|]. split; assumption.
  - exfalso. unfold Qle in H0. cbn in H0. lia.
Qed.

Lemma round_to_mono (x y : Q) (k : Z) :
  (0 <= x)%Q -> (x <= y)%Q -> (y <= pow2 k)%Q -> emin <= k -> k < emax ->
  exists p q,
    round_to prec emin emax x = Num p /\ round_to prec emin emax y = Num q
    /\ (0 <= p)%Q /\ (p <= q)%Q /\ (q <= pow2 k)%Q.
Proof.
  intros H0 Hxy Hk Hemin Hemax.
  assert (Hy0 : (0 <= y)%Q) by (apply Qle_trans with x; assumption).
  assert (Hxk : (x <= pow2 k)%Q) by (apply Qle_trans with y; assumption).
  destruct (round_to_bound x k H0 Hxk Hemin Hemax) as (p & Hp & Hp0 & Hpk).
  destruct (round_to_bound y k Hy0 Hk Hemin Hemax) as (q & Hq & Hq0 & Hqk).
  exists p, q. repeat split; try assumption.
  revert Hp Hq. unfold round_to.
  destruct x as [nx dx], y as [ny dy]. cbn [Qnum].
  destruct nx as [|nx|nx].
  - intros Hp _. injection Hp as <-. exact Hq0.
  - destruct ny as [|ny|ny].
    + exfalso. unfold Qle in Hxy. cbn in Hxy. lia.
    + destruct (Qle_bool _ _); [discriminate|].
      destruct (Qle_bool _ _); [discriminate|].
      intros Hp Hq. injection Hp as <-. injection Hq as <-.
      apply round_mag_mono; [exact prec_pos|reflexivity|exact Hxy].
    + exfalso. unfold Qle in Hy0. cbn in Hy0. lia.
  - exfalso. unfold Qle in H0. cbn in H0. lia.
Qed.

(** The rounding error of a value bounded in magnitude by [2^k]. *)
Lemma round_to_error (x : Q) (k : Z) :
  (Qabs x <= pow2 k)%Q -> emin + prec - 1 <= k -> k < emax ->
  exists q, round_to prec emin emax x = Num q
            /\ (Qabs (q - x) <= pow2 (k - prec))%Q
            /\ (Qabs q <= pow2 k)%Q.
Proof.
  intros Hk Hemin Hemax.
  assert (Hmag : forall a, (0 < a)%Q -> (a <= pow2 k)%Q ->
            (round_mag prec emin a <= pow2 k)%Q
            /\ (Qabs (round_mag prec emin a - a) <= pow2 (k - prec))%Q
            /\ (0 <= round_mag prec emin a)%Q).
  { intros a Ha Hak.
    split; [apply round_mag_le_pow2; [exact prec_pos|exact Ha|exact Hak|lia]|].
    split; [|apply round_mag_nonneg; apply Qlt_le_weak; exact Ha].
    pose proof (round_mag_near prec emin a) as [N1 N2].
    assert (He : binade a <= k).
    { rewrite <- (binade_unique (pow2 k) k).
      - apply binade_mono; assumption.
      - split; [apply Qle_refl|apply pow2_lt; lia]. }
    assert (Hu : (pow2 (ulp_exp prec emin a - 1) <= pow2 (k - prec))%Q)
      by (apply pow2_le; unfold ulp_exp; lia).
    apply Qabs_Qle_condition. split; Lqa.lra. }
  unfold round_to. destruct x as [n d]. cbn [Qnum].
  destruct n as [|n|n].
  - exists 0%Q. split; [reflexivity|].
    split; (apply Qle_trans with 0%Q; [|apply Qlt_le_weak, pow2_pos]);
      [|apply Qle_refl].
    assert (E : (0 - (0 # d) == 0)%Q) by (unfold Qeq; reflexivity).
    rewrite E. apply Qle_refl.
  - assert (Hx : (Zpos n # d <= pow2 k)%Q).
    { apply Qle_trans with (Qabs (Zpos n # d)); [apply Qle_Qabs|exact Hk]. }
    destruct (Hmag (Zpos n # d) eq_refl Hx) as (M1 & M2 & M3).
    destruct (Qle_bool (pow2 emax) (round_mag prec emin (Zpos n # d))) eqn:E.
    + apply Qle_bool_iff in E. exfalso.
      pose proof (pow2_lt k emax Hemax) as Hlt. Lqa.lra.
    + eexists. split; [reflexivity|]. split; [exact M2|].
      rewrite Qabs_pos by exact M3. exact M1.
  - assert (Hx : (- (Zneg n # d) <= pow2 k)%Q).
    { rewrite <- Qabs_opp in Hk.
      apply Qle_trans with (Qabs (- (Zneg n # d))); [apply Qle_Qabs|exact Hk]. }
    destruct (Hmag (- (Zneg n # d))%Q eq_refl Hx) as (M1 & M2 & M3).
    destruct (Qle_bool (pow2 emax) (round_mag prec emin (- (Zneg n # d)))) eqn:E.
    + apply Qle_bool_iff in E. exfalso.
      pose proof (pow2_lt k emax Hemax) as Hlt. Lqa.lra.
    + eexists. split; [reflexivity|]. split.
      * rewrite <- Qabs_opp.
        assert (E2 : (- (- round_mag prec emin (- (Zneg n # d)) - (Zneg n # d))
                      == round_mag prec emin (- (Zneg n # d)) - - (Zneg n # d))%Q)
          by ring.
        rewrite E2. exact M2.
      * rewrite Qabs_opp, Qabs_pos by exact M3. exact M1.
Qed.

End RoundTo.

(** * The tensors of the worker *)

Import InpaintingWorker.

Lemma fround_0 : fround (Num 0) = Num 0.
Proof. reflexivity. Qed.

Lemma fround_1 : fround (Num 1) = Num 1.
Proof. vm_compute. reflexivity. Qed.

Lemma fround_mask (b : bool) :
  fround (if b then Num 1 else Num 0) = if b then Num 1 else Num 0.
Proof. destruct b; [apply fround_1|apply fround_0]. Qed.

Section MaskedLoop.
Variables (size : nat) (imgData mskData : list Z).

Lemma masked_loop_S n :
  masked_loop size imgData mskData (S n)
  = masked_step size imgData mskData (masked_loop size imgData mskData n) n.
Proof.
  unfold masked_loop. rewrite seq_S, fold_left_app. reflexivity.
Qed.

Lemma masked_step_lengths acc i :
  length (imageTensorData (masked_step size imgData mskData acc i))
    = length (imageTensorData acc)
  /\ length (maskTensorData (masked_step size imgData mskData acc i))
    = length (maskTensorData acc).
Proof.
  unfold masked_step, Float32Array_set.
  destruct (js_eq _ _); cbn [imageTensorData maskTensorData];
    rewrite !length_insert; auto.
Qed.

Lemma masked_loop_lengths n :
  length (imageTensorData (masked_loop size imgData mskData n)) = (3 * size * size)%nat
  /\ length (maskTensorData (masked_loop size imgData mskData n)) = (size * size)%nat.
Proof.
  induction n as [|n IH].
  - unfold masked_loop, Float32Array. cbn [seq fold_left imageTensorData maskTensorData].
    rewrite !length_replicate. auto.
  - rewrite masked_loop_S.
    destruct (masked_step_lengths (masked_loop size imgData mskData n) n) as [-> ->].
    exact IH.
Qed.

Lemma masked_loop_mask n i :
  (n <= size * size)%nat -> (i < n)%nat ->
  maskTensorData (masked_loop size imgData mskData n) !! i = Some (mask_value mskData i).
Proof.
  induction n as [|n IH]; intros Hn Hi; [lia|].
  rewrite masked_loop_S.
  pose proof (masked_loop_lengths n) as [_ Hlen].
  assert (Hstep : maskTensorData
            (masked_step size imgData mskData (masked_loop size imgData mskData n) n)
          = <[n := mask_value mskData n]> (maskTensorData (masked_loop size imgData mskData n))).
  { unfold masked_step, mask_value, Float32Array_set. rewrite fround_mask.
    destruct (js_eq _ _); reflexivity. }
  rewrite Hstep.
  destruct (decide (i = n)) as [->|Hne].
  - apply list_lookup_insert_eq. lia.
  - rewrite list_lookup_insert_ne by lia. apply IH; lia.
Qed.

Lemma masked_step_image acc i :
  imageTensorData (masked_step size imgData mskData acc i)
  = <[(i + 2 * size * size)%nat := image_value imgData mskData 2 i]>
      (<[(i + size * size)%nat := image_value imgData mskData 1 i]>
         (<[i := image_value imgData mskData 0 i]> (imageTensorData acc))).
Proof.
  unfold masked_step, image_value, mask_value, Float32Array_set.
  rewrite Nat.add_0_r.
  destruct (js_gt _ _); reflexivity.
Qed.

Lemma masked_loop_image n i c :
  (n <= size * size)%nat -> (i < n)%nat -> (c < 3)%nat ->
  imageTensorData (masked_loop size imgData mskData n) !! (i + c * size * size)%nat
  = Some (image_value imgData mskData c i).
Proof.
  induction n as [|n IH]; intros Hn Hi Hc; [lia|].
  rewrite masked_loop_S, masked_step_image.
  pose proof (masked_loop_lengths n) as [Hlen _].
  set (l := imageTensorData (masked_loop size imgData mskData n)) in *.
  destruct (decide (i = n)) as [->|Hne].
  - assert (c = 0 \/ c = 1 \/ c = 2)%nat as [-> | [-> | ->]] by lia.
    + replace (n + 0 * size * size)%nat with n by lia.
      rewrite list_lookup_insert_ne by lia.
      rewrite list_lookup_insert_ne by lia.
      apply list_lookup_insert_eq. lia.
    + rewrite list_lookup_insert_ne by lia.
      replace (n + 1 * size * size)%nat with (n + size * size)%nat by lia.
      apply list_lookup_insert_eq. rewrite length_insert. lia.
    + apply list_lookup_insert_eq. rewrite !length_insert. lia.
  - assert (c = 0 \/ c = 1 \/ c = 2)%nat as [-> | [-> | ->]] by lia;
      (rewrite !list_lookup_insert_ne by lia; apply IH; lia).
Qed.

End MaskedLoop.

Lemma js_gt_byte (m : Z) :
  js_gt (byte_to_number (Some m)) (Num 127) = bool_decide (127 < m).
Proof.
  unfold js_gt, js_lt, byte_to_number, Qle_bool. cbn [Qnum Qden inject_Z].
  rewrite !Z.mul_1_r.
  destruct (Z.leb_spec m 127); cbn [negb];
    symmetry; [apply bool_decide_eq_false | apply bool_decide_eq_true]; lia.
Qed.

Lemma byte_div_255 (b : Z) :
  js_div (byte_to_number (Some b)) (Num 255) = double (inject_Z b / 255).
Proof. reflexivity. Qed.

(** What a [Float32Array] holds after the store of a byte divided by
    255: the binary32 nearest to the quotient, which lies in [0,1] and
    within [2^-25] of it. *)
Lemma byte_float32 (b : Z) :
  0 <= b <= 255 ->
  exists q : Q,
    fround (js_div (byte_to_number (Some b)) (Num 255)) = Num q
    /\ round_to 24 (-149) 128 (inject_Z b / 255) = Num q
    /\ (0 <= q <= 1)%Q
    /\ (Qabs (q - inject_Z b / 255) <= 1 # 33554432)%Q.
Proof.
  intros Hb.
  pose (check := fun n : nat =>
    let x := (inject_Z (Z.of_nat n) / 255)%Q in
    match fround (double x), round_to 24 (-149) 128 x with
    | Num q, Num q' =>
        Z.eqb (Qnum q) (Qnum q') && Pos.eqb (Qden q) (Qden q')
        && Qle_bool 0 q && Qle_bool q 1
        && Qle_bool (Qabs (q - x)) (1 # 33554432)
    | _, _ => false
    end).
  assert (Hall : forallb check (seq 0 256) = true) by (vm_compute; reflexivity).
  rewrite List.forallb_forall in Hall.
  assert (Hin : In (Z.to_nat b) (seq 0 256)) by (apply in_seq; lia).
  specialize (Hall _ Hin). unfold check in Hall. cbn zeta in Hall.
  rewrite Z2Nat.id in Hall by lia.
  rewrite byte_div_255.
  destruct (fround (double (inject_Z b / 255))) as [| |q|]; try discriminate.
  destruct (round_to 24 (-149) 128 (inject_Z b / 255)) as [| |q'|]; try discriminate.
  apply andb_prop in Hall as [Hall H5]. apply andb_prop in Hall as [Hall H4].
  apply andb_prop in Hall as [Hall H3]. apply andb_prop in Hall as [H1 H2].
  apply Z.eqb_eq in H1. apply Pos.eqb_eq in H2.
  apply Qle_bool_iff in H3, H4, H5.
  exists q. split; [reflexivity|]. split.
  - destruct q, q'. cbn in H1, H2. subst. reflexivity.
  - split; [split; assumption|exact H5].
Qed.

(** C1.  The tensors built by [createMaskedInputTensors] from the rescaled
    pixel buffers: at every pixel index [i] of the grid the mask tensor
    holds 1.0 exactly when the red byte of the rescaled mask exceeds 127
    and 0.0 otherwise; where it holds 1.0 the three image channels are
    exactly 0, where it holds 0.0 each channel is the rescaled source byte
    divided by 255 as the [Float32Array] holds it: the binary32 nearest
    to the quotient, a value in [0,1] within [2^-25] of it. *)
Theorem createMaskedInputTensors_masks_pixels
    (env : TensorEnv) (imageData maskData : ImageData) (size : nat)
    (imageTensor maskTensor : Tensor) :
  createMaskedInputTensors env imageData maskData size
    = Ok (imageTensor, maskTensor) ->
  length (scaled env imageData size) = (4 * size * size)%nat ->
  length (scaled env maskData size) = (4 * size * size)%nat ->
  Forall (fun b => 0 <= b <= 255) (scaled env imageData size) ->
  forall i : nat, (i < size * size)%nat ->
  exists m : Z,
    scaled env maskData size !! (i * 4)%nat = Some m
    /\ tensor_data maskTensor !! i
       = Some (if bool_decide (127 < m) then Num 1 else Num 0)
    /\ forall c : nat, (c < 3)%nat ->
       exists (b : Z) (q : Q),
         scaled env imageData size !! (i * 4 + c)%nat = Some b
         /\ tensor_data imageTensor !! (i + c * size * size)%nat
            = Some (if bool_decide (127 < m) then Num 0 else Num q)
         /\ fround (js_div (Num (inject_Z b)) (Num 255)) = Num q
         /\ round_to 24 (-149) 128 (inject_Z b / 255) = Num q
         /\ (0 <= q <= 1)%Q
         /\ (Qabs (q - inject_Z b / 255) <= 1 # 33554432)%Q.
Proof.
  intros Hrun Himg Hmsk Hbytes i Hi.
  unfold createMaskedInputTensors in Hrun.
  destruct (require (imageCtx env) _) as [[]|]; cbn in Hrun; [|discriminate].
  destruct (require (maskCtx env) _) as [[]|]; cbn in Hrun; [|discriminate].
  destruct (imageBitmap env imageData) as [[]|]; cbn in Hrun; [|discriminate].
  destruct (maskBitmap env maskData) as [[]|]; cbn in Hrun; [|discriminate].
  injection Hrun as <- <-. cbn [tensor_data].
  destruct (lookup_lt_is_Some_2 (scaled env maskData size) (i * 4)%nat) as [m Hm];
    [lia|].
  exists m. split; [exact Hm|].
  assert (Hmv : mask_value (scaled env maskData size) i
                = if bool_decide (127 < m) then Num 1 else Num 0).
  { unfold mask_value. rewrite Hm, js_gt_byte. reflexivity. }
  split.
  - rewrite masked_loop_mask by lia. f_equal. exact Hmv.
  - intros c Hc.
    destruct (lookup_lt_is_Some_2 (scaled env imageData size) (i * 4 + c)%nat)
      as [b Hb]; [lia|].
    assert (Hbyte : 0 <= b <= 255).
    { rewrite Forall_lookup in Hbytes. exact (Hbytes _ _ Hb). }
    destruct (byte_float32 b Hbyte) as (q & Hq & Hnear & Hunit & Herr).
    exists b, q. split; [exact Hb|]. split; [|auto].
    rewrite masked_loop_image by lia. f_equal.
    unfold image_value. rewrite Hmv, Hb, Hq.
    destruct (bool_decide (127 < m)); reflexivity.
Qed.

Lemma createMaskedInputTensors_masks_pixels_witness :
  exists m : Z,
    data sample_mask !! (0 * 4)%nat = Some m
    /\ [Num 0] !! 0%nat
       = Some (if bool_decide (127 < m) then Num 1 else Num 0)
    /\ forall c : nat, (c < 3)%nat ->
       exists (b : Z) (q : Q),
         data sample_image !! (0 * 4 + c)%nat = Some b
         /\ [Num (13421773 # 67108864); Num (13421773 # 33554432); Num 1]
              !! (0 + c * 1 * 1)%nat
            = Some (if bool_decide (127 < m) then Num 0 else Num q)
         /\ fround (js_div (Num (inject_Z b)) (Num 255)) = Num q
         /\ round_to 24 (-149) 128 (inject_Z b / 255) = Num q
         /\ (0 <= q <= 1)%Q
         /\ (Qabs (q - inject_Z b / 255) <= 1 # 33554432)%Q.
Proof.
  apply (createMaskedInputTensors_masks_pixels sample_tensor_env
           sample_image sample_mask 1%nat
           (mkTensor [Num (13421773 # 67108864); Num (13421773 # 33554432); Num 1]
              [1; 3; 1; 1])
           (mkTensor [Num 0] [1; 1; 1; 1])).
  - vm_compute. reflexivity.
  - reflexivity.
  - reflexivity.
  - repeat constructor; lia.
  - lia.
Defined.

(** An all-white mask zeroes the whole image tensor. *)
Lemma all_white_mask_zeroes_image
    (env : TensorEnv) (imageData maskData : ImageData) (size : nat)
    (imageTensor maskTensor : Tensor) :
  createMaskedInputTensors env imageData maskData size
    = Ok (imageTensor, maskTensor) ->
  (forall i m, scaled env maskData size !! (i * 4)%nat = Some m -> 127 < m) ->
  length (scaled env maskData size) = (4 * size * size)%nat ->
  forall k, (k < 3 * size * size)%nat ->
    tensor_data imageTensor !! k = Some (Num 0).
Proof.
  intros Hrun Hwhite Hmsk k Hk.
  unfold createMaskedInputTensors in Hrun.
  destruct (require (imageCtx env) _) as [[]|]; cbn in Hrun; [|discriminate].
  destruct (require (maskCtx env) _) as [[]|]; cbn in Hrun; [|discriminate].
  destruct (imageBitmap env imageData) as [[]|]; cbn in Hrun; [|discriminate].
  destruct (maskBitmap env maskData) as [[]|]; cbn in Hrun; [|discriminate].
  injection Hrun as <- <-. cbn [tensor_data].
  assert (Hpos : (0 < size * size)%nat) by lia.
  set (s2 := (size * size)%nat) in *.
  assert (Hdec : k = (k mod s2 + (k / s2) * size * size)%nat).
  { fold s2. rewrite <- Nat.mul_assoc. fold s2.
    rewrite (Nat.div_mod_eq k s2) at 1. lia. }
  assert (Hi : (k mod s2 < s2)%nat) by (apply Nat.mod_upper_bound; lia).
  assert (Hc : (k / s2 < 3)%nat) by (apply Nat.Div0.div_lt_upper_bound; lia).
  rewrite Hdec. rewrite masked_loop_image by (fold s2; lia).
  f_equal. unfold image_value, mask_value.
  destruct (lookup_lt_is_Some_2 (scaled env maskData size) (k mod s2 * 4)%nat)
    as [m Hm]; [lia|].
  rewrite Hm, js_gt_byte.
  rewrite bool_decide_eq_true_2 by (apply (Hwhite _ _ Hm)). reflexivity.
Qed.

(** *** The pixel loop of [tensorToImageData] *)

Section PixelLoop.
Variables (size : nat) (minVal maxVal : number) (tdata : list number).

Lemma pixel_loop_S n :
  pixel_loop size minVal maxVal tdata (S n)
  = pixel_step (size * size) minVal maxVal tdata
      (pixel_loop size minVal maxVal tdata n) n.
Proof.
  unfold pixel_loop. rewrite seq_S, fold_left_app. reflexivity.
Qed.

Lemma pixel_loop_length n :
  length (pixel_loop size minVal maxVal tdata n) = (4 * size * size)%nat.
Proof.
  induction n as [|n IH].
  - unfold pixel_loop. cbn [seq fold_left]. apply length_replicate.
  - rewrite pixel_loop_S. unfold pixel_step. rewrite !length_insert. exact IH.
Qed.

Lemma pixel_loop_channel n i c :
  (n <= size * size)%nat -> (i < n)%nat -> (c < 3)%nat ->
  pixel_loop size minVal maxVal tdata n !! (i * 4 + c)%nat
  = Some (to_channel (remap minVal maxVal
                        (to_number (tdata !! (i + c * (size * size))%nat)))).
Proof.
  induction n as [|n IH]; intros Hn Hi Hc; [lia|].
  rewrite pixel_loop_S. unfold pixel_step.
  pose proof (pixel_loop_length n) as Hlen.
  set (l := pixel_loop size minVal maxVal tdata n) in *.
  destruct (decide (i = n)) as [->|Hne].
  - assert (c = 0 \/ c = 1 \/ c = 2)%nat as [-> | [-> | ->]] by lia.
    + replace (n * 4 + 0)%nat with (n * 4)%nat by lia.
      replace (n + 0 * (size * size))%nat with n by lia.
      rewrite !list_lookup_insert_ne by lia.
      apply list_lookup_insert_eq. lia.
    + replace (n + 1 * (size * size))%nat with (n + size * size)%nat by lia.
      rewrite !list_lookup_insert_ne by lia.
      apply list_lookup_insert_eq. rewrite !length_insert. lia.
    + rewrite !list_lookup_insert_ne by lia.
      apply list_lookup_insert_eq. rewrite !length_insert. lia.
  - rewrite !list_lookup_insert_ne by lia. apply IH; lia.
Qed.

Lemma pixel_loop_alpha n i :
  (n <= size * size)%nat -> (i < n)%nat ->
  pixel_loop size minVal maxVal tdata n !! (i * 4 + 3)%nat = Some 255.
Proof.
  induction n as [|n IH]; intros Hn Hi; [lia|].
  rewrite pixel_loop_S. unfold pixel_step.
  pose proof (pixel_loop_length n) as Hlen.
  set (l := pixel_loop size minVal maxVal tdata n) in *.
  destruct (decide (i = n)) as [->|Hne].
  - apply list_lookup_insert_eq. rewrite !length_insert. lia.
  - rewrite !list_lookup_insert_ne by lia. apply IH; lia.
Qed.

End PixelLoop.

Lemma Qfloor_lt_Z (y : Q) (k : Z) : (y < inject_Z k)%Q -> Qfloor y < k.
Proof.
  intros H. rewrite Zlt_Qlt.
  apply Qle_lt_trans with y; [apply Qfloor_le | exact H].
Qed.

(** [Math.round(Math.max(0, Math.min(255, r * 255)))] stored into the
    pixel buffer: the product rounded to the nearest integer, ties
    upwards, and clamped. *)
Lemma clamp_round (x : number) :
  to_uint8_clamped (Math_round (Math_max (Num 0) (Math_min (Num 255) x)))
  = match x with
    | Num p => Z.max 0 (Z.min 255 (Qfloor (p + (1 # 2))))
    | Infinity => 255
    | _ => 0
    end.
Proof.
  destruct x as [| |x|]; try reflexivity.
  unfold Math_min. cbn [js_le].
  destruct (Qle_bool 255 x) eqn:Hhi.
  - apply Qle_bool_iff in Hhi.
    cbn [Math_max js_le]. change (Qle_bool 0 255) with true.
    cbn [Math_round to_uint8_clamped].
    rewrite round_half_even_Z.
    assert (255 <= Qfloor (x + (1 # 2))).
    { change 255 with (Qfloor (inject_Z 255)) at 1. apply Qfloor_resp_le.
      apply Qle_trans with x; [exact Hhi|].
      rewrite <- (Qplus_0_r x) at 1. apply Qplus_le_r. discriminate. }
    change (Qfloor (255 + (1 # 2))) with 255. lia.
  - assert (Hlt : (x < 255)%Q).
    { apply Qnot_le_lt. intros H. apply Qle_bool_iff in H. congruence. }
    unfold Math_max. cbn [js_le].
    destruct (Qle_bool 0 x) eqn:Hlo.
    + apply Qle_bool_iff in Hlo.
      cbn [Math_round to_uint8_clamped]. rewrite round_half_even_Z.
      reflexivity.
    + assert (Hneg : (x < 0)%Q).
      { apply Qnot_le_lt. intros H. apply Qle_bool_iff in H. congruence. }
      cbn [Math_round to_uint8_clamped]. rewrite round_half_even_Z.
      change (Qfloor (0 + (1 # 2))) with 0.
      assert (Qfloor (x + (1 # 2)) < 1).
      { apply Qfloor_lt_Z.
        apply Qlt_le_trans with (0 + (1 # 2))%Q;
          [apply Qplus_lt_l; exact Hneg | discriminate]. }
      lia.
Qed.

Lemma to_channel_eq (r : number) :
  to_channel r
  = match js_mul r (Num 255) with
    | Num p => Z.max 0 (Z.min 255 (Qfloor (p + (1 # 2))))
    | Infinity => 255
    | _ => 0
    end.
Proof. unfold to_channel. apply clamp_round. Qed.

Lemma isNormalized11_order (minVal maxVal : number) :
  isNormalized11 minVal maxVal
  = js_ge minVal (Num (- (11 # 10))) && js_lt minVal (Num (- (1 # 10)))
    && js_le maxVal (Num (11 # 10)).
Proof.
  unfold isNormalized11.
  destruct (js_ge _ _), (js_le _ _), (js_lt _ _); reflexivity.
Qed.

(** The pixels [tensorToImageData] hands to the final rescale. *)
Lemma tensorToImageData_pixels (env : OutputEnv) (tensor : Tensor)
    (w h : Z) (minVal maxVal : number) (out : ImageData) :
  tensorToImageData env tensor w h minVal maxVal = Ok out ->
  bad_dims (dims tensor) = false
  /\ readback env
       (pixel_loop INPUT_SIZE minVal maxVal (tensor_data tensor)
          (INPUT_SIZE * INPUT_SIZE)) w h = Ok out.
Proof.
  unfold tensorToImageData, check_dims. intros H.
  destruct (bad_dims (dims tensor)); [discriminate|].
  cbn [mbind result_bind] in H.
  destruct (require (canvasCtx env) _) as [[]|]; [|discriminate].
  cbn [mbind result_bind] in H.
  destruct (resultCanvas env w h) as [[]|]; [|discriminate].
  cbn [mbind result_bind] in H.
  destruct (require (resultCtx env) _) as [[]|]; [|discriminate].
  split; [reflexivity | exact H].
Qed.

(** A finished [processImage] went through [tensorToImageData] with the
    tensor the engine returned under the first output name, and with the
    minimum and maximum of its first 10,000 values. *)
Lemma processImage_output (env : ProcessEnv) (s : option Session)
    (inNames outNames : list string) (imageData maskData : ImageData)
    (w h : Z) (calls : list EngineCall) (out : ImageData) :
  processImage env s inNames outNames imageData maskData w h = (calls, Ok out) ->
  exists (s' : Session) (feeds results : gmap string Tensor)
         (outputTensor : Tensor),
    s = Some s'
    /\ run env s' feeds = Ok results
    /\ results !! property_key (outNames !! 0%nat) = Some outputTensor
    /\ tensorToImageData (outputEnv env) outputTensor w h
         (Math_min_spread (take SAMPLE (tensor_data outputTensor)))
         (Math_max_spread (take SAMPLE (tensor_data outputTensor))) = Ok out.
Proof.
  unfold processImage. intros H.
  destruct s as [s|]; [|discriminate].
  destruct (createMaskedInputTensors _ _ _ _) as [[it mt]|]; [|discriminate].
  injection H as _ H.
  match type of H with context [run env s ?f] => set (feeds := f) in * end.
  destruct (run env s feeds) as [results|] eqn:Hrun; [|discriminate].
  cbn [mbind result_bind] in H.
  destruct (results !! _) as [outputTensor|] eqn:Hout; [|discriminate].
  exists s, feeds, results, outputTensor. auto.
Qed.

(** C2.  Range detection on the output tensor.  With [m] and [M] the
    minimum and maximum of its first 10,000 values: if [m >= -1.1],
    [m < -0.1] and [M <= 1.1] every channel value [v] is remapped to
    [(v+1)/2]; else if [M > 1.1] and [M <= 255.5] it is divided by 255;
    otherwise it is used unchanged; and in all cases the 8-bit channel is
    [round (v' * 255)] clamped to [0,255], [v'] being the remapped
    value.  The sum, the quotients and the product are those of
    JavaScript, each rounded to binary64; an infinite product is clamped
    like any other and [NaN] gives 0. *)
Theorem processImage_range_detection (env : ProcessEnv) (s : option Session)
    (inNames outNames : list string) (imageData maskData : ImageData)
    (w h : Z) (calls : list EngineCall) (out : ImageData) :
  processImage env s inNames outNames imageData maskData w h = (calls, Ok out) ->
  exists (s' : Session) (feeds results : gmap string Tensor)
         (outputTensor : Tensor) (px : list Z),
    let m := Math_min_spread (take SAMPLE (tensor_data outputTensor)) in
    let M := Math_max_spread (take SAMPLE (tensor_data outputTensor)) in
    s = Some s'
    /\ run env s' feeds = Ok results
    /\ results !! property_key (outNames !! 0%nat) = Some outputTensor
    /\ readback (outputEnv env) px w h = Ok out
    /\ forall (i c : nat) (v : number),
         (i < INPUT_SIZE * INPUT_SIZE)%nat -> (c < 3)%nat ->
         tensor_data outputTensor !! (i + c * (INPUT_SIZE * INPUT_SIZE))%nat
           = Some v ->
         let v' :=
           if js_ge m (Num (- (11 # 10))) && js_lt m (Num (- (1 # 10)))
              && js_le M (Num (11 # 10))
           then js_div (js_add v (Num 1)) (Num 2)
           else if js_gt M (Num (11 # 10)) && js_le M (Num (511 # 2))
                then js_div v (Num 255)
                else v in
         px !! (i * 4 + c)%nat
         = Some (match js_mul v' (Num 255) with
                 | Num p => Z.max 0 (Z.min 255 (Qfloor (p + (1 # 2))))
                 | Infinity => 255
                 | _ => 0
                 end).
Proof.
  intros H.
  destruct (processImage_output _ _ _ _ _ _ _ _ _ _ H)
    as (s' & feeds & results & outputTensor & Hs & Hrun & Hres & Hout).
  apply tensorToImageData_pixels in Hout as [_ Hread].
  exists s', feeds, results, outputTensor. eexists. cbn zeta.
  split; [exact Hs|]. split; [exact Hrun|]. split; [exact Hres|].
  split; [exact Hread|].
  intros i c v Hi Hc Hv.
  rewrite pixel_loop_channel by lia.
  rewrite Hv. cbn [to_number]. rewrite to_channel_eq.
  unfold remap. rewrite isNormalized11_order. unfold is0255. reflexivity.
Qed.

Lemma processImage_range_detection_witness :
  exists (s' : Session) (feeds results : gmap string Tensor)
         (outputTensor : Tensor) (px : list Z),
    let m := Math_min_spread (take SAMPLE (tensor_data outputTensor)) in
    let M := Math_max_spread (take SAMPLE (tensor_data outputTensor)) in
    Some sample_session = Some s'
    /\ run sample_process_env s' feeds = Ok results
    /\ results !! property_key (["output"%string] !! 0%nat) = Some outputTensor
    /\ readback (outputEnv sample_process_env) px 1 1
       = Ok (mkImageData 1 1
               (take 4 (pixel_loop INPUT_SIZE
                          (Math_min_spread (take SAMPLE (tensor_data sample_output)))
                          (Math_max_spread (take SAMPLE (tensor_data sample_output)))
                          (tensor_data sample_output) (INPUT_SIZE * INPUT_SIZE))))
    /\ forall (i c : nat) (v : number),
         (i < INPUT_SIZE * INPUT_SIZE)%nat -> (c < 3)%nat ->
         tensor_data outputTensor !! (i + c * (INPUT_SIZE * INPUT_SIZE))%nat
           = Some v ->
         let v' :=
           if js_ge m (Num (- (11 # 10))) && js_lt m (Num (- (1 # 10)))
              && js_le M (Num (11 # 10))
           then js_div (js_add v (Num 1)) (Num 2)
           else if js_gt M (Num (11 # 10)) && js_le M (Num (511 # 2))
                then js_div v (Num 255)
                else v in
         px !! (i * 4 + c)%nat
         = Some (match js_mul v' (Num 255) with
                 | Num p => Z.max 0 (Z.min 255 (Qfloor (p + (1 # 2))))
                 | Infinity => 255
                 | _ => 0
                 end).
Proof.
  apply (processImage_range_detection sample_process_env (Some sample_session)
           ["image"; "mask"]%string ["output"]%string sample_image sample_mask
           1 1 [CallCreateTensors; CallRun]).
  reflexivity.
Defined.

(** The sum of the [-1, 1] branch is rounded before it is halved: for
    the value [-2^-60] the sum [1 - 2^-60] rounds to 1, the product is
    127.5 and the byte 128, where the exact product would give 127. *)
Example remap_rounds_the_sum :
  to_channel (remap (Num (- (1))) (Num 1) (Num (- (1 # 1152921504606846976))))
  = 128.
Proof. vm_compute. reflexivity. Qed.


(** *** The shape guard *)

(** The guard lets a shape through exactly when it has four entries that
    start with 1 and 3; the last two are not looked at. *)
Lemma check_dims_Ok (d : list Z) :
  check_dims d = Ok tt <-> exists H W : Z, d = [1; 3; H; W].
Proof.
  unfold check_dims, bad_dims. split.
  - destruct d as [|a [|b [|H [|W [|? ?]]]]]; cbn; try discriminate.
    repeat case_bool_decide; cbn; try discriminate.
    intros _. exists H, W. congruence.
  - intros (H & W & ->). reflexivity.
Qed.

Lemma check_dims_Throw (d : list Z) :
  (forall H W : Z, d <> [1; 3; H; W]) ->
  check_dims d = Throw (Error ("Unexpected tensor format: " ++ JSON_stringify_dims d)).
Proof.
  intros Hd. unfold check_dims.
  destruct (bad_dims d) eqn:E; [reflexivity|].
  assert (Hok : check_dims d = Ok tt) by (unfold check_dims; rewrite E; reflexivity).
  apply check_dims_Ok in Hok as (H & W & ->). destruct (Hd H W eq_refl).
Qed.

(** C4 (what the code does).  A tensor of shape [1,3,256,256] passes the
    guard of [tensorToImageData] and of [tensorToImage]: with the canvas
    services available both go on to the pixel loop and hand its pixels to
    the final rescale; no "Unexpected tensor format" error is raised. *)
Theorem shape_guard_accepts_256 (tdata : list number) (w h : Z)
    (minVal maxVal : number) :
  tensorToImageData sample_output_env (mkTensor tdata [1; 3; 256; 256]) w h
      minVal maxVal
    = readback sample_output_env
        (pixel_loop INPUT_SIZE minVal maxVal tdata (INPUT_SIZE * INPUT_SIZE)) w h
  /\ tensorToImage sample_image_env (mkTensor tdata [1; 3; 256; 256]) w h
    = Ok (dataURL sample_image_env
            (lib_pixel_loop INPUT_SIZE tdata (INPUT_SIZE * INPUT_SIZE)) w h).
Proof.
  unfold tensorToImageData, tensorToImage. cbn [dims tensor_data].
  change (check_dims [1; 3; 256; 256]) with (Ok tt : result unit).
  split; reflexivity.
Qed.

(** Shapes that are not of the form [1,3,H,W] are refused by both
    functions before any canvas is touched. *)
Lemma shape_guard_rejects (tensor : Tensor) (w h : Z)
    (minVal maxVal : number) (oenv : OutputEnv) (ienv : ImageEnv) :
  (forall H W : Z, dims tensor <> [1; 3; H; W]) ->
  tensorToImageData oenv tensor w h minVal maxVal
    = Throw (Error ("Unexpected tensor format: " ++ JSON_stringify_dims (dims tensor)))
  /\ tensorToImage ienv tensor w h
    = Throw (Error ("Unexpected tensor format: " ++ JSON_stringify_dims (dims tensor))).
Proof.
  intros Hd. unfold tensorToImageData, tensorToImage.
  rewrite (check_dims_Throw _ Hd). split; reflexivity.
Qed.

(** *** The message handler *)

Lemma load_case_eq (log : list WorkerResponse) (r : result Session) :
  load_case (log, r) = (log ++ [load_terminal r], Ok tt).
Proof. destruct r; reflexivity. Qed.

Lemma process_case_eq (log : list WorkerResponse) (r : result ImageData) :
  process_case (log, r) = (log ++ [process_terminal r], Ok tt).
Proof. destruct r; reflexivity. Qed.

Lemma answers_in_app (rid : nat) (l1 l2 : list (nat * WorkerResponse)) :
  answers_in rid (l1 ++ l2) = answers_in rid l1 ++ answers_in rid l2.
Proof. unfold answers_in. apply omap_app. Qed.

Lemma answers_in_progress (rid r0 : nat) (percents : list Z) :
  answers_in rid (map (fun r => (r0, r)) (map LoadProgress percents)) = [].
Proof.
  induction percents as [|pc ps IH]; [reflexivity|].
  cbn. rewrite andb_false_r. exact IH.
Qed.

Lemma answers_in_fresh (rid : nat) (log : list (nat * WorkerResponse)) :
  (forall r resp, (r, resp) ∈ log -> r <> rid) -> answers_in rid log = [].
Proof.
  induction log as [|[r resp] log IH]; intros H; [reflexivity|].
  cbn. destruct (Nat.eqb_spec r rid) as [->|Hne].
  - exfalso. apply (H rid resp); [left | reflexivity].
  - cbn. apply IH. intros r' resp' Hin. apply (H r' resp'). right. exact Hin.
Qed.

Lemma answers_in_resumed (starter : nat) (percents : list Z) (r : result Session)
    (rid r0 : nat) :
  answers_in rid (resumed_posts starter percents r r0)
  = if (r0 =? rid)%nat then [load_terminal r] else [].
Proof.
  unfold resumed_posts. rewrite map_app, answers_in_app.
  replace (answers_in rid (map (fun resp => (r0, resp))
             (if (r0 =? starter)%nat then map LoadProgress percents else [])))
    with (@nil WorkerResponse).
  2:{ destruct (r0 =? starter)%nat; [|reflexivity].
      symmetry. apply answers_in_progress. }
  cbn. destruct (r0 =? rid)%nat; [|reflexivity].
  destruct r; reflexivity.
Qed.

Lemma finish_load (rid : nat) (log : list WorkerResponse) (r : result Session)
    (w : Worker) :
  finish rid (load_case (log, r)) w
  = {| session := session w; loadingPromise := loadingPromise w;
       inputNames := inputNames w; outputNames := outputNames w;
       promises := promises w; waiting := waiting w; inbox := inbox w;
       posted := posted w ++ map (fun resp => (rid, resp)) (log ++ [load_terminal r]);
       engineCalls := engineCalls w; uncaught := uncaught w |}.
Proof.
  rewrite load_case_eq. unfold finish. cbn [fst snd].
  rewrite app_nil_r. reflexivity.
Qed.

Lemma resume_fold (p starter : nat) (percents : list Z) (r : result Session)
    (L : list (nat * nat)) (acc : Worker) :
  (forall rid q, (rid, q) ∈ L -> q = p) ->
  fold_left
    (fun acc '(rid, q) =>
       if (q =? p)%nat then
         finish rid
           (load_case
              (if (rid =? starter)%nat then (map LoadProgress percents, r)
               else ([], r)))
           acc
       else acc) L acc
  = {| session := session acc; loadingPromise := loadingPromise acc;
       inputNames := inputNames acc; outputNames := outputNames acc;
       promises := promises acc; waiting := waiting acc;
       inbox := inbox acc;
       posted := posted acc
                 ++ flat_map (fun e => resumed_posts starter percents r (fst e)) L;
       engineCalls := engineCalls acc; uncaught := uncaught acc |}.
Proof.
  revert acc. induction L as [|[rid q] L IH]; intros acc Hall.
  - cbn. rewrite app_nil_r. destruct acc; reflexivity.
  - assert (q = p) as -> by (apply (Hall rid); left).
    cbn [fold_left]. rewrite Nat.eqb_refl.
    rewrite IH by (intros rid' q' Hin; apply (Hall rid'); right; exact Hin).
    cbn [flat_map fst]. unfold resumed_posts at 2.
    destruct (rid =? starter)%nat; rewrite finish_load;
      cbn [session loadingPromise inputNames outputNames
           promises waiting inbox posted engineCalls uncaught];
      rewrite <- app_assoc; reflexivity.
Qed.

Lemma filter_waiting_nil (p : nat) (L : list (nat * nat)) :
  (forall rid q, (rid, q) ∈ L -> q = p) ->
  filter (fun '(_, q) => q ≠ p) L = [].
Proof.
  induction L as [|[rid q] L IH]; intros Hall; [reflexivity|].
  assert (q = p) as -> by (apply (Hall rid); left).
  rewrite filter_cons_False by (intros H; apply H; reflexivity).
  apply IH. intros rid' q' Hin. apply (Hall rid'). right. exact Hin.
Qed.

Lemma resume_eq (p starter : nat) (percents : list Z) (r : result Session)
    (w : Worker) :
  (forall rid q, (rid, q) ∈ waiting w -> q = p) ->
  resume p starter percents r w
  = {| session := session w; loadingPromise := loadingPromise w;
       inputNames := inputNames w; outputNames := outputNames w;
       promises := promises w; waiting := [];
       inbox := inbox w;
       posted := posted w
                 ++ flat_map (fun e => resumed_posts starter percents r (fst e))
                      (waiting w);
       engineCalls := engineCalls w; uncaught := uncaught w |}.
Proof.
  intros Hall. unfold resume.
  rewrite resume_fold by exact Hall.
  cbn [session loadingPromise inputNames outputNames
      promises waiting inbox posted engineCalls uncaught].
  rewrite (filter_waiting_nil p _ Hall). reflexivity.
Qed.

Lemma answers_in_flat_notin (starter : nat) (percents : list Z)
    (r : result Session) (rid : nat) (L : list (nat * nat)) :
  rid ∉ (fst <$> L) ->
  answers_in rid (flat_map (fun e => resumed_posts starter percents r (fst e)) L) = [].
Proof.
  induction L as [|[r0 q] L IH]; intros Hnotin; [reflexivity|].
  cbn [flat_map fst]. rewrite answers_in_app, answers_in_resumed.
  rewrite fmap_cons, not_elem_of_cons in Hnotin. destruct Hnotin as [Hne Hnotin].
  cbn [fst] in Hne.
  destruct (Nat.eqb_spec r0 rid) as [->|_]; [congruence|].
  cbn. apply IH. exact Hnotin.
Qed.

Lemma answers_in_flat_in (starter : nat) (percents : list Z)
    (r : result Session) (rid : nat) (L : list (nat * nat)) :
  NoDup (fst <$> L) -> rid ∈ (fst <$> L) ->
  answers_in rid (flat_map (fun e => resumed_posts starter percents r (fst e)) L)
  = [load_terminal r].
Proof.
  induction L as [|[r0 q] L IH]; intros Hnd Hin.
  - rewrite fmap_nil in Hin. inversion Hin.
  - rewrite fmap_cons in Hnd, Hin. cbn [fst] in Hnd, Hin.
    apply NoDup_cons in Hnd as [Hnotin Hnd].
    cbn [flat_map fst]. rewrite answers_in_app, answers_in_resumed.
    destruct (Nat.eqb_spec r0 rid) as [->|Hne].
    + rewrite answers_in_flat_notin by exact Hnotin. reflexivity.
    + apply elem_of_cons in Hin as [->|Hin]; [congruence|].
      cbn. apply IH; assumption.
Qed.

Lemma suspended_lt (w : Worker) (r : nat) :
  worker_inv w -> suspended r w -> inbox w !! r = Some Load.
Proof.
  intros Hinv Hs. unfold suspended in Hs.
  apply list_elem_of_fmap in Hs as ([r' p] & -> & Hin).
  apply (inv_waiting w Hinv) in Hin as [H _]. exact H.
Qed.

Lemma answers_fresh (w : Worker) :
  worker_inv w -> answers_in (length (inbox w)) (posted w) = [].
Proof.
  intros Hinv. apply answers_in_fresh. intros r resp Hin.
  apply (inv_posted w Hinv) in Hin. lia.
Qed.

Lemma not_suspended_fresh (w : Worker) :
  worker_inv w -> ~ suspended (length (inbox w)) w.
Proof.
  intros Hinv Hs. apply (suspended_lt w _ Hinv) in Hs.
  apply lookup_lt_Some in Hs. lia.
Qed.

Lemma worker_inv_init : worker_inv init.
Proof.
  split; unfold init; cbn [uncaught promises session loadingPromise waiting
                           inbox posted].
  - reflexivity.
  - intros p st H. rewrite lookup_nil in H. discriminate.
  - intros p _ H. discriminate.
  - intros r p H. inversion H.
  - constructor.
  - intros r resp H. inversion H.
  - intros r m H. rewrite lookup_nil in H. discriminate.
Qed.

Ltac worker_fields :=
  cbn [session loadingPromise inputNames outputNames promises waiting inbox
       posted engineCalls uncaught] in *.

(** The fresh request is answered at once. *)
Lemma worker_inv_answer (w : Worker) (m : WorkerMessage) (t : WorkerResponse)
    (calls : list (nat * EngineCall)) :
  worker_inv w -> answer_kind m t = true ->
  worker_inv
    {| session := session w; loadingPromise := loadingPromise w;
       inputNames := inputNames w; outputNames := outputNames w;
       promises := promises w; waiting := waiting w;
       inbox := inbox w ++ [m];
       posted := posted w ++ [(length (inbox w), t)];
       engineCalls := calls; uncaught := uncaught w |}.
Proof.
  intros Hinv Hkind.
  assert (Hterm : is_terminal t = true) by (destruct m, t; done).
  split; worker_fields.
  - apply (inv_uncaught w Hinv).
  - apply (inv_pending w Hinv).
  - apply (inv_loading w Hinv).
  - intros r p Hin. destruct (inv_waiting w Hinv r p Hin) as [Hl Hp].
    split; [|exact Hp]. apply lookup_app_l_Some. exact Hl.
  - apply (inv_nodup w Hinv).
  - intros r resp Hin. rewrite length_app. cbn [length].
    apply elem_of_app in Hin as [Hin|Hin].
    + apply (inv_posted w Hinv) in Hin. lia.
    + apply list_elem_of_singleton in Hin. injection Hin as -> _. lia.
  - intros r m' Hl. unfold suspended, answers. worker_fields.
    rewrite answers_in_app.
    apply lookup_snoc_Some in Hl as [[Hlt Hl]|[-> ->]].
    + replace (answers_in r [(length (inbox w), t)]) with (@nil WorkerResponse).
      2:{ cbn. destruct (Nat.eqb_spec (length (inbox w)) r); [lia|reflexivity]. }
      rewrite app_nil_r. apply (inv_answers w Hinv r m' Hl).
    + right. split; [apply not_suspended_fresh; exact Hinv|].
      exists t. split; [|exact Hkind].
      rewrite answers_fresh by exact Hinv.
      cbn. rewrite Nat.eqb_refl, Hterm. reflexivity.
Qed.

(** The fresh [load] request is suspended on a pending promise. *)
Lemma worker_inv_suspend (w : Worker) (p : nat) :
  worker_inv w ->
  (exists st, promises w !! p = Some (Pending st)) ->
  worker_inv
    {| session := session w; loadingPromise := loadingPromise w;
       inputNames := inputNames w; outputNames := outputNames w;
       promises := promises w;
       waiting := waiting w ++ [(length (inbox w), p)];
       inbox := inbox w ++ [Load];
       posted := posted w;
       engineCalls := engineCalls w; uncaught := uncaught w |}.
Proof.
  intros Hinv Hp.
  split; worker_fields.
  - apply (inv_uncaught w Hinv).
  - apply (inv_pending w Hinv).
  - apply (inv_loading w Hinv).
  - intros r q Hin. apply elem_of_app in Hin as [Hin|Hin].
    + destruct (inv_waiting w Hinv r q Hin) as [Hl Hq].
      split; [|exact Hq]. apply lookup_app_l_Some. exact Hl.
    + apply list_elem_of_singleton in Hin. injection Hin as -> ->.
      split; [|exact Hp]. apply list_lookup_middle. reflexivity.
  - rewrite fmap_app. apply NoDup_app. split; [apply (inv_nodup w Hinv)|].
    split; [|apply NoDup_singleton].
    intros r Hr Hr'. cbn in Hr'. apply list_elem_of_singleton in Hr' as ->.
    apply (not_suspended_fresh w Hinv). exact Hr.
  - intros r resp Hin. rewrite length_app. cbn [length].
    apply (inv_posted w Hinv) in Hin. lia.
  - intros r m' Hl. unfold suspended, answers. worker_fields.
    rewrite fmap_app. cbn [fmap list_fmap fst].
    apply lookup_snoc_Some in Hl as [[Hlt Hl]|[-> <-]].
    + destruct (inv_answers w Hinv r m' Hl) as [[Hs Ha]|[Hs Ha]].
      * left. split; [|exact Ha]. apply elem_of_app. left. exact Hs.
      * right. split; [|exact Ha]. intros Hin.
        apply elem_of_app in Hin as [Hin|Hin]; [exact (Hs Hin)|].
        apply list_elem_of_singleton in Hin. lia.
    + left. split.
      * apply elem_of_app. right. apply list_elem_of_singleton. reflexivity.
      * apply answers_fresh. exact Hinv.
Qed.

(** [loadModel] creates a promise when none is in flight. *)
Lemma worker_inv_new_promise (w : Worker) (rid : nat) :
  worker_inv w -> session w = None -> loadingPromise w = None ->
  worker_inv
    {| session := session w; loadingPromise := Some (length (promises w));
       inputNames := inputNames w; outputNames := outputNames w;
       promises := promises w ++ [Pending rid];
       waiting := waiting w; inbox := inbox w; posted := posted w;
       engineCalls := engineCalls w; uncaught := uncaught w |}.
Proof.
  intros Hinv Hs Hl.
  split; worker_fields.
  - apply (inv_uncaught w Hinv).
  - intros p st Hp. apply lookup_snoc_Some in Hp as [[Hlt Hp]|[-> _]].
    + apply (inv_pending w Hinv) in Hp as [Hp _]. congruence.
    + split; [reflexivity | exact Hs].
  - intros p _ Hp. injection Hp as <-. exists rid.
    apply list_lookup_middle. reflexivity.
  - intros r q Hin. destruct (inv_waiting w Hinv r q Hin) as [Hi [st Hq]].
    split; [exact Hi|]. exists st. apply lookup_app_l_Some. exact Hq.
  - apply (inv_nodup w Hinv).
  - apply (inv_posted w Hinv).
  - apply (inv_answers w Hinv).
Qed.

Lemma worker_inv_onmessage (message : WorkerMessage) (env : ProcessEnv)
    (w : Worker) :
  worker_inv w -> worker_inv (onmessage message env w).
Proof.
  intros Hinv. destruct message as [|imageData maskData ow oh].
  - unfold onmessage, loadModel. worker_fields.
    destruct (session w) as [s|] eqn:Hs.
    + rewrite finish_load. worker_fields. cbn [app map].
      rewrite <- Hs. apply (worker_inv_answer w Load LoadComplete _ Hinv).
      reflexivity.
    + destruct (loadingPromise w) as [p|] eqn:Hl.
      * worker_fields. rewrite <- Hs, <- Hl.
        apply worker_inv_suspend; [exact Hinv|].
        apply (inv_loading w Hinv); assumption.
      * worker_fields.
        pose proof (worker_inv_new_promise w (length (inbox w)) Hinv Hs Hl) as H1.
        apply (worker_inv_suspend _ (length (promises w))) in H1.
        -- worker_fields. rewrite Hs in H1. exact H1.
        -- worker_fields. exists (length (inbox w)).
           apply list_lookup_middle. reflexivity.
  - unfold onmessage. worker_fields.
    destruct (processImage env (session w) (inputNames w) (outputNames w)
                imageData maskData ow oh) as [calls r].
    rewrite process_case_eq. unfold finish. cbn [fst snd]. worker_fields.
    rewrite app_nil_r. cbn [app map].
    apply (worker_inv_answer w _ (process_terminal r) _ Hinv).
    destruct r; reflexivity.
Qed.

Lemma waiting_on_pending (w : Worker) (p starter : nat) :
  worker_inv w -> promises w !! p = Some (Pending starter) ->
  forall rid q, (rid, q) ∈ waiting w -> q = p.
Proof.
  intros Hinv Hp rid q Hin.
  destruct (inv_waiting w Hinv rid q Hin) as [_ [st Hq]].
  apply (inv_pending w Hinv) in Hq as [Hq _].
  apply (inv_pending w Hinv) in Hp as [Hp _]. congruence.
Qed.

(** The state after the pending promise [p] has settled with [r]. *)
Lemma settle_eq (p starter : nat) (env : LoadEnv) (w : Worker) :
  worker_inv w -> promises w !! p = Some (Pending starter) ->
  settle p env w
  = {| session := match snd (load_body env) with
                  | Ok s => Some s
                  | Throw _ => session w
                  end;
       loadingPromise := match snd (load_body env) with
                         | Ok _ => loadingPromise w
                         | Throw _ => None
                         end;
       inputNames := match snd (load_body env) with
                     | Ok s => session_inputNames s
                     | Throw _ => inputNames w
                     end;
       outputNames := match snd (load_body env) with
                      | Ok s => session_outputNames s
                      | Throw _ => outputNames w
                      end;
       promises := <[p := match snd (load_body env) with
                          | Ok s => Fulfilled s
                          | Throw e => Rejected e
                          end]> (promises w);
       waiting := [];
       inbox := inbox w;
       posted := posted w
                 ++ flat_map (fun e => resumed_posts starter (fst (load_body env))
                                         (snd (load_body env)) (fst e))
                      (waiting w);
       engineCalls := engineCalls w; uncaught := uncaught w |}.
Proof.
  intros Hinv Hp. unfold settle. rewrite Hp.
  pose proof (waiting_on_pending w p starter Hinv Hp) as Hall.
  destruct (load_body env) as [percents [s|e]]; cbn [fst snd];
    rewrite resume_eq by exact Hall; reflexivity.
Qed.

Lemma worker_inv_settle (p : nat) (env : LoadEnv) (w : Worker) :
  worker_inv w -> worker_inv (settle p env w).
Proof.
  intros Hinv.
  destruct (promises w !! p) as [[starter|s|e]|] eqn:Hp;
    try (unfold settle; rewrite Hp; exact Hinv).
  rewrite (settle_eq p starter env w Hinv Hp).
  destruct (inv_pending w Hinv p starter Hp) as [Hload Hsess].
  set (r := snd (load_body env)). set (percents := fst (load_body env)).
  assert (Hother : forall p' st,
             <[p := match r with Ok s => Fulfilled s | Throw e => Rejected e end]>
               (promises w) !! p' = Some (Pending st) -> False).
  { intros p' st H. destruct (decide (p' = p)) as [->|Hne].
    - rewrite list_lookup_insert_eq in H by (eapply lookup_lt_Some; exact Hp).
      destruct r; discriminate.
    - rewrite list_lookup_insert_ne in H by congruence.
      apply (inv_pending w Hinv) in H as [H _]. congruence. }
  split; worker_fields.
  - apply (inv_uncaught w Hinv).
  - intros p' st H. destruct (Hother p' st H).
  - intros p' Hs Hl. destruct r; [discriminate|discriminate].
  - intros r0 q H. inversion H.
  - constructor.
  - intros r0 resp Hin. apply elem_of_app in Hin as [Hin|Hin].
    + apply (inv_posted w Hinv) in Hin. exact Hin.
    + apply list_elem_of_In, in_flat_map in Hin as ([r1 q] & Hw & Hin).
      unfold resumed_posts in Hin. apply in_map_iff in Hin as (resp' & Heq & _).
      injection Heq as <- _. cbn [fst].
      apply list_elem_of_In in Hw.
      destruct (inv_waiting w Hinv r1 q Hw) as [Hl _].
      eapply lookup_lt_Some. exact Hl.
  - intros r0 m Hl. right. unfold suspended, answers. worker_fields.
    split; [rewrite fmap_nil; apply not_elem_of_nil|].
    rewrite answers_in_app.
    destruct (inv_answers w Hinv r0 m Hl) as [[Hs Ha]|[Hs (resp & Ha & Hk)]].
    + exists (load_terminal r). unfold answers in Ha. rewrite Ha. cbn [app].
      split.
      * apply answers_in_flat_in; [apply (inv_nodup w Hinv) | exact Hs].
      * pose proof (suspended_lt w r0 Hinv Hs) as Hm.
        assert (m = Load) as -> by congruence.
        destruct r; reflexivity.
    + exists resp. unfold answers in Ha. rewrite Ha.
      rewrite answers_in_flat_notin by exact Hs. split; [reflexivity | exact Hk].
Qed.

Lemma worker_inv_step (w : Worker) (ev : Event) :
  worker_inv w -> worker_inv (step w ev).
Proof.
  destruct ev; [apply worker_inv_onmessage | apply worker_inv_settle].
Qed.

Lemma worker_inv_fold (evs : list Event) (w : Worker) :
  worker_inv w -> worker_inv (fold_left step evs w).
Proof.
  revert w. induction evs as [|ev evs IH]; intros w Hinv; [exact Hinv|].
  cbn [fold_left]. apply IH, worker_inv_step, Hinv.
Qed.

Lemma worker_inv_reachable (evs : list Event) : worker_inv (run_events evs).
Proof. apply worker_inv_fold, worker_inv_init. Qed.

(** Two [load] requests share one failing attempt; a third starts a new
    one, which finds the model in the cache. *)
Example worker_run_retry :
  posted (run_events [Receive Load sample_process_env;
                      Receive Load sample_process_env;
                      Settle 0 sample_load_404;
                      Receive Load sample_process_env;
                      Settle 1 sample_load_cached;
                      Receive Load sample_process_env])
  = [(0%nat, LoadError "Model file not found at /models/lama_fp32.onnx");
     (1%nat, LoadError "Model file not found at /models/lama_fp32.onnx");
     (2%nat, LoadProgress 100); (2%nat, LoadComplete);
     (3%nat, LoadComplete)].
Proof. reflexivity. Qed.

Example worker_run_download :
  posted (run_events [Receive Load sample_process_env;
                      Receive (Process sample_image sample_mask 1 1) sample_process_env;
                      Settle 0 sample_load_download])
  = [(1%nat, ProcessError "Model not loaded");
     (0%nat, LoadProgress 25); (0%nat, LoadProgress 100); (0%nat, LoadComplete)].
Proof. reflexivity. Qed.

(** What the handler posts for a [process] request: the result of
    [processImage], or the message of what it threw. *)
Lemma onmessage_process_answer (w : Worker) (env : ProcessEnv)
    (imageData maskData : ImageData) (ow oh : Z) :
  worker_inv w ->
  answers (length (inbox w)) (onmessage (Process imageData maskData ow oh) env w)
  = [match snd (processImage env (session w) (inputNames w) (outputNames w)
                  imageData maskData ow oh) with
     | Ok resultData => ProcessComplete resultData
     | Throw e => ProcessError (error_message e)
     end].
Proof.
  intros Hinv. unfold answers, onmessage. worker_fields.
  destruct (processImage env (session w) (inputNames w) (outputNames w)
              imageData maskData ow oh) as [calls r].
  rewrite process_case_eq. unfold finish. cbn [fst snd]. worker_fields.
  rewrite answers_in_app, (answers_fresh w Hinv). cbn.
  rewrite Nat.eqb_refl. destruct r; reflexivity.
Qed.

(** A [load] request is answered at once when the session exists, and
    waits for the load promise otherwise. *)
Lemma onmessage_load_answer (w : Worker) (env : ProcessEnv) :
  worker_inv w ->
  match session w with
  | Some _ => answers (length (inbox w)) (onmessage Load env w) = [LoadComplete]
  | None => suspended (length (inbox w)) (onmessage Load env w)
  end.
Proof.
  intros Hinv. destruct (session w) as [s|] eqn:Hs.
  - unfold answers, onmessage, loadModel. worker_fields. rewrite Hs.
    rewrite finish_load. worker_fields.
    rewrite answers_in_app, (answers_fresh w Hinv). cbn.
    rewrite Nat.eqb_refl. reflexivity.
  - unfold suspended, onmessage, loadModel. worker_fields. rewrite Hs.
    destruct (loadingPromise w); worker_fields;
      rewrite fmap_app; apply elem_of_app; right; cbn;
      apply list_elem_of_singleton; reflexivity.
Qed.

(** What a suspended [load] request gets when the promise settles:
    [load-complete] after a successful attempt, the message of the thrown
    error otherwise. *)
Lemma settle_load_answer (w : Worker) (rid p st : nat) (env : LoadEnv) :
  worker_inv w -> suspended rid w -> promises w !! p = Some (Pending st) ->
  answers rid (settle p env w)
  = [match snd (load_body env) with
     | Ok _ => LoadComplete
     | Throw e => LoadError (error_message e)
     end].
Proof.
  intros Hinv Hs Hp.
  pose proof (suspended_lt w rid Hinv Hs) as Hl.
  destruct (inv_answers w Hinv rid Load Hl) as [[_ Ha]|[Hns _]]; [|contradiction].
  rewrite (settle_eq p st env w Hinv Hp). unfold answers in *. worker_fields.
  rewrite answers_in_app, Ha. cbn [app].
  rewrite answers_in_flat_in; [|apply (inv_nodup w Hinv)|exact Hs].
  reflexivity.
Qed.

(** C3.  In every state the worker reaches no exception has left the
    message handler, and every request received so far either has exactly
    one terminal response of its kind ([load-complete] or [load-error]
    for a [load], [process-complete] or [process-error] for a [process])
    or is a [load] suspended on the one pending load promise with no
    terminal response yet.  The response tells the outcome: a [process]
    request is answered at once, with the image [processImage] returned
    or with the message of the error it threw; a [load] request is
    answered at once with [load-complete] when the session exists, and is
    suspended otherwise; a suspended request gets, when the promise
    settles, [load-complete] if the attempt succeeded and [load-error]
    with the message of the thrown error if it failed.  What is thrown
    and is not an [Error] is reported as [Unknown error]. *)
Theorem onmessage_answers_every_request (evs : list Event) :
  let w := run_events evs in
  uncaught w = []
  /\ (forall rid m, inbox w !! rid = Some m ->
        (suspended rid w /\ m = Load /\ answers rid w = [])
        \/ (~ suspended rid w
            /\ exists resp, answers rid w = [resp]
               /\ match m with
                  | Load => resp = LoadComplete \/ exists e, resp = LoadError e
                  | Process _ _ _ _ =>
                      (exists d, resp = ProcessComplete d)
                      \/ exists e, resp = ProcessError e
                  end))
  /\ (forall imageData maskData ow oh env,
        let w' := onmessage (Process imageData maskData ow oh) env w in
        uncaught w' = []
        /\ answers (length (inbox w)) w'
           = [match snd (processImage env (session w) (inputNames w)
                           (outputNames w) imageData maskData ow oh) with
              | Ok resultData => ProcessComplete resultData
              | Throw (Error message) => ProcessError message
              | Throw NonError => ProcessError "Unknown error"
              end])
  /\ (forall env,
        let w' := onmessage Load env w in
        uncaught w' = []
        /\ match session w with
           | Some _ => answers (length (inbox w)) w' = [LoadComplete]
           | None => suspended (length (inbox w)) w'
           end)
  /\ (forall rid, suspended rid w ->
        exists p st,
          loadingPromise w = Some p
          /\ promises w !! p = Some (Pending st)
          /\ forall env,
               uncaught (settle p env w) = []
               /\ ~ suspended rid (settle p env w)
               /\ answers rid (settle p env w)
                  = [match snd (load_body env) with
                     | Ok _ => LoadComplete
                     | Throw (Error message) => LoadError message
                     | Throw NonError => LoadError "Unknown error"
                     end]).
Proof.
  cbn zeta. pose proof (worker_inv_reachable evs) as Hinv.
  set (w := run_events evs) in *.
  assert (Hkind : forall m resp, answer_kind m resp = true ->
            match m with
            | Load => resp = LoadComplete \/ exists e, resp = LoadError e
            | Process _ _ _ _ =>
                (exists d, resp = ProcessComplete d) \/ exists e, resp = ProcessError e
            end).
  { intros m resp H. destruct m, resp; try discriminate; eauto. }
  split; [apply (inv_uncaught w Hinv)|]. split; [|split; [|split]].
  - intros rid m Hl.
    destruct (inv_answers w Hinv rid m Hl) as [[Hs Ha]|[Hs (resp & Ha & Hk)]].
    + left. split; [exact Hs|]. split; [|exact Ha].
      pose proof (suspended_lt w rid Hinv Hs). congruence.
    + right. split; [exact Hs|]. exists resp. split; [exact Ha|].
      apply Hkind. exact Hk.
  - intros imageData maskData ow oh env.
    split; [apply inv_uncaught, worker_inv_onmessage, Hinv|].
    rewrite (onmessage_process_answer w env imageData maskData ow oh Hinv).
    destruct (snd (processImage _ _ _ _ _ _ _ _)) as [d|[msg|]]; reflexivity.
  - intros env.
    split; [apply inv_uncaught, worker_inv_onmessage, Hinv|].
    apply onmessage_load_answer, Hinv.
  - intros rid Hs.
    pose proof (suspended_lt w rid Hinv Hs) as Hl.
    pose proof Hs as Hs'. unfold suspended in Hs'.
    apply list_elem_of_fmap in Hs' as ([rid' p] & -> & Hin). cbn [fst] in *.
    destruct (inv_waiting w Hinv rid' p Hin) as [_ [st Hp]].
    destruct (inv_pending w Hinv p st Hp) as [Hload _].
    exists p, st. split; [exact Hload|]. split; [exact Hp|].
    intros env.
    pose proof (worker_inv_settle p env w Hinv) as Hinv'.
    split; [apply (inv_uncaught _ Hinv')|].
    split.
    + rewrite (settle_eq p st env w Hinv Hp). unfold suspended. cbn [waiting].
      rewrite fmap_nil. apply not_elem_of_nil.
    + rewrite (settle_load_answer w rid' p st env Hinv Hs Hp).
      destruct (snd (load_body env)) as [s|[msg|]]; reflexivity.
Qed.

(** The session stays null as long as no load attempt has succeeded. *)
Lemma session_null_until_loaded (evs : list Event) (w : Worker) :
  session w = None ->
  Forall (fun ev => match ev with
                    | Receive _ _ => True
                    | Settle _ env => exists e, snd (load_body env) = Throw e
                    end) evs ->
  session (fold_left step evs w) = None.
Proof.
  revert w. induction evs as [|ev evs IH]; intros w Hs Hall; [exact Hs|].
  apply Forall_cons in Hall as [Hev Hall]. cbn [fold_left].
  apply IH; [|exact Hall].
  destruct ev as [message env|p env]; cbn [step].
  - unfold onmessage, loadModel. worker_fields. rewrite Hs.
    destruct message as [|i m ow oh].
    + destruct (loadingPromise w); reflexivity.
    + destruct (processImage _ _ _ _ _ _ _ _) as [calls r]. reflexivity.
  - destruct Hev as [e He]. unfold settle.
    destruct (promises w !! p) as [[starter|s|e']|]; try exact Hs.
    destruct (load_body env) as [percents r]. cbn [snd] in He. subst r.
    unfold resume.
    match goal with
    | |- session (fold_left ?f _ _) = None =>
        assert (Hfold : forall (L : list (nat * nat)) (acc : Worker),
                  session acc = None -> session (fold_left f L acc) = None)
    end.
    { intros L. induction L as [|[rid q] L IHL]; intros acc Hacc; [exact Hacc|].
      cbn [fold_left]. apply IHL. destruct (q =? p)%nat; [|exact Hacc].
      unfold finish. worker_fields. exact Hacc. }
    apply Hfold. worker_fields. exact Hs.
Qed.

(** C9.  A [process] request that arrives while [session] is still null
    is answered with [process-error] "Model not loaded"; [processImage]
    reaches neither tensor construction nor inference, and the module
    state is left as it was. *)
Theorem process_before_load_is_refused (w : Worker) (env : ProcessEnv)
    (imageData maskData : ImageData) (originalWidth originalHeight : Z) :
  session w = None ->
  let w' := onmessage (Process imageData maskData originalWidth originalHeight) env w in
  processImage env (session w) (inputNames w) (outputNames w)
      imageData maskData originalWidth originalHeight
    = ([], Throw (Error "Model not loaded"))
  /\ posted w' = posted w ++ [(length (inbox w), ProcessError "Model not loaded")]
  /\ engineCalls w' = engineCalls w
  /\ uncaught w' = uncaught w
  /\ session w' = None
  /\ loadingPromise w' = loadingPromise w
  /\ promises w' = promises w.
Proof.
  intros Hs. cbn zeta. unfold onmessage. worker_fields. rewrite Hs.
  cbn [processImage]. unfold finish. rewrite process_case_eq.
  cbn [fst snd]. worker_fields.
  rewrite !app_nil_r. repeat split; reflexivity.
Qed.

Lemma process_before_load_is_refused_witness :
  let w' := onmessage (Process sample_image sample_mask 1 1) sample_process_env init in
  processImage sample_process_env (session init) (inputNames init) (outputNames init)
      sample_image sample_mask 1 1
    = ([], Throw (Error "Model not loaded"))
  /\ posted w' = posted init ++ [(length (inbox init), ProcessError "Model not loaded")]
  /\ engineCalls w' = engineCalls init
  /\ uncaught w' = uncaught init
  /\ session w' = None
  /\ loadingPromise w' = loadingPromise init
  /\ promises w' = promises init.
Proof.
  apply (process_before_load_is_refused init sample_process_env
           sample_image sample_mask 1 1).
  reflexivity.
Defined.

(** *** Single-flight loading *)

Lemma loader_inv_init : ModelLoader.loader_inv ModelLoader.init.
Proof. intros p cb H. cbn in H. rewrite lookup_nil in H. discriminate. Qed.

Lemma loader_inv_step (st : ModelLoader.Loader) (ev : ModelLoader.Event) :
  ModelLoader.loader_inv st -> ModelLoader.loader_inv (ModelLoader.step st ev).
Proof.
  intros Hinv. destruct ev as [cb | p hasDB env]; cbn [ModelLoader.step].
  - unfold ModelLoader.loadModel.
    destruct (ModelLoader.session st) as [s|] eqn:Hs; [exact Hinv|].
    destruct (ModelLoader.loadingPromise st) as [q|] eqn:Hl; [exact Hinv|].
    cbn [snd]. intros p cb' Hp.
    cbn [ModelLoader.promises ModelLoader.loadingPromise ModelLoader.session] in *.
    apply lookup_snoc_Some in Hp as [[_ Hp]|[-> _]].
    + apply Hinv in Hp as [Hp _]. congruence.
    + split; reflexivity.
  - unfold ModelLoader.settle.
    destruct (ModelLoader.promises st !! p) as [[cb|s|e]|] eqn:Hp; try exact Hinv.
    destruct (Hinv p cb Hp) as [Hl Hs].
    destruct (ModelLoader.load_body hasDB cb env) as [reports [s|e]];
      intros p' cb' Hp';
      cbn [ModelLoader.promises ModelLoader.loadingPromise ModelLoader.session] in *;
      (destruct (decide (p' = p)) as [->|Hne];
       [rewrite list_lookup_insert_eq in Hp' by (eapply lookup_lt_Some; exact Hp);
        discriminate
       |rewrite list_lookup_insert_ne in Hp' by congruence;
        apply Hinv in Hp' as [Hp' _]; congruence]).
Qed.

Lemma loader_inv_reachable (evs : list ModelLoader.Event) :
  ModelLoader.loader_inv (ModelLoader.run_events evs).
Proof.
  unfold ModelLoader.run_events.
  assert (H : forall st, ModelLoader.loader_inv st ->
                ModelLoader.loader_inv (fold_left ModelLoader.step evs st)).
  { induction evs as [|ev evs IH]; intros st Hst; [exact Hst|].
    cbn [fold_left]. apply IH, loader_inv_step, Hst. }
  apply H, loader_inv_init.
Qed.




(** At most one load is in flight in either context. *)
Lemma pending_unique :
  (forall evs p q cb cb',
     ModelLoader.promises (ModelLoader.run_events evs) !! p = Some (ModelLoader.Pending cb) ->
     ModelLoader.promises (ModelLoader.run_events evs) !! q = Some (ModelLoader.Pending cb') ->
     p = q)
  /\ (forall evs p q st st',
        promises (run_events evs) !! p = Some (Pending st) ->
        promises (run_events evs) !! q = Some (Pending st') ->
        p = q).
Proof.
  split.
  - intros evs p q cb cb' Hp Hq.
    apply (loader_inv_reachable evs) in Hp as [Hp _].
    apply (loader_inv_reachable evs) in Hq as [Hq _]. congruence.
  - intros evs p q st st' Hp Hq.
    apply (inv_pending _ (worker_inv_reachable evs)) in Hp as [Hp _].
    apply (inv_pending _ (worker_inv_reachable evs)) in Hq as [Hq _]. congruence.
Qed.

Example main_loader_retry :
  let st := ModelLoader.run_events
              [ModelLoader.Call (Some 7%nat); ModelLoader.Call None;
               ModelLoader.Settle 0 true sample_load_404;
               ModelLoader.Call (Some 8%nat);
               ModelLoader.Settle 1 true sample_load_download] in
  ModelLoader.promises st
    = [ModelLoader.Rejected
         (Error "Model file not found. Please ensure /models/lama_fp32.onnx exists in the public directory. See MODEL_SETUP.md for instructions.");
       ModelLoader.Fulfilled sample_session]
  /\ ModelLoader.reported st
     = [(8%nat, ModelLoader.mkProgress 1 4 25); (8%nat, ModelLoader.mkProgress 4 4 100)]
  /\ ModelLoader.getSession st = Some sample_session.
Proof. repeat split. Qed.

(** *** The mask history *)

Import WatermarkSelector.

Lemma slice0_take {A : Type} (a : list A) (e : Z) :
  0 <= e -> slice0 a e = take (Z.to_nat e) a.
Proof.
  intros He. unfold slice0.
  destruct (Z.ltb_spec e 0); [lia | reflexivity].
Qed.

(** A commit truncates after the cursor, appends, and evicts the oldest
    entry past fifty. *)
Lemma pushSnapshot_history (m : ImageData) (st : Selector) :
  -1 <= historyIndexRef st ->
  let kept := take (Z.to_nat (historyIndexRef st + 1)) (historyRef st) ++ [m] in
  historyRef (pushSnapshot m st)
    = (if decide (50 < length kept)%nat then drop 1 kept else kept)
  /\ historyIndexRef (pushSnapshot m st)
     = Z.min (Z.of_nat (length (historyRef (pushSnapshot m st))) - 1) 49.
Proof.
  intros Hidx. cbn zeta. unfold pushSnapshot. cbn [historyRef historyIndexRef].
  rewrite slice0_take by lia.
  set (kept := take _ _ ++ [m]).
  destruct (Z.ltb_spec 50 (Z.of_nat (length kept)));
    destruct (decide (50 < length kept)%nat); try lia; split; reflexivity.
Qed.

Lemma commit_at_end (st : Selector) (m : ImageData) :
  historyIndexRef st = Z.of_nat (length (historyRef st)) - 1 ->
  (length (historyRef st) <= 50)%nat ->
  historyRef (commit st m)
    = (if decide (length (historyRef st) = 50)%nat
       then drop 1 (historyRef st ++ [m]) else historyRef st ++ [m])
  /\ historyIndexRef (commit st m)
     = Z.of_nat (length (historyRef (commit st m))) - 1
  /\ (length (historyRef (commit st m)) <= 50)%nat.
Proof.
  intros Hidx Hlen.
  unfold commit, saveHistoryState, setMask, pushSnapshot.
  cbn [maskCanvasRef historyRef historyIndexRef].
  rewrite slice0_take by lia. rewrite Hidx.
  replace (Z.to_nat (Z.of_nat (length (historyRef st)) - 1 + 1))
    with (length (historyRef st)) by lia.
  rewrite firstn_all.
  assert (Hk : length (historyRef st ++ [m]) = S (length (historyRef st))).
  { rewrite length_app. cbn [length]. lia. }
  destruct (Z.ltb_spec 50 (Z.of_nat (length (historyRef st ++ [m]))))
    as [Hlt|Hge];
    destruct (decide (length (historyRef st) = 50)%nat); try lia.
  - unfold shift. rewrite length_drop, Hk. repeat split; lia.
  - rewrite Hk. repeat split; lia.
Qed.

(** Commits onto a history whose cursor rests on its last entry keep the
    last fifty snapshots. *)
Lemma commits_keep_last_fifty (snaps : list ImageData) (st : Selector) :
  historyIndexRef st = Z.of_nat (length (historyRef st)) - 1 ->
  (length (historyRef st) <= 50)%nat ->
  let st' := fold_left commit snaps st in
  historyRef st'
    = drop (length (historyRef st ++ snaps) - 50) (historyRef st ++ snaps)
  /\ historyIndexRef st' = Z.of_nat (length (historyRef st')) - 1.
Proof.
  revert st. induction snaps as [|m snaps IH]; intros st Hidx Hlen; cbn zeta.
  - cbn [fold_left]. rewrite app_nil_r.
    replace (length (historyRef st) - 50)%nat with 0%nat by lia.
    split; [reflexivity | exact Hidx].
  - cbn [fold_left].
    destruct (commit_at_end st m Hidx Hlen) as (Hh & Hi & Hl).
    destruct (IH (commit st m) Hi Hl) as [IHh IHi]. cbn zeta in IHh, IHi.
    split; [|exact IHi].
    rewrite IHh, Hh.
    destruct (decide (length (historyRef st) = 50)%nat) as [H50|Hne].
    + assert (Hdrop : drop 1 (historyRef st ++ [m]) ++ snaps
                      = drop 1 (historyRef st ++ m :: snaps)).
      { destruct (historyRef st) as [|x h]; [discriminate|]. cbn [app drop].
        rewrite drop_0, <- app_assoc. reflexivity. }
      rewrite Hdrop, length_drop, drop_drop.
      f_equal. rewrite !length_app. cbn [length]. lia.
    + rewrite <- app_assoc. cbn [app]. reflexivity.
Qed.

(** The commit of a stroke: [handleDown] pushes the snapshot
    [saveHistoryState] takes of the current mask. *)
Lemma handleDown_commits
    (fillArc : FillStyle -> Point -> R -> ImageData -> ImageData)
    (p : Point) (st : Selector) (m : ImageData) :
  maskCanvasRef st = Some m ->
  historyRef (handleDown fillArc p st) = historyRef (commit st m)
  /\ historyIndexRef (handleDown fillArc p st) = historyIndexRef (commit st m).
Proof.
  intros Hm. unfold handleDown, commit, saveHistoryState, setMask.
  cbn [maskCanvasRef]. rewrite Hm.
  unfold drawAt, setDrawing, pushSnapshot.
  cbn [maskCanvasRef historyRef historyIndexRef]. rewrite Hm.
  cbn [maskCanvasRef historyRef historyIndexRef].
  split; reflexivity.
Qed.

(** C6.  The mask history is a bounded stack of capacity 50: a commit
    keeps the entries up to the cursor, appends the new snapshot and
    drops the oldest entry when that makes more than fifty; and sixty
    stroke commits onto the empty history leave exactly fifty entries,
    the last fifty snapshots in order (the oldest ten are gone), with the
    cursor on the last entry. *)
Theorem history_capacity_fifty :
  (forall (st : Selector) (snap : ImageData),
     maskCanvasRef st = Some snap -> -1 <= historyIndexRef st ->
     let kept := take (Z.to_nat (historyIndexRef st + 1)) (historyRef st) in
       historyRef (saveHistoryState st)
         = (if decide (50 < length (kept ++ [snap]))%nat
            then drop 1 (kept ++ [snap]) else kept ++ [snap])
       /\ saveToHistory st = saveHistoryState st)
  /\ (forall snaps : list ImageData,
        length snaps = 60%nat ->
        let st := fold_left commit snaps initial in
        historyRef st = drop 10 snaps
        /\ length (historyRef st) = 50%nat
        /\ historyIndexRef st = 49
        /\ js_index (historyRef st) (historyIndexRef st) = last snaps).
Proof.
  split.
  - intros st snap Hsnap Hidx kept.
    unfold saveToHistory, saveHistoryState. rewrite Hsnap.
    split; [|reflexivity].
    apply (pushSnapshot_history snap st Hidx).
  - intros snaps Hlen. cbn zeta.
    destruct (commits_keep_last_fifty snaps initial) as [Hh Hi];
      [reflexivity | cbn; lia |].
    cbn zeta in Hh, Hi. cbn [initial historyRef app] in Hh.
    rewrite Hlen in Hh. change (60 - 50)%nat with 10%nat in Hh.
    assert (Hl : length (historyRef (fold_left commit snaps initial)) = 50%nat).
    { rewrite Hh, length_drop, Hlen. reflexivity. }
    rewrite Hi, Hl. repeat split; try (exact Hh || reflexivity).
    unfold js_index. cbn [Z.ltb Z.compare Z.of_nat Z.sub Z.add Z.opp Pos.compare].
    change (Z.to_nat (Z.of_nat 50 - 1)) with 49%nat.
    rewrite Hh, lookup_drop, last_lookup, Hlen. reflexivity.
Qed.

Lemma history_capacity_fifty_witness :
  let snaps := map sample_snapshot (seq 0 60) in
  let st := fold_left commit snaps initial in
  historyRef st = drop 10 snaps
  /\ length (historyRef st) = 50%nat
  /\ historyIndexRef st = 49
  /\ js_index (historyRef st) (historyIndexRef st) = last snaps.
Proof.
  apply (proj2 history_capacity_fifty (map sample_snapshot (seq 0 60))).
  reflexivity.
Defined.

(** *** The history invariant *)

Lemma hist_ok_pushSnapshot (m : ImageData) (st : Selector) :
  hist_ok st -> hist_ok (pushSnapshot m st).
Proof.
  intros (Hm & Hlen & Hidx). unfold hist_ok, pushSnapshot.
  cbn [maskCanvasRef historyRef historyIndexRef].
  rewrite slice0_take by lia.
  set (kept := take _ _ ++ [m]).
  assert (Hk : Z.of_nat (length kept) = historyIndexRef st + 2).
  { unfold kept. rewrite length_app, length_take. cbn [length]. lia. }
  split; [exact Hm|].
  destruct (Z.ltb_spec 50 (Z.of_nat (length kept))).
  - unfold shift. rewrite length_drop. lia.
  - lia.
Qed.

Lemma hist_ok_frame (st st' : Selector) :
  hist_ok st -> is_Some (maskCanvasRef st') ->
  historyRef st' = historyRef st -> historyIndexRef st' = historyIndexRef st ->
  hist_ok st'.
Proof.
  intros (_ & Hlen & Hidx) Hm Hh Hi. unfold hist_ok. rewrite Hh, Hi. auto.
Qed.

Lemma hist_ok_restore (i : Z) (st : Selector) :
  hist_ok st -> 0 <= i <= Z.of_nat (length (historyRef st)) - 1 ->
  hist_ok (restore i st).
Proof.
  intros Hok Hi. unfold restore.
  destruct (js_index (historyRef st) i); [|exact Hok].
  destruct Hok as (_ & Hlen & _). unfold hist_ok.
  cbn [maskCanvasRef historyRef historyIndexRef]. split; [eauto|]. lia.
Qed.

Section CanvasProofs.
Variable fillRect :
  FillStyle -> number -> number -> number -> number -> ImageData -> ImageData.
Variable fillArc : FillStyle -> Point -> R -> ImageData -> ImageData.

Lemma hist_ok_mount (w h : Z) (preset : option PresetPosition) (st : Selector) :
  hist_ok (mount fillRect w h true preset st).
Proof.
  unfold mount, hist_ok. cbn [negb].
  destruct preset; cbn [maskCanvasRef historyRef historyIndexRef length];
    (split; [eauto | lia]).
Qed.

Lemma hist_ok_act (st : Selector) (a : Action) :
  hist_ok st -> hist_ok (act fillRect fillArc st a).
Proof.
  intros Hok. pose proof Hok as ([m Hm] & Hlen & Hidx).
  destruct a as [p | p | | | position | | |]; cbn [act].
  - unfold handleDown, saveHistoryState. rewrite Hm.
    pose proof (hist_ok_pushSnapshot m st Hok) as Hp.
    destruct Hp as ([m' Hm'] & Hp).
    unfold drawAt, setDrawing. cbn [maskCanvasRef]. rewrite Hm'.
    split; [cbn; eauto | exact Hp].
  - unfold handleMove. destruct (isDrawingRef st); [|exact Hok].
    unfold drawAt. rewrite Hm.
    apply (hist_ok_frame st); [exact Hok | cbn; eauto | reflexivity | reflexivity].
  - unfold handleUp. destruct (isDrawingRef st); [|exact Hok].
    apply (hist_ok_frame st); [exact Hok | cbn; eauto | reflexivity | reflexivity].
  - apply (hist_ok_frame st); [exact Hok | cbn; eauto | reflexivity | reflexivity].
  - unfold applyPresetMask, saveToHistory. rewrite Hm.
    apply (hist_ok_frame (pushSnapshot m st));
      [apply hist_ok_pushSnapshot; exact Hok | cbn; eauto | reflexivity | reflexivity].
  - unfold clearMask, saveToHistory. rewrite Hm.
    apply (hist_ok_frame (pushSnapshot m st));
      [apply hist_ok_pushSnapshot; exact Hok | cbn; eauto | reflexivity | reflexivity].
  - unfold undo. destruct (Z.leb_spec (historyIndexRef st) 0); [exact Hok|].
    rewrite Hm. apply hist_ok_restore; [exact Hok | lia].
  - unfold redo.
    destruct (Z.leb_spec (Z.of_nat (length (historyRef st)) - 1) (historyIndexRef st));
      [exact Hok|].
    rewrite Hm. apply hist_ok_restore; [exact Hok | lia].
Qed.

Lemma hist_ok_acts (acts : list Action) (st : Selector) :
  hist_ok st -> hist_ok (fold_left (act fillRect fillArc) acts st).
Proof.
  revert st. induction acts as [|a acts IH]; intros st Hok; [exact Hok|].
  cbn [fold_left]. apply IH, hist_ok_act, Hok.
Qed.

End CanvasProofs.

(** C10.  After a successful mount and after every later action of the
    user (stroke commit and drawing, preset, clear, undo, redo) the
    history holds between 1 and 50 snapshots and the cursor is the
    position of one of them; undo with the cursor at 0 and redo with the
    cursor at the last entry change nothing. *)
Theorem history_cursor_invariant
    (fillRect : FillStyle -> number -> number -> number -> number ->
                ImageData -> ImageData)
    (fillArc : FillStyle -> Point -> R -> ImageData -> ImageData) :
  (forall (w h : Z) (preset : option PresetPosition) (st0 : Selector)
          (acts : list Action),
     let st := fold_left (act fillRect fillArc) acts
                 (mount fillRect w h true preset st0) in
     1 <= Z.of_nat (length (historyRef st)) <= 50
     /\ 0 <= historyIndexRef st <= Z.of_nat (length (historyRef st)) - 1
     /\ is_Some (js_index (historyRef st) (historyIndexRef st)))
  /\ (forall st : Selector, historyIndexRef st = 0 -> undo st = st)
  /\ (forall st : Selector,
        historyIndexRef st = Z.of_nat (length (historyRef st)) - 1 ->
        redo st = st).
Proof.
  split; [|split].
  - intros w h preset st0 acts. cbn zeta.
    pose proof (hist_ok_acts fillRect fillArc acts _
                  (hist_ok_mount fillRect w h preset st0)) as (_ & Hlen & Hidx).
    split; [exact Hlen|]. split; [exact Hidx|].
    unfold js_index. destruct (Z.ltb_spec (historyIndexRef
      (fold_left (act fillRect fillArc) acts (mount fillRect w h true preset st0))) 0);
      [lia|].
    apply lookup_lt_is_Some. lia.
  - intros st Hi. unfold undo. rewrite Hi. reflexivity.
  - intros st Hi. unfold redo. rewrite Hi, Z.leb_refl. reflexivity.
Qed.

Lemma history_cursor_invariant_witness :
  undo (undo sample_mounted) = undo sample_mounted
  /\ redo sample_mounted = sample_mounted.
Proof.
  split.
  - apply (proj1 (proj2 (history_cursor_invariant sample_fillRect sample_fillArc))).
    reflexivity.
  - apply (proj2 (proj2 (history_cursor_invariant sample_fillRect sample_fillArc))).
    reflexivity.
Defined.

(** *** Stroke interpolation *)

Local Open Scope R_scope.










(** *** The SEO generator *)

Local Close Scope R_scope.
Import Seo.
Local Open Scope string_scope.

Lemma getIsoDate_unparsable (Date_getTime : string -> option Z)
    (toISOString : Z -> string) (input : option string) :
  (forall d, input = Some d -> d = EmptyString \/ Date_getTime d = None) ->
  getIsoDate Date_getTime toISOString input = None.
Proof.
  intros H. unfold getIsoDate. destruct input as [d|]; [|reflexivity].
  destruct (String.eqb_spec d EmptyString); [reflexivity|].
  destruct (H d eq_refl) as [-> | ->]; [congruence | reflexivity].
Qed.

(** C8 as stated fails on its first point: the canonical link of the root
    page is the base URL followed by a slash, not the base URL. *)
Lemma root_canonical_counterexample :
  List.filter (fun l => String.eqb (rel l) "canonical") (links getRootSeo)
    = [mkLink "canonical" "https://littlegoat.com.br/" None]
  /\ baseUrl = "https://littlegoat.com.br"
  /\ "https://littlegoat.com.br/" <> baseUrl.
Proof. split; [reflexivity|]. split; [reflexivity | discriminate]. Qed.

(** C8, amended.  [getRootSeo] has one canonical link, whose href is
    [absoluteUrl "/"], the base URL followed by a slash, and one script,
    of type [application/ld+json], whose text parses to an object with
    ["@type"] equal to ["SoftwareApplication"].  For a post whose date is
    absent, empty or does not parse, [getBlogPostSeo] emits no
    [article:published_time] or [article:modified_time] meta tag, and the
    object its JSON-LD script is the text of has neither [datePublished]
    nor [dateModified]. *)
Theorem seo_head_tags :
  (List.filter (fun l => String.eqb (rel l) "canonical") (links getRootSeo)
     = [mkLink "canonical" (baseUrl ++ "/") None]
   /\ absoluteUrl (Some "/") = baseUrl ++ "/"
   /\ exists text v,
        scripts getRootSeo = [mkScript (Some "application/ld+json") (Some text)]
        /\ JSON_parse text = Some v
        /\ get_field "@type" v = Some (VString "SoftwareApplication"))
  /\ (forall (Date_getTime : string -> option Z) (toISOString : Z -> string)
             (post : BlogSeoPayload),
        (forall d, date post = Some d ->
                   d = EmptyString \/ Date_getTime d = None) ->
        let head := getBlogPostSeo Date_getTime toISOString post in
        (forall t, t ∈ meta head ->
           property t <> Some "article:published_time"
           /\ property t <> Some "article:modified_time")
        /\ exists fields,
             prune (blogJsonLd Date_getTime toISOString post) = VObject fields
             /\ scripts head
                = [mkScript (Some "application/ld+json")
                            (Some (render (VObject fields)))]
             /\ has_key "datePublished" (VObject fields) = false
             /\ has_key "dateModified" (VObject fields) = false
             /\ has_key "headline" (VObject fields) = true).
Proof.
  split.
  - split; [reflexivity|]. split; [reflexivity|].
    eexists _, _. split; [reflexivity|]. split; [vm_compute; reflexivity|].
    reflexivity.
  - intros Date_getTime toISOString post Hdate. cbn zeta.
    pose proof (getIsoDate_unparsable Date_getTime toISOString _ Hdate) as Hiso.
    split.
    + intros t Ht. unfold getBlogPostSeo in Ht. rewrite Hiso in Ht.
      cbn [meta] in Ht. apply elem_of_app in Ht as [Ht|Ht].
      * repeat (apply elem_of_cons in Ht as [->|Ht]; [split; discriminate|]).
        inversion Ht.
      * apply list_elem_of_fmap in Ht as (tag & -> & _). split; discriminate.
    + unfold getBlogPostSeo, JSON_stringify, blogJsonLd. rewrite Hiso.
      cbn [scripts optional_string].
      destruct (post_keywords post) as [k|]; cbn [prune optional_string];
        eexists; (split; [reflexivity|]); repeat split; reflexivity.
Qed.

Lemma seo_head_tags_witness :
  let head := getBlogPostSeo sample_getTime sample_toISOString sample_post in
  (forall t, t ∈ meta head ->
     property t <> Some "article:published_time"
     /\ property t <> Some "article:modified_time")
  /\ exists fields,
       prune (blogJsonLd sample_getTime sample_toISOString sample_post) = VObject fields
       /\ scripts head
          = [mkScript (Some "application/ld+json")
                      (Some (render (VObject fields)))]
       /\ has_key "datePublished" (VObject fields) = false
       /\ has_key "dateModified" (VObject fields) = false
       /\ has_key "headline" (VObject fields) = true.
Proof.
  apply (proj2 seo_head_tags sample_getTime sample_toISOString sample_post).
  intros d _. right. reflexivity.
Defined.

Example blog_seo_sample :
  map property (meta (getBlogPostSeo sample_getTime sample_toISOString sample_post))
  = [None; None; None; None;
     Some "og:type"; Some "og:site_name"; Some "og:url"; Some "og:title";
     Some "og:description"; Some "og:image"; Some "twitter:card";
     Some "twitter:url"; Some "twitter:title"; Some "twitter:description";
     Some "twitter:image"; Some "article:tag"; Some "article:tag"]
  /\ links (getBlogPostSeo sample_getTime sample_toISOString sample_post)
     = [mkLink "canonical" "https://littlegoat.com.br/blog/hello" None].
Proof. split; reflexivity. Qed.

(** With a date that parses, the two time tags and the two JSON-LD dates
    are present. *)
Example blog_seo_dated :
  let head := getBlogPostSeo (fun _ => Some 0%Z) sample_toISOString sample_post in
  List.filter (fun t => bool_decide (property t = Some "article:published_time"))
    (meta head)
    = [metaProperty "article:published_time" "1970-01-01T00:00:00.000Z"]
  /\ has_key "datePublished"
       (prune (blogJsonLd (fun _ => Some 0%Z) sample_toISOString sample_post)) = true.
Proof. split; reflexivity. Qed.

(** *** Instances on sample runs *)

Local Close Scope string_scope.

Lemma onmessage_answers_every_request_witness :
  let evs := [Receive Load sample_process_env;
              Receive Load sample_process_env] in
  let w := run_events evs in
  exists p st,
    loadingPromise w = Some p
    /\ promises w !! p = Some (Pending st)
    /\ forall env,
         uncaught (settle p env w) = []
         /\ ~ suspended 1 (settle p env w)
         /\ answers 1 (settle p env w)
            = [match snd (load_body env) with
               | Ok _ => LoadComplete
               | Throw (Error message) => LoadError message
               | Throw NonError => LoadError "Unknown error"
               end].
Proof.
  apply (proj2 (proj2 (proj2 (proj2 (onmessage_answers_every_request
                         [Receive Load sample_process_env;
                          Receive Load sample_process_env])))) 1%nat).
  apply list_elem_of_In. right. left. reflexivity.
Defined.


(** The three ranges on sample values: 0 in [-1,1] becomes 128, 51 in
    [0,255] stays 51, 0.2 in [0,1] becomes 51; values outside the range
    are clamped. *)
Example range_samples :
  to_channel (remap (Num (- 1)) (Num 1) (Num 0)) = 128
  /\ to_channel (remap (Num 0) (Num 255) (Num 51)) = 51
  /\ to_channel (remap (Num 0) (Num 1) (Num (1 # 5))) = 51
  /\ to_channel (remap (Num 0) (Num 1) (Num 2)) = 255
  /\ to_channel (remap (Num 0) (Num 1) (Num (- (1 # 3)))) = 0
  /\ to_channel (remap Infinity NegInfinity NaN) = 0.
Proof. repeat split. Qed.

(** Reading past the end of the tensor data yields [NaN], stored as 0. *)
Example short_tensor_pixels :
  pixel_loop 1 (Num 0) (Num 1) [Num 1] 1 = [255; 0; 0; 255].
Proof. reflexivity. Qed.

(** * Further properties *)

(** ** The tensor conversion library and the worker's copies *)

Lemma imageToTensor_loop_S (size : nat) (data : list Z) (n : nat) :
  imageToTensor_loop size data (S n)
  = imageToTensor_step size data (imageToTensor_loop size data n) n.
Proof. unfold imageToTensor_loop. rewrite seq_S, fold_left_app. reflexivity. Qed.

Lemma imageToTensor_loop_length (size : nat) (data : list Z) (n : nat) :
  length (imageToTensor_loop size data n) = (3 * size * size)%nat.
Proof.
  induction n as [|n IH].
  - unfold imageToTensor_loop, Float32Array. cbn [seq fold_left].
    apply length_replicate.
  - rewrite imageToTensor_loop_S. unfold imageToTensor_step, Float32Array_set.
    rewrite !length_insert. exact IH.
Qed.

Lemma imageToTensor_loop_lookup (size : nat) (data : list Z) (n i c : nat) :
  (n <= size * size)%nat -> (i < n)%nat -> (c < 3)%nat ->
  imageToTensor_loop size data n !! (i + c * size * size)%nat
  = Some (fround (js_div (byte_to_number (data !! (i * 4 + c)%nat)) (Num 255))).
Proof.
  induction n as [|n IH]; intros Hn Hi Hc; [lia|].
  rewrite imageToTensor_loop_S. unfold imageToTensor_step, Float32Array_set.
  pose proof (imageToTensor_loop_length size data n) as Hlen.
  set (l := imageToTensor_loop size data n) in *.
  destruct (decide (i = n)) as [->|Hne].
  - assert (c = 0 \/ c = 1 \/ c = 2)%nat as [-> | [-> | ->]] by lia.
    + replace (n + 0 * size * size)%nat with n by lia.
      replace (n * 4 + 0)%nat with (n * 4)%nat by lia.
      rewrite !list_lookup_insert_ne by lia.
      apply list_lookup_insert_eq. lia.
    + replace (n + 1 * size * size)%nat with (n + size * size)%nat by lia.
      rewrite list_lookup_insert_ne by lia.
      apply list_lookup_insert_eq. rewrite length_insert. lia.
    + apply list_lookup_insert_eq. rewrite !length_insert. lia.
  - assert (c = 0 \/ c = 1 \/ c = 2)%nat as [-> | [-> | ->]] by lia;
      (rewrite !list_lookup_insert_ne by lia; apply IH; lia).
Qed.

Lemma maskToTensor_loop_S (size : nat) (data : list Z) (n : nat) :
  maskToTensor_loop size data (S n)
  = maskToTensor_step data (maskToTensor_loop size data n) n.
Proof. unfold maskToTensor_loop. rewrite seq_S, fold_left_app. reflexivity. Qed.

Lemma masked_loop_is_maskToTensor (size : nat) (imgData mskData : list Z) (n : nat) :
  maskTensorData (masked_loop size imgData mskData n)
  = maskToTensor_loop size mskData n.
Proof.
  induction n as [|n IH]; [reflexivity|].
  rewrite masked_loop_S, maskToTensor_loop_S, <- IH.
  unfold masked_step, maskToTensor_step, Float32Array_set.
  destruct (js_eq _ _); reflexivity.
Qed.

(** X1.  Fed the same rescaled buffers, the worker's
    [createMaskedInputTensors] and the library's [maskToTensor] and
    [imageToTensor] agree: the mask tensors are equal, and the worker's
    image tensor is the library's with every value of a masked pixel
    replaced by 0. *)
Theorem worker_tensors_refine_library
    (env : TensorEnv) (imageData maskData : ImageData) (size : nat)
    (imageTensor maskTensor libImage libMask : Tensor) :
  createMaskedInputTensors env imageData maskData size
    = Ok (imageTensor, maskTensor) ->
  imageToTensor true (scaled env imageData size) size = Ok libImage ->
  maskToTensor true (scaled env maskData size) size = Ok libMask ->
  maskTensor = libMask
  /\ dims imageTensor = dims libImage
  /\ forall i c : nat, (i < size * size)%nat -> (c < 3)%nat ->
       exists v : number,
         tensor_data libImage !! (i + c * size * size)%nat = Some v
         /\ tensor_data imageTensor !! (i + c * size * size)%nat
            = Some (if js_eq (to_number (tensor_data libMask !! i)) (Num 1)
                    then Num 0 else v).
Proof.
  intros Hrun Himg Hmsk.
  unfold createMaskedInputTensors in Hrun.
  destruct (require (imageCtx env) _) as [[]|]; cbn in Hrun; [|discriminate].
  destruct (require (maskCtx env) _) as [[]|]; cbn in Hrun; [|discriminate].
  destruct (imageBitmap env imageData) as [[]|]; cbn in Hrun; [|discriminate].
  destruct (maskBitmap env maskData) as [[]|]; cbn in Hrun; [|discriminate].
  injection Hrun as <- <-.
  injection Himg as <-. injection Hmsk as <-.
  split; [rewrite masked_loop_is_maskToTensor; reflexivity|].
  split; [reflexivity|].
  intros i c Hi Hc. cbn [tensor_data].
  eexists. split; [apply imageToTensor_loop_lookup; lia|].
  rewrite masked_loop_image by lia. f_equal.
  rewrite <- (masked_loop_is_maskToTensor size (scaled env imageData size)).
  rewrite masked_loop_mask by lia. cbn [to_number]. reflexivity.
Qed.

Lemma worker_tensors_refine_library_witness :
  mkTensor [Num 0] [1; 1; 1; 1] = mkTensor [Num 0] [1; 1; 1; 1]
  /\ dims (mkTensor [Num (13421773 # 67108864); Num (13421773 # 33554432); Num 1] [1; 3; 1; 1])
     = dims (mkTensor [Num (13421773 # 67108864); Num (13421773 # 33554432); Num 1] [1; 3; 1; 1])
  /\ forall i c : nat, (i < 1 * 1)%nat -> (c < 3)%nat ->
       exists v : number,
         [Num (13421773 # 67108864); Num (13421773 # 33554432); Num 1] !! (i + c * 1 * 1)%nat
           = Some v
         /\ [Num (13421773 # 67108864); Num (13421773 # 33554432); Num 1] !! (i + c * 1 * 1)%nat
            = Some (if js_eq (to_number ([Num 0] !! i)) (Num 1) then Num 0 else v).
Proof.
  apply (worker_tensors_refine_library sample_tensor_env sample_image sample_mask
           1%nat
           (mkTensor [Num (13421773 # 67108864); Num (13421773 # 33554432); Num 1] [1; 3; 1; 1])
           (mkTensor [Num 0] [1; 1; 1; 1])
           (mkTensor [Num (13421773 # 67108864); Num (13421773 # 33554432); Num 1] [1; 3; 1; 1])
           (mkTensor [Num 0] [1; 1; 1; 1])); reflexivity.
Defined.

(** ** Range detection read off the sampled values *)

Lemma js_le_Num (a b : Q) : js_le (Num a) (Num b) = true <-> (a <= b)%Q.
Proof. cbn [js_le]. apply Qle_bool_iff. Qed.

Lemma js_lt_Num (a b : Q) : js_lt (Num a) (Num b) = true <-> (a < b)%Q.
Proof.
  cbn [js_lt]. rewrite negb_true_iff. split.
  - intros H. apply Qnot_le_lt. intros Hle. apply Qle_bool_iff in Hle. congruence.
  - intros H. destruct (Qle_bool b a) eqn:E; [|reflexivity].
    apply Qle_bool_iff in E. Lqa.lra.
Qed.

Lemma bool_eq_iff (b c : bool) : (b = true <-> c = true) -> b = c.
Proof. destruct b, c; intros [H1 H2]; auto; try (symmetry; auto). Qed.

(** One step of [Math.min(...xs)] and [Math.max(...xs)] against a
    threshold. *)
Lemma Math_min_step (acc x : number) (a : Q) :
  finite acc \/ acc = Infinity -> finite x ->
  finite (Math_min acc x)
  /\ js_le (Num a) (Math_min acc x) = js_le (Num a) acc && js_le (Num a) x
  /\ js_lt (Math_min acc x) (Num a) = js_lt acc (Num a) || js_lt x (Num a).
Proof.
  intros [[p ->]| ->] [q ->].
  - unfold Math_min. destruct (js_le (Num p) (Num q)) eqn:E.
    + apply js_le_Num in E. split; [eexists; reflexivity|]. split.
      * apply bool_eq_iff. rewrite andb_true_iff, !js_le_Num. split; [|tauto].
        intros H. split; [exact H | Lqa.lra].
      * apply bool_eq_iff. rewrite orb_true_iff, !js_lt_Num. split; [tauto|].
        intros [H|H]; Lqa.lra.
    + assert (Hlt : (q < p)%Q).
      { apply Qnot_le_lt. intros H. apply js_le_Num in H. congruence. }
      split; [eexists; reflexivity|]. split.
      * apply bool_eq_iff. rewrite andb_true_iff, !js_le_Num. split; [|tauto].
        intros H. split; [Lqa.lra | exact H].
      * apply bool_eq_iff. rewrite orb_true_iff, !js_lt_Num. split; [tauto|].
        intros [H|H]; Lqa.lra.
  - cbn. split; [eexists; reflexivity|]. split; reflexivity.
Qed.

Lemma Math_max_step (acc x : number) (a : Q) :
  finite acc \/ acc = NegInfinity -> finite x ->
  finite (Math_max acc x)
  /\ js_le (Math_max acc x) (Num a) = js_le acc (Num a) && js_le x (Num a)
  /\ js_lt (Num a) (Math_max acc x) = js_lt (Num a) acc || js_lt (Num a) x.
Proof.
  intros [[p ->]| ->] [q ->].
  - unfold Math_max. destruct (js_le (Num p) (Num q)) eqn:E.
    + apply js_le_Num in E. split; [eexists; reflexivity|]. split.
      * apply bool_eq_iff. rewrite andb_true_iff, !js_le_Num. split; [|tauto].
        intros H. split; [Lqa.lra | exact H].
      * apply bool_eq_iff. rewrite orb_true_iff, !js_lt_Num. split; [tauto|].
        intros [H|H]; Lqa.lra.
    + assert (Hlt : (q < p)%Q).
      { apply Qnot_le_lt. intros H. apply js_le_Num in H. congruence. }
      split; [eexists; reflexivity|]. split.
      * apply bool_eq_iff. rewrite andb_true_iff, !js_le_Num. split; [|tauto].
        intros H. split; [exact H | Lqa.lra].
      * apply bool_eq_iff. rewrite orb_true_iff, !js_lt_Num. split; [tauto|].
        intros [H|H]; Lqa.lra.
  - cbn. split; [eexists; reflexivity|]. split; reflexivity.
Qed.

Lemma Math_min_fold (xs : list number) (acc : number) (a : Q) :
  Forall finite xs -> finite acc \/ acc = Infinity ->
  js_le (Num a) (fold_left Math_min xs acc)
    = js_le (Num a) acc && forallb (fun x => js_le (Num a) x) xs
  /\ js_lt (fold_left Math_min xs acc) (Num a)
     = js_lt acc (Num a) || existsb (fun x => js_lt x (Num a)) xs.
Proof.
  revert acc. induction xs as [|x xs IH]; intros acc Hxs Hacc.
  - cbn. rewrite andb_true_r, orb_false_r. split; reflexivity.
  - apply Forall_cons in Hxs as [Hx Hxs]. cbn [fold_left forallb existsb].
    destruct (Math_min_step acc x a Hacc Hx) as (Hfin & Hle & Hlt).
    destruct (IH (Math_min acc x) Hxs (or_introl Hfin)) as [IH1 IH2].
    rewrite IH1, IH2, Hle, Hlt, andb_assoc, orb_assoc. split; reflexivity.
Qed.

Lemma Math_max_fold (xs : list number) (acc : number) (a : Q) :
  Forall finite xs -> finite acc \/ acc = NegInfinity ->
  js_le (fold_left Math_max xs acc) (Num a)
    = js_le acc (Num a) && forallb (fun x => js_le x (Num a)) xs
  /\ js_lt (Num a) (fold_left Math_max xs acc)
     = js_lt (Num a) acc || existsb (fun x => js_lt (Num a) x) xs.
Proof.
  revert acc. induction xs as [|x xs IH]; intros acc Hxs Hacc.
  - cbn. rewrite andb_true_r, orb_false_r. split; reflexivity.
  - apply Forall_cons in Hxs as [Hx Hxs]. cbn [fold_left forallb existsb].
    destruct (Math_max_step acc x a Hacc Hx) as (Hfin & Hle & Hlt).
    destruct (IH (Math_max acc x) Hxs (or_introl Hfin)) as [IH1 IH2].
    rewrite IH1, IH2, Hle, Hlt, andb_assoc, orb_assoc. split; reflexivity.
Qed.

Lemma Math_min_fold_NaN (xs : list number) (acc : number) :
  acc = NaN \/ NaN ∈ xs -> fold_left Math_min xs acc = NaN.
Proof.
  revert acc. induction xs as [|x xs IH]; intros acc [Hacc|Hin].
  - exact Hacc.
  - inversion Hin.
  - subst acc. cbn [fold_left]. apply IH. left. reflexivity.
  - cbn [fold_left]. apply IH. apply elem_of_cons in Hin as [<-|Hin].
    + left. destruct acc; reflexivity.
    + right. exact Hin.
Qed.

Lemma Math_max_fold_NaN (xs : list number) (acc : number) :
  acc = NaN \/ NaN ∈ xs -> fold_left Math_max xs acc = NaN.
Proof.
  revert acc. induction xs as [|x xs IH]; intros acc [Hacc|Hin].
  - exact Hacc.
  - inversion Hin.
  - subst acc. cbn [fold_left]. apply IH. left. reflexivity.
  - cbn [fold_left]. apply IH. apply elem_of_cons in Hin as [<-|Hin].
    + left. destruct acc; reflexivity.
    + right. exact Hin.
Qed.

(** X2.  What the range detection of [processImage] decides, read off the
    sampled values themselves.  When the sample is finite: the values
    are remapped by [(v+1)/2] exactly when all of them lie in [-1.1, 1.1]
    and one is below -0.1; otherwise they are divided by 255 exactly when
    one exceeds 1.1 and none exceeds 255.5; otherwise they are used as
    they are.  When the sample is empty or holds a [NaN], they are used
    as they are. *)
Theorem range_detection_by_sample (sample : list number) (v : number) :
  let m := Math_min_spread sample in
  let M := Math_max_spread sample in
  (Forall finite sample ->
   remap m M v
   = if forallb (fun x => js_ge x (Num (- (11 # 10)))) sample
        && forallb (fun x => js_le x (Num (11 # 10))) sample
        && existsb (fun x => js_lt x (Num (- (1 # 10)))) sample
     then js_div (js_add v (Num 1)) (Num 2)
     else if existsb (fun x => js_gt x (Num (11 # 10))) sample
             && forallb (fun x => js_le x (Num (511 # 2))) sample
          then js_div v (Num 255)
          else v)
  /\ (sample = [] \/ NaN ∈ sample -> remap m M v = v).
Proof.
  cbn zeta. split.
  - intros Hfin. unfold remap, isNormalized11, is0255, js_ge, js_gt,
      Math_min_spread, Math_max_spread.
    destruct (Math_min_fold sample Infinity (- (11 # 10)) Hfin (or_intror eq_refl))
      as [H1 _].
    destruct (Math_min_fold sample Infinity (- (1 # 10)) Hfin (or_intror eq_refl))
      as [_ H2].
    destruct (Math_max_fold sample NegInfinity (11 # 10) Hfin (or_intror eq_refl))
      as [H3 H4].
    destruct (Math_max_fold sample NegInfinity (511 # 2) Hfin (or_intror eq_refl))
      as [H5 _].
    rewrite H1, H2, H3, H4, H5. cbn [js_le js_lt andb orb]. reflexivity.
  - intros [->|Hnan]; [reflexivity|].
    unfold Math_min_spread, Math_max_spread.
    rewrite Math_min_fold_NaN, Math_max_fold_NaN by (right; exact Hnan).
    reflexivity.
Qed.

Lemma range_detection_by_sample_witness :
  remap (Math_min_spread [Num (- 1); Num (1 # 2)])
        (Math_max_spread [Num (- 1); Num (1 # 2)]) (Num 0)
  = (if forallb (fun x => js_ge x (Num (- (11 # 10)))) [Num (- 1); Num (1 # 2)]
        && forallb (fun x => js_le x (Num (11 # 10))) [Num (- 1); Num (1 # 2)]
        && existsb (fun x => js_lt x (Num (- (1 # 10)))) [Num (- 1); Num (1 # 2)]
     then js_div (js_add (Num 0) (Num 1)) (Num 2)
     else if existsb (fun x => js_gt x (Num (11 # 10))) [Num (- 1); Num (1 # 2)]
             && forallb (fun x => js_le x (Num (511 # 2))) [Num (- 1); Num (1 # 2)]
          then js_div (Num 0) (Num 255)
          else Num 0).
Proof.
  apply (proj1 (range_detection_by_sample [Num (- 1); Num (1 # 2)] (Num 0))).
  repeat constructor; eexists; reflexivity.
Defined.

(** ** The thresholds on binary32 data *)

Lemma round_to_opp (prec emin emax : Z) (x : Q) :
  round_to prec emin emax (- x) = js_neg (round_to prec emin emax x).
Proof.
  destruct x as [[|n|n] d]; unfold round_to.
  - reflexivity.
  - change (Qnum (- (Z.pos n # d))) with (Z.neg n).
    change (Qnum (Z.pos n # d)) with (Z.pos n).
    change (- - (Z.pos n # d))%Q with (Z.pos n # d).
    destruct (Qle_bool (pow2 emax) (round_mag prec emin (Z.pos n # d)));
      reflexivity.
  - change (Qnum (- (Z.neg n # d))) with (Z.pos n).
    change (Qnum (Z.neg n # d)) with (Z.neg n).
    change (- (Z.neg n # d))%Q with (Z.pos n # d).
    destruct (Qle_bool (pow2 emax) (round_mag prec emin (Z.pos n # d)));
      [reflexivity|].
    cbn [js_neg]. f_equal.
    destruct (round_mag prec emin (Z.pos n # d)) as [a b].
    unfold Qopp. cbn [Qnum Qden]. rewrite Z.opp_involutive. reflexivity.
Qed.

(** No binary32 lies strictly between a non-negative value and the
    binary32 nearest to it. *)
Lemma binary32_above (t f x : Q) :
  (0 <= t)%Q -> round_to 24 (-149) 128 t = Num f ->
  round_to 24 (-149) 128 x = Num x -> (t <= x)%Q -> (x <= 2)%Q -> (f <= x)%Q.
Proof.
  intros H0 Hf Hx Htx Hx2.
  destruct (round_to_mono 24 (-149) 128 ltac:(lia) t x 1)
    as (p & q & Hp & Hq & _ & Hpq & _); try lia; try assumption.
  rewrite Hf in Hp. rewrite Hx in Hq. injection Hp as <-. injection Hq as <-.
  exact Hpq.
Qed.

(** The decimal thresholds of the range detection are compared here as
    exact decimals, the code compares with the binary64 literals: on a
    binary32 value, which is what a [Float32Array] holds, the two
    comparisons agree. *)
Lemma thresholds_binary32 (v : number) :
  fround v = v ->
  js_ge v (Num (- (1 # 10))) = js_ge v (js_lit (- (1 # 10)))
  /\ js_lt v (Num (- (1 # 10))) = js_lt v (js_lit (- (1 # 10)))
  /\ js_ge v (Num (- (11 # 10))) = js_ge v (js_lit (- (11 # 10)))
  /\ js_le v (Num (11 # 10)) = js_le v (js_lit (11 # 10))
  /\ js_gt v (Num (11 # 10)) = js_gt v (js_lit (11 # 10))
  /\ js_le v (Num (511 # 2)) = js_le v (js_lit (511 # 2)).
Proof.
  intros Hv.
  destruct v as [| |x|]; try (repeat split; reflexivity).
  unfold fround in Hv.
  assert (Hneg : round_to 24 (-149) 128 (- x) = Num (- x)).
  { rewrite round_to_opp, Hv. reflexivity. }
  pose (f1 := (13421773 # 134217728)%Q).
  pose (f11 := (9227469 # 8388608)%Q).
  assert (F1 : round_to 24 (-149) 128 (1 # 10) = Num f1) by (vm_compute; reflexivity).
  assert (F11 : round_to 24 (-149) 128 (11 # 10) = Num f11) by (vm_compute; reflexivity).
  pose (d1 := (3602879701896397 # 36028797018963968)%Q).
  pose (d11 := (2476979795053773 # 2251799813685248)%Q).
  assert (D1 : js_lit (- (1 # 10)) = Num (- d1)) by (vm_compute; reflexivity).
  assert (D11 : js_lit (11 # 10) = Num d11) by (vm_compute; reflexivity).
  assert (D11' : js_lit (- (11 # 10)) = Num (- d11)) by (vm_compute; reflexivity).
  assert (D255 : js_lit (511 # 2) = Num (511 # 2)) by (vm_compute; reflexivity).
  rewrite D1, D11, D11', D255.
  assert (G1 : ((1 # 10) <= - x -> - x <= 2 -> f1 <= - x)%Q)
    by (intros; apply (binary32_above (1 # 10) f1 (- x)); auto; discriminate).
  assert (G11 : ((11 # 10) <= - x -> - x <= 2 -> f11 <= - x)%Q)
    by (intros; apply (binary32_above (11 # 10) f11 (- x)); auto; discriminate).
  assert (G11p : ((11 # 10) <= x -> x <= 2 -> f11 <= x)%Q)
    by (intros; apply (binary32_above (11 # 10) f11 x); auto; discriminate).
  unfold f1, f11, d1, d11 in *.
  unfold js_ge, js_gt, js_le, js_lt.
  repeat split; try reflexivity; apply bool_eq_iff;
    rewrite ?negb_true_iff, <- ?not_true_iff_false, !Qle_bool_iff.
  all: split; intros H; try Lqa.lra.
Qed.


(** ** [tensorToImage] and the library round trip *)

Lemma lib_pixel_loop_S (size : nat) (tdata : list number) (n : nat) :
  lib_pixel_loop size tdata (S n)
  = lib_pixel_step (size * size) tdata (lib_pixel_loop size tdata n) n.
Proof. unfold lib_pixel_loop. rewrite seq_S, fold_left_app. reflexivity. Qed.

(** With neither range flag set the worker's pixel loop is the
    library's. *)
Lemma pixel_loop_unscaled (size : nat) (minVal maxVal : number)
    (tdata : list number) (n : nat) :
  isNormalized11 minVal maxVal = false -> is0255 minVal maxVal = false ->
  pixel_loop size minVal maxVal tdata n = lib_pixel_loop size tdata n.
Proof.
  intros H1 H2. induction n as [|n IH]; [reflexivity|].
  rewrite pixel_loop_S, lib_pixel_loop_S, IH.
  unfold pixel_step, lib_pixel_step, remap. rewrite H1, H2. reflexivity.
Qed.

Lemma lib_pixel_loop_channel (size : nat) (tdata : list number) (n i c : nat) :
  (n <= size * size)%nat -> (i < n)%nat -> (c < 3)%nat ->
  lib_pixel_loop size tdata n !! (i * 4 + c)%nat
  = Some (lib_channel (to_number (tdata !! (i + c * (size * size))%nat))).
Proof.
  intros Hn Hi Hc.
  rewrite <- (pixel_loop_unscaled size (Num 0) (Num 1)) by reflexivity.
  rewrite pixel_loop_channel by assumption. reflexivity.
Qed.

Lemma lib_pixel_loop_alpha (size : nat) (tdata : list number) (n i : nat) :
  (n <= size * size)%nat -> (i < n)%nat ->
  lib_pixel_loop size tdata n !! (i * 4 + 3)%nat = Some 255.
Proof.
  intros Hn Hi.
  rewrite <- (pixel_loop_unscaled size (Num 0) (Num 1)) by reflexivity.
  apply pixel_loop_alpha; assumption.
Qed.

(** A byte survives the division by 255, the store into the
    [Float32Array] and the conversion back: checked on each of the 256
    bytes. *)
Lemma lib_channel_byte (o : option Z) (b : Z) :
  o = Some b -> 0 <= b <= 255 ->
  lib_channel (fround (js_div (byte_to_number o) (Num 255))) = b.
Proof.
  intros -> Hb.
  pose (check := fun n : nat =>
    Z.eqb (lib_channel (fround (js_div (byte_to_number (Some (Z.of_nat n)))
                                  (Num 255))))
          (Z.of_nat n)).
  assert (Hall : forallb check (seq 0 256) = true) by (vm_compute; reflexivity).
  rewrite List.forallb_forall in Hall.
  assert (Hin : In (Z.to_nat b) (seq 0 256)) by (apply in_seq; lia).
  specialize (Hall _ Hin). unfold check in Hall.
  rewrite Z2Nat.id in Hall by lia.
  apply Z.eqb_eq in Hall. exact Hall.
Qed.

Lemma Ok_inj {A : Type} (a b : A) : Ok a = Ok b -> a = b.
Proof. intros H. injection H as ->. reflexivity. Qed.

(** X3.  Round trip through the library: [tensorToImage] applied to the
    tensor [imageToTensor] built from a 512 x 512 pixel buffer hands to
    the final encoding a buffer with the same red, green and blue bytes
    and every alpha byte set to 255. *)
Theorem tensorToImage_imageToTensor (env : ImageEnv) (data : list Z)
    (tensor : Tensor) (w h : Z) :
  length data = (4 * INPUT_SIZE * INPUT_SIZE)%nat ->
  Forall (fun b => 0 <= b <= 255) data ->
  libCanvasCtx env = true -> libResultCtx env = true ->
  imageToTensor true data INPUT_SIZE = Ok tensor ->
  exists px : list Z,
    tensorToImage env tensor w h = Ok (dataURL env px w h)
    /\ length px = length data
    /\ forall i : nat, (i < INPUT_SIZE * INPUT_SIZE)%nat ->
         px !! (i * 4 + 3)%nat = Some 255
         /\ forall c : nat, (c < 3)%nat ->
              px !! (i * 4 + c)%nat = data !! (i * 4 + c)%nat.
Proof.
  intros Hlen Hbytes Hc1 Hc2 Hten.
  unfold imageToTensor, require in Hten. cbn [mbind result_bind] in Hten.
  apply Ok_inj in Hten. subst tensor.
  exists (lib_pixel_loop INPUT_SIZE
            (imageToTensor_loop INPUT_SIZE data (INPUT_SIZE * INPUT_SIZE))
            (INPUT_SIZE * INPUT_SIZE)).
  split; [|split].
  - unfold tensorToImage. cbn [dims tensor_data].
    replace (check_dims [1; 3; Z.of_nat INPUT_SIZE; Z.of_nat INPUT_SIZE])
      with (Ok tt : result unit) by reflexivity.
    rewrite Hc1, Hc2. reflexivity.
  - rewrite <- (pixel_loop_unscaled _ (Num 0) (Num 1)) by reflexivity.
    rewrite pixel_loop_length, Hlen. reflexivity.
  - intros i Hi. split; [apply lib_pixel_loop_alpha; lia|].
    intros c Hc. rewrite lib_pixel_loop_channel by lia.
    replace (i + c * (INPUT_SIZE * INPUT_SIZE))%nat
      with (i + c * INPUT_SIZE * INPUT_SIZE)%nat by lia.
    rewrite imageToTensor_loop_lookup by lia. cbn [to_number].
    destruct (lookup_lt_is_Some_2 data (i * 4 + c)%nat) as [b Hb]; [lia|].
    rewrite Hb. f_equal. apply lib_channel_byte; [reflexivity|].
    rewrite Forall_lookup in Hbytes. exact (Hbytes _ _ Hb).
Qed.

(** X4.  A channel value missing from the tensor data (the data is
    shorter than the three 512 x 512 planes the loops read) or equal to
    [NaN] is stored as 0, whatever range was detected; the alpha byte is
    still 255.  This holds for the worker's [tensorToImageData] and for
    the library's [tensorToImage]. *)
Theorem missing_channel_is_zero (size : nat) (minVal maxVal : number)
    (tdata : list number) (i c : nat) :
  (i < size * size)%nat -> (c < 3)%nat ->
  to_number (tdata !! (i + c * (size * size))%nat) = NaN ->
  pixel_loop size minVal maxVal tdata (size * size) !! (i * 4 + c)%nat = Some 0
  /\ lib_pixel_loop size tdata (size * size) !! (i * 4 + c)%nat = Some 0
  /\ pixel_loop size minVal maxVal tdata (size * size) !! (i * 4 + 3)%nat = Some 255
  /\ lib_pixel_loop size tdata (size * size) !! (i * 4 + 3)%nat = Some 255.
Proof.
  intros Hi Hc Hnan.
  rewrite pixel_loop_channel, lib_pixel_loop_channel by lia.
  rewrite pixel_loop_alpha, lib_pixel_loop_alpha by lia.
  rewrite Hnan.
  assert (Hremap : remap minVal maxVal NaN = NaN).
  { unfold remap. destruct (isNormalized11 _ _); [reflexivity|].
    destruct (is0255 _ _); reflexivity. }
  rewrite Hremap. repeat split; reflexivity.
Qed.

Lemma missing_channel_is_zero_witness :
  pixel_loop 1 (Num 0) (Num 1) [Num 1] (1 * 1) !! (0 * 4 + 1)%nat = Some 0
  /\ lib_pixel_loop 1 [Num 1] (1 * 1) !! (0 * 4 + 1)%nat = Some 0
  /\ pixel_loop 1 (Num 0) (Num 1) [Num 1] (1 * 1) !! (0 * 4 + 3)%nat = Some 255
  /\ lib_pixel_loop 1 [Num 1] (1 * 1) !! (0 * 4 + 3)%nat = Some 255.
Proof.
  apply (missing_channel_is_zero 1 (Num 0) (Num 1) [Num 1] 0 1);
    [lia | lia | reflexivity].
Defined.

Lemma tensorToImage_imageToTensor_witness :
  let data := replicate (4 * INPUT_SIZE * INPUT_SIZE) 7 in
  exists px : list Z,
    tensorToImage sample_image_env
      (mkTensor (imageToTensor_loop INPUT_SIZE data (INPUT_SIZE * INPUT_SIZE))
         [1; 3; Z.of_nat INPUT_SIZE; Z.of_nat INPUT_SIZE]) 1 1
    = Ok (dataURL sample_image_env px 1 1)
    /\ length px = length data
    /\ forall i : nat, (i < INPUT_SIZE * INPUT_SIZE)%nat ->
         px !! (i * 4 + 3)%nat = Some 255
         /\ forall c : nat, (c < 3)%nat ->
              px !! (i * 4 + c)%nat = data !! (i * 4 + c)%nat.
Proof.
  apply (tensorToImage_imageToTensor sample_image_env
           (replicate (4 * INPUT_SIZE * INPUT_SIZE) 7)).
  - apply length_replicate.
  - apply Forall_replicate. lia.
  - reflexivity.
  - reflexivity.
  - reflexivity.
Defined.

(** X5.  When every sampled output value is finite and lies in
    [-0.1, 1.1], the worker's [tensorToImageData] converts the tensor to
    the same pixels as the library's [tensorToImage]. *)
Theorem worker_conversion_matches_library (size : nat) (tdata : list number)
    (n : nat) :
  Forall (fun x => exists q, x = Num q /\ (- (1 # 10) <= q <= 11 # 10)%Q)
         (take SAMPLE tdata) ->
  pixel_loop size (Math_min_spread (take SAMPLE tdata))
    (Math_max_spread (take SAMPLE tdata)) tdata n
  = lib_pixel_loop size tdata n.
Proof.
  intros Hrange.
  assert (Hfin : Forall finite (take SAMPLE tdata)).
  { eapply Forall_impl; [exact Hrange|]. intros x (q & -> & _). eexists. reflexivity. }
  assert (Hlo : existsb (fun x => js_lt x (Num (- (1 # 10)))) (take SAMPLE tdata)
                = false).
  { apply not_true_is_false. intros Hex.
    apply existsb_exists in Hex as (x & Hin & Hx).
    apply list_elem_of_In in Hin. rewrite Forall_forall in Hrange.
    destruct (Hrange x Hin) as (q & -> & Hq). apply js_lt_Num in Hx. Lqa.lra. }
  assert (Hhi : existsb (fun x => js_lt (Num (11 # 10)) x) (take SAMPLE tdata)
                = false).
  { apply not_true_is_false. intros Hex.
    apply existsb_exists in Hex as (x & Hin & Hx).
    apply list_elem_of_In in Hin. rewrite Forall_forall in Hrange.
    destruct (Hrange x Hin) as (q & -> & Hq). apply js_lt_Num in Hx. Lqa.lra. }
  apply pixel_loop_unscaled.
  - unfold isNormalized11, Math_min_spread.
    destruct (Math_min_fold (take SAMPLE tdata) Infinity (- (1 # 10)) Hfin
                (or_intror eq_refl)) as [_ H].
    rewrite H, Hlo. apply andb_false_r.
  - unfold is0255, js_gt, Math_max_spread.
    destruct (Math_max_fold (take SAMPLE tdata) NegInfinity (11 # 10) Hfin
                (or_intror eq_refl)) as [_ H].
    rewrite H, Hhi. reflexivity.
Qed.

Lemma worker_conversion_matches_library_witness :
  pixel_loop 1 (Math_min_spread (take SAMPLE [Num 0; Num (1 # 2); Num 1]))
    (Math_max_spread (take SAMPLE [Num 0; Num (1 # 2); Num 1]))
    [Num 0; Num (1 # 2); Num 1] 1
  = lib_pixel_loop 1 [Num 0; Num (1 # 2); Num 1] 1.
Proof.
  apply (worker_conversion_matches_library 1 [Num 0; Num (1 # 2); Num 1] 1).
  repeat constructor; eexists; (split; [reflexivity | split; discriminate]).
Defined.

(** ** The streamed download *)

Lemma percent_of_mono (l1 l2 total : Z) :
  0 < total -> 0 <= l1 -> l1 <= l2 -> l2 <= 2 ^ 53 ->
  0 <= percent_of l1 total <= percent_of l2 total.
Proof.
  intros Ht H0 Hl Hb. unfold percent_of, js_div.
  assert (Hs : Qsign (inject_Z total) = Gt).
  { unfold Qsign. cbn. destruct total; try lia. reflexivity. }
  rewrite Hs.
  assert (Hinv : (0 < / inject_Z total)%Q).
  { apply Qinv_lt_0_compat. unfold Qlt. cbn. lia. }
  assert (Hinv1 : (/ inject_Z total <= 1)%Q).
  { destruct total as [|t|t]; try lia. unfold Qinv, Qle. cbn. lia. }
  assert (H2 : (0 <= inject_Z l2)%Q).
  { change 0%Q with (inject_Z 0). rewrite <- Zle_Qle. lia. }
  destruct (round_to_mono 53 (-1074) 1024 ltac:(lia)
              (inject_Z l1 / inject_Z total) (inject_Z l2 / inject_Z total) 53)
    as (p & q & Hp & Hq & Hp0 & Hpq & Hq53); try lia.
  - apply Qmult_le_0_compat; [|apply Qlt_le_weak; exact Hinv].
    change 0%Q with (inject_Z 0). rewrite <- Zle_Qle. exact H0.
  - apply Qmult_le_compat_r; [|apply Qlt_le_weak; exact Hinv].
    rewrite <- Zle_Qle. exact Hl.
  - apply Qle_trans with (inject_Z l2).
    + unfold Qdiv. rewrite Qmult_comm.
      rewrite <- (Qmult_1_l (inject_Z l2)) at 2.
      apply Qmult_le_compat_r; assumption.
    + change (pow2 53) with (inject_Z (2 ^ 53)). rewrite <- Zle_Qle. exact Hb.
  - unfold double. rewrite Hp, Hq. unfold js_mul.
    destruct (round_to_mono 53 (-1074) 1024 ltac:(lia) (p * 100) (q * 100) 60)
      as (p' & q' & Hp' & Hq' & Hp0' & Hpq' & _); try lia.
    + apply Qmult_le_0_compat; [exact Hp0|discriminate].
    + apply Qmult_le_compat_r; [exact Hpq|discriminate].
    + apply Qle_trans with (pow2 53 * 100)%Q.
      * apply Qmult_le_compat_r; [exact Hq53|discriminate].
      * vm_compute. discriminate.
    + unfold double. rewrite Hp', Hq'. cbn [Math_round]. rewrite !Qfloor_Z.
      split.
      * change 0 with (Qfloor 0). apply Qfloor_resp_le. Lqa.lra.
      * apply Qfloor_resp_le. Lqa.lra.
Qed.

Lemma percent_of_full (total : Z) : 0 < total -> percent_of total total = 100.
Proof.
  intros Ht. unfold percent_of, js_div.
  assert (Hs : Qsign (inject_Z total) = Gt).
  { unfold Qsign. cbn. destruct total; try lia. reflexivity. }
  rewrite Hs. unfold double.
  rewrite (round_to_eq 53 (-1074) 1024 (inject_Z total / inject_Z total) 1).
  - vm_compute. reflexivity.
  - field. intros H0. unfold Qeq in H0. cbn in H0. lia.
Qed.

(** The quotient is rounded before the product is taken: 23 bytes of 40
    are reported as 57 percent, although 57.5 would round to 58. *)
Example percent_of_23_40 : percent_of 23 40 = 57.
Proof. vm_compute. reflexivity. Qed.

Lemma loaded_counts_length (loaded : Z) (cs : list (list Z)) :
  length (loaded_counts loaded cs) = length cs.
Proof.
  revert loaded. induction cs as [|c cs IH]; intros loaded; [reflexivity|].
  cbn. f_equal. apply IH.
Qed.

Lemma loaded_counts_lookup (loaded : Z) (cs : list (list Z)) (i : nat) (l : Z) :
  loaded_counts loaded cs !! i = Some l ->
  l = loaded + Z.of_nat (length (concat (take (S i) cs))).
Proof.
  revert loaded i. induction cs as [|c cs IH]; intros loaded i H; [discriminate|].
  cbn [loaded_counts] in H. destruct i as [|i].
  - cbn in H. injection H as <-. cbn. rewrite app_nil_r. reflexivity.
  - cbn [lookup list_lookup] in H. apply IH in H. rewrite H.
    cbn [take concat]. rewrite length_app. lia.
Qed.

(** X6.  A download that runs to its end returns the chunks
    concatenated; with a positive content length it reports once per
    chunk the percent [Math.round((loaded / total) * 100)], computed in
    binary64 (the quotient and the product are each rounded).  For a
    content length and a body of at most 2^53 bytes, which numbers hold
    exactly, the reported percents never decrease and are not negative,
    and when the content length is the size of the body the last one is
    100.  The main-thread copy reports the same percents, with the byte
    counts. *)
Theorem downloadModel_progress (env : LoadEnv) (response : Response) (b : Body)
    (total : Z) :
  fetched env = Ok response -> ok response = true ->
  body response = Some b -> failure b = None ->
  content_length response = Some total -> 0 < total <= 2 ^ 53 ->
  Z.of_nat (length (concat (chunks b))) <= 2 ^ 53 ->
  exists percents : list Z,
    downloadModel env = (percents, Ok (concat (chunks b)))
    /\ percents = map (fun l => percent_of l total) (loaded_counts 0 (chunks b))
    /\ length percents = length (chunks b)
    /\ (forall i j p q, (i <= j)%nat ->
          percents !! i = Some p -> percents !! j = Some q -> 0 <= p <= q)
    /\ (total = Z.of_nat (length (concat (chunks b))) -> chunks b <> [] ->
        last percents = Some 100)
    /\ forall cb : nat,
         ModelLoader.downloadModel (Some cb) env
         = (map (fun l => (cb, ModelLoader.mkProgress l total (percent_of l total)))
                (loaded_counts 0 (chunks b)),
            Ok (concat (chunks b)))
         /\ map (fun r => ModelLoader.percent (snd r))
                (fst (ModelLoader.downloadModel (Some cb) env))
            = percents.
Proof.
  intros Hf Hok Hb Hfail Hcl [Ht Ht53] Hsize.
  exists (map (fun l => percent_of l total) (loaded_counts 0 (chunks b))).
  assert (Hcore : forall msg, downloadModel_core msg env
            = (map (fun loaded => (loaded, total)) (loaded_counts 0 (chunks b)),
               Ok (concat (chunks b)))).
  { intros msg. unfold downloadModel_core. rewrite Hf, Hok, Hb, Hfail, Hcl.
    cbn [negb]. change (default 0 (Some total)) with total.
    destruct (Z.ltb_spec 0 total); [reflexivity | lia]. }
  split; [|split; [|split; [|split; [|split]]]].
  - unfold downloadModel. rewrite Hcore, map_map. reflexivity.
  - reflexivity.
  - rewrite length_map. apply loaded_counts_length.
  - intros i j p q Hij Hp Hq.
    rewrite list_lookup_fmap in Hp, Hq.
    destruct (loaded_counts 0 (chunks b) !! i) as [li|] eqn:Hi; [|discriminate].
    destruct (loaded_counts 0 (chunks b) !! j) as [lj|] eqn:Hj; [|discriminate].
    cbn in Hp, Hq. injection Hp as <-. injection Hq as <-.
    apply loaded_counts_lookup in Hi, Hj.
    assert (Hle : li <= lj).
    { subst li lj.
      assert (Hlen : (length (concat (take (S i) (chunks b)))
                      <= length (concat (take (S j) (chunks b))))%nat).
      { replace (take (S i) (chunks b))
          with (take (S i) (take (S j) (chunks b)))
          by (rewrite take_take; f_equal; lia).
        rewrite <- (take_drop (S i) (take (S j) (chunks b))) at 2.
        rewrite concat_app, length_app. lia. }
      lia. }
    assert (Hj53 : lj <= 2 ^ 53).
    { subst lj. rewrite <- (take_drop (S j) (chunks b)) in Hsize.
      rewrite concat_app, length_app in Hsize. lia. }
    apply percent_of_mono; lia.
  - intros Htot Hne. rewrite fmap_last.
    destruct (last (loaded_counts 0 (chunks b))) as [l|] eqn:Hlast.
    + cbn. f_equal. rewrite last_lookup in Hlast.
      apply loaded_counts_lookup in Hlast.
      rewrite loaded_counts_length in Hlast.
      replace (S (pred (length (chunks b)))) with (length (chunks b)) in Hlast
        by (destruct (chunks b); [congruence | reflexivity]).
      rewrite firstn_all in Hlast. rewrite Hlast, Z.add_0_l, <- Htot.
      apply percent_of_full. exact Ht.
    + apply last_None in Hlast.
      apply (f_equal length) in Hlast. rewrite loaded_counts_length in Hlast.
      destruct (chunks b); [congruence | discriminate].
  - intros cb. unfold ModelLoader.downloadModel. rewrite Hcore. cbn [fst snd].
    split; [rewrite map_map; reflexivity|].
    rewrite !map_map. reflexivity.
Qed.

Lemma downloadModel_progress_witness :
  exists percents : list Z,
    downloadModel sample_load_download = (percents, Ok (concat [[1]; [2; 3; 4]]))
    /\ percents = map (fun l => percent_of l 4) (loaded_counts 0 [[1]; [2; 3; 4]])
    /\ length percents = length [[1]; [2; 3; 4]]
    /\ (forall i j p q, (i <= j)%nat ->
          percents !! i = Some p -> percents !! j = Some q -> 0 <= p <= q)
    /\ (4 = Z.of_nat (length (concat [[1]; [2; 3; 4]])) -> [[1]; [2; 3; 4]] <> [] ->
        last percents = Some 100)
    /\ forall cb : nat,
         ModelLoader.downloadModel (Some cb) sample_load_download
         = (map (fun l => (cb, ModelLoader.mkProgress l 4 (percent_of l 4)))
                (loaded_counts 0 [[1]; [2; 3; 4]]),
            Ok (concat [[1]; [2; 3; 4]]))
         /\ map (fun r => ModelLoader.percent (snd r))
                (fst (ModelLoader.downloadModel (Some cb) sample_load_download))
            = percents.
Proof.
  apply (downloadModel_progress sample_load_download
           (mkResponse true 200 "OK" (Some 4) (Some (mkBody [[1]; [2; 3; 4]] None)))
           (mkBody [[1]; [2; 3; 4]] None) 4);
    try reflexivity; [split; [reflexivity | discriminate] | discriminate].
Defined.

(** ** The worker once the model is loaded *)

Lemma step_after_load (w : Worker) (ev : Event) (s : Session) :
  worker_inv w -> session w = Some s ->
  session (step w ev) = Some s
  /\ inputNames (step w ev) = inputNames w
  /\ outputNames (step w ev) = outputNames w
  /\ promises (step w ev) = promises w
  /\ loadingPromise (step w ev) = loadingPromise w.
Proof.
  intros Hinv Hs. destruct ev as [message env|p env]; cbn [step].
  - destruct message as [|i m ow oh].
    + unfold onmessage, loadModel. worker_fields. rewrite Hs.
      unfold finish. worker_fields. auto.
    + unfold onmessage. worker_fields.
      destruct (processImage _ _ _ _ _ _ _ _) as [calls r].
      unfold finish. worker_fields. auto.
  - unfold settle.
    destruct (promises w !! p) as [[starter|s'|e]|] eqn:Hp; auto.
    apply (inv_pending w Hinv) in Hp as [_ Hp]. congruence.
Qed.

Lemma step_names (w : Worker) (ev : Event) :
  worker_inv w ->
  (forall s, session w = Some s ->
     inputNames w = session_inputNames s /\ outputNames w = session_outputNames s) ->
  forall s, session (step w ev) = Some s ->
    inputNames (step w ev) = session_inputNames s
    /\ outputNames (step w ev) = session_outputNames s.
Proof.
  intros Hinv Hnames s Hs.
  destruct (session w) as [s0|] eqn:Hs0.
  - destruct (step_after_load w ev s0 Hinv Hs0) as (H1 & H2 & H3 & _).
    rewrite H1 in Hs. injection Hs as <-. rewrite H2, H3. apply Hnames. reflexivity.
  - destruct ev as [message env|p env]; cbn [step] in *.
    + exfalso. revert Hs. destruct message as [|i m ow oh].
      * unfold onmessage, loadModel. worker_fields. rewrite Hs0.
        destruct (loadingPromise w); worker_fields; rewrite ?Hs0; discriminate.
      * unfold onmessage. worker_fields.
        destruct (processImage _ _ _ _ _ _ _ _) as [calls r].
        unfold finish. worker_fields. rewrite Hs0. discriminate.
    + destruct (promises w !! p) as [[starter|s'|e]|] eqn:Hp;
        try (unfold settle in Hs; rewrite Hp in Hs; congruence).
      rewrite (settle_eq p starter env w Hinv Hp) in *. worker_fields.
      destruct (snd (load_body env)) as [s1|e]; [|congruence].
      injection Hs as <-. auto.
Qed.

Lemma names_reachable (evs : list Event) (s : Session) :
  session (run_events evs) = Some s ->
  inputNames (run_events evs) = session_inputNames s
  /\ outputNames (run_events evs) = session_outputNames s.
Proof.
  unfold run_events.
  assert (H : forall w, worker_inv w ->
            (forall s, session w = Some s ->
               inputNames w = session_inputNames s
               /\ outputNames w = session_outputNames s) ->
            forall s, session (fold_left step evs w) = Some s ->
              inputNames (fold_left step evs w) = session_inputNames s
              /\ outputNames (fold_left step evs w) = session_outputNames s).
  { induction evs as [|ev evs IH]; intros w Hinv Hn; [exact Hn|].
    cbn [fold_left]. apply IH; [apply worker_inv_step, Hinv|].
    apply step_names; assumption. }
  apply H; [apply worker_inv_init|]. intros s0 Hs0. discriminate.
Qed.

(** X7.  Once the worker holds a session it keeps it: whatever events
    follow, the session, the tensor names recorded from it, the promises
    and [loadingPromise] stay as they are, so no further load attempt is
    started and later [load] requests are answered at once. *)
Theorem session_is_permanent (evs evs' : list Event) (s : Session) :
  session (run_events evs) = Some s ->
  let w := run_events evs in
  let w' := run_events (evs ++ evs') in
  session w' = Some s
  /\ inputNames w' = session_inputNames s
  /\ outputNames w' = session_outputNames s
  /\ promises w' = promises w
  /\ loadingPromise w' = loadingPromise w
  /\ forall env, answers (length (inbox w')) (onmessage Load env w') = [LoadComplete].
Proof.
  intros Hs. cbn zeta.
  assert (Happ : run_events (evs ++ evs') = fold_left step evs' (run_events evs))
    by (unfold run_events; apply fold_left_app).
  rewrite Happ. clear Happ.
  assert (H : forall w, worker_inv w -> session w = Some s ->
            worker_inv (fold_left step evs' w)
            /\ session (fold_left step evs' w) = Some s
            /\ inputNames (fold_left step evs' w) = inputNames w
            /\ outputNames (fold_left step evs' w) = outputNames w
            /\ promises (fold_left step evs' w) = promises w
            /\ loadingPromise (fold_left step evs' w) = loadingPromise w).
  { induction evs' as [|ev evs' IH]; intros w Hinv Hw; [auto 10|].
    cbn [fold_left].
    destruct (step_after_load w ev s Hinv Hw) as (H1 & H2 & H3 & H4 & H5).
    destruct (IH (step w ev) (worker_inv_step w ev Hinv) H1)
      as (I0 & I1 & I2 & I3 & I4 & I5).
    rewrite I2, I3, I4, I5. auto 10. }
  destruct (H (run_events evs) (worker_inv_reachable evs) Hs)
    as (Hinv' & H1 & H2 & H3 & H4 & H5).
  destruct (names_reachable evs s Hs) as [N1 N2].
  rewrite H2, H3, N1, N2.
  repeat (split; [assumption || reflexivity|]).
  intros env. unfold answers, onmessage, loadModel. worker_fields. rewrite H1.
  rewrite finish_load. worker_fields. rewrite answers_in_app.
  rewrite (answers_fresh _ Hinv'). cbn. rewrite Nat.eqb_refl. reflexivity.
Qed.

Lemma session_is_permanent_witness :
  let evs := [Receive Load sample_process_env; Settle 0 sample_load_cached] in
  let evs' := [Receive Load sample_process_env; Settle 0 sample_load_404] in
  let w := run_events evs in
  let w' := run_events (evs ++ evs') in
  session w' = Some sample_session
  /\ inputNames w' = session_inputNames sample_session
  /\ outputNames w' = session_outputNames sample_session
  /\ promises w' = promises w
  /\ loadingPromise w' = loadingPromise w
  /\ forall env, answers (length (inbox w')) (onmessage Load env w') = [LoadComplete].
Proof.
  apply (session_is_permanent
           [Receive Load sample_process_env; Settle 0 sample_load_cached]
           [Receive Load sample_process_env; Settle 0 sample_load_404]
           sample_session).
  reflexivity.
Defined.

(** ** The feeds of an inference run *)

Lemma processImage_make_feeds (env : ProcessEnv) (s : Session)
    (inputNames outputNames : list string) (imageData maskData : ImageData)
    (ow oh : Z) (imageTensor maskTensor : Tensor) :
  createMaskedInputTensors (tensorEnv env) imageData maskData INPUT_SIZE
    = Ok (imageTensor, maskTensor) ->
  processImage env (Some s) inputNames outputNames imageData maskData ow oh
  = ([CallCreateTensors; CallRun],
     results ← run env s (make_feeds inputNames imageTensor maskTensor);
     match results !! property_key (outputNames !! 0%nat) with
     | None => Throw (Error "No output tensor received from model")
     | Some outputTensor =>
         tensorToImageData (outputEnv env) outputTensor ow oh
           (Math_min_spread (take SAMPLE (tensor_data outputTensor)))
           (Math_max_spread (take SAMPLE (tensor_data outputTensor)))
     end).
Proof.
  intros H. unfold processImage. rewrite H. reflexivity.
Qed.

(** X8.  [processImage] consults the engine at one [feeds] object only:
    replacing [session.run] by any function that agrees with it on those
    feeds leaves the outcome unchanged.  The feeds hold the mask tensor
    under the mask name, the image tensor under the image name when the
    two names differ, and nothing else; when both names resolve to the
    same key the image tensor is overwritten and the feeds have the mask
    tensor as their single entry. *)
Theorem processImage_feeds (env : ProcessEnv) (s : Session)
    (inputNames outputNames : list string) (imageData maskData : ImageData)
    (ow oh : Z) (imageTensor maskTensor : Tensor) :
  createMaskedInputTensors (tensorEnv env) imageData maskData INPUT_SIZE
    = Ok (imageTensor, maskTensor) ->
  let ik := property_key (imageInputName inputNames) in
  let mk := property_key (maskInputName inputNames) in
  let feeds := make_feeds inputNames imageTensor maskTensor in
  (forall run',
      run' s feeds = run env s feeds ->
      processImage (mkProcessEnv (tensorEnv env) run' (outputEnv env)) (Some s)
        inputNames outputNames imageData maskData ow oh
      = processImage env (Some s) inputNames outputNames imageData maskData ow oh)
  /\ feeds !! mk = Some maskTensor
  /\ (ik <> mk -> feeds !! ik = Some imageTensor)
  /\ (ik = mk -> feeds = {[ mk := maskTensor ]})
  /\ (forall k, k <> ik -> k <> mk -> feeds !! k = None).
Proof.
  intros H ik mk feeds. repeat split.
  - intros run' Hrun.
    rewrite (processImage_make_feeds env s _ _ _ _ _ _ _ _ H).
    rewrite (processImage_make_feeds (mkProcessEnv (tensorEnv env) run' (outputEnv env))
               s _ _ _ _ _ _ _ _ H).
    cbn [InpaintingWorker.run outputEnv]. fold feeds. rewrite Hrun. reflexivity.
  - apply lookup_insert_eq.
  - intros Hne. unfold feeds, make_feeds. fold ik mk.
    rewrite lookup_insert_ne by congruence. apply lookup_insert_eq.
  - intros Heq. unfold feeds, make_feeds. fold ik mk. rewrite Heq.
    apply insert_insert_eq.
  - intros k Hi Hm. unfold feeds, make_feeds. fold ik mk.
    rewrite !lookup_insert_ne by congruence. apply lookup_empty.
Qed.

Lemma processImage_feeds_witness :
  let env := sample_process_env in
  let b := masked_loop INPUT_SIZE (data sample_image) (data sample_mask)
             (INPUT_SIZE * INPUT_SIZE) in
  let imageTensor := mkTensor (imageTensorData b) [1; 3; 512; 512] in
  let maskTensor := mkTensor (maskTensorData b) [1; 1; 512; 512] in
  let ik := property_key (imageInputName ["image"; "mask"]) in
  let mk := property_key (maskInputName ["image"; "mask"]) in
  let feeds := make_feeds ["image"; "mask"] imageTensor maskTensor in
  (forall run',
      run' sample_session feeds = run env sample_session feeds ->
      processImage (mkProcessEnv (tensorEnv env) run' (outputEnv env))
        (Some sample_session) ["image"; "mask"] ["output"]
        sample_image sample_mask 1 1
      = processImage env (Some sample_session) ["image"; "mask"] ["output"]
          sample_image sample_mask 1 1)
  /\ feeds !! mk = Some maskTensor
  /\ (ik <> mk -> feeds !! ik = Some imageTensor)
  /\ (ik = mk -> feeds = {[ mk := maskTensor ]})
  /\ (forall k, k <> ik -> k <> mk -> feeds !! k = None).
Proof.
  intros env b imageTensor maskTensor.
  apply (processImage_feeds env sample_session
           ["image"; "mask"] ["output"] sample_image sample_mask 1 1
           imageTensor maskTensor).
  reflexivity.
Defined.







Lemma includes_nonempty (sub n : string) :
  sub <> EmptyString -> includes sub n = true -> n <> EmptyString.
Proof.
  intros Hsub H ->. destruct sub; [contradiction|]. discriminate.
Qed.






(** ** The mask editor: edits, undo and redo *)

Lemma js_index_nonneg {A : Type} (a : list A) (i : Z) :
  0 <= i -> js_index a i = a !! Z.to_nat i.
Proof.
  intros Hi. unfold js_index. destruct (Z.ltb_spec i 0); [lia|reflexivity].
Qed.

(** After a snapshot is pushed the cursor rests on it, at the end of the
    history, and the entry before it is the one the cursor was on. *)
Lemma pushSnapshot_cursor (m : ImageData) (st : Selector) :
  hist_ok st ->
  let st1 := pushSnapshot m st in
  1 <= historyIndexRef st1
  /\ historyIndexRef st1 = Z.of_nat (length (historyRef st1)) - 1
  /\ js_index (historyRef st1) (historyIndexRef st1) = Some m
  /\ js_index (historyRef st1) (historyIndexRef st1 - 1)
     = historyRef st !! Z.to_nat (historyIndexRef st).
Proof.
  intros (_ & Hlen & Hidx). cbn zeta.
  destruct (pushSnapshot_history m st) as [Hh Hi]; [lia|]. cbn zeta in Hh.
  set (i := Z.to_nat (historyIndexRef st)) in *.
  assert (Hi1 : Z.to_nat (historyIndexRef st + 1) = S i) by lia.
  rewrite Hi1 in Hh.
  assert (Hk : length (take (S i) (historyRef st) ++ [m]) = S (S i)).
  { rewrite length_app, length_take. cbn [length]. lia. }
  assert (Hat : forall j, (j <= i)%nat ->
            (take (S i) (historyRef st) ++ [m]) !! j = historyRef st !! j).
  { intros j Hj. rewrite lookup_app_l by (rewrite length_take; lia).
    apply lookup_take_lt. lia. }
  assert (Hend : (take (S i) (historyRef st) ++ [m]) !! S i = Some m).
  { rewrite lookup_app_r by (rewrite length_take; lia).
    rewrite length_take.
    replace (S i - S i `min` length (historyRef st))%nat with 0%nat by lia.
    reflexivity. }
  rewrite Hk in Hh. rewrite Hi.
  destruct (decide (50 < S (S i))%nat) as [Hfull|Hroom].
  - assert (E : i = 49%nat) by lia.
    rewrite Hh, length_drop, Hk, E.
    change (Z.min (Z.of_nat (51 - 1) - 1) 49) with 49.
    change (49 - 1) with 48.
    rewrite !js_index_nonneg by lia.
    change (Z.to_nat 49) with 49%nat. change (Z.to_nat 48) with 48%nat.
    rewrite !lookup_drop. cbn [Nat.add].
    rewrite E in Hend, Hat. rewrite Hend, (Hat 49%nat) by lia.
    repeat split; reflexivity || lia.
  - rewrite Hh, Hk.
    replace (Z.min (Z.of_nat (S (S i)) - 1) 49) with (Z.of_nat (S i)) by lia.
    rewrite !js_index_nonneg by lia.
    replace (Z.to_nat (Z.of_nat (S i))) with (S i) by lia.
    replace (Z.to_nat (Z.of_nat (S i) - 1)) with i by lia.
    rewrite Hend, (Hat i) by lia.
    repeat split; reflexivity || lia.
Qed.

Lemma undo_restores (st : Selector) (m : ImageData) :
  is_Some (maskCanvasRef st) -> 1 <= historyIndexRef st ->
  js_index (historyRef st) (historyIndexRef st - 1) = Some m ->
  maskCanvasRef (undo st) = Some m
  /\ historyRef (undo st) = historyRef st
  /\ historyIndexRef (undo st) = historyIndexRef st - 1.
Proof.
  intros [m0 Hm] Hi Hj. unfold undo.
  destruct (Z.leb_spec (historyIndexRef st) 0); [lia|].
  rewrite Hm. unfold restore. rewrite Hj. repeat split.
Qed.

Lemma redo_restores (st : Selector) (m : ImageData) :
  is_Some (maskCanvasRef st) ->
  historyIndexRef st < Z.of_nat (length (historyRef st)) - 1 ->
  js_index (historyRef st) (historyIndexRef st + 1) = Some m ->
  maskCanvasRef (redo st) = Some m
  /\ historyRef (redo st) = historyRef st
  /\ historyIndexRef (redo st) = historyIndexRef st + 1.
Proof.
  intros [m0 Hm] Hi Hj. unfold redo.
  destruct (Z.leb_spec (Z.of_nat (length (historyRef st)) - 1) (historyIndexRef st));
    [lia|].
  rewrite Hm. unfold restore. rewrite Hj. repeat split.
Qed.

Section EditProofs.
Variable fillRect :
  FillStyle -> number -> number -> number -> number -> ImageData -> ImageData.
Variable fillArc : FillStyle -> Point -> R -> ImageData -> ImageData.

(** The three edits push the canvas as it is before they change it. *)
Lemma edit_pushes (st : Selector) (a : Action) (m0 : ImageData) :
  maskCanvasRef st = Some m0 ->
  match a with Down _ | Preset _ | Clear => True | _ => False end ->
  is_Some (maskCanvasRef (act fillRect fillArc st a))
  /\ historyRef (act fillRect fillArc st a) = historyRef (pushSnapshot m0 st)
  /\ historyIndexRef (act fillRect fillArc st a)
     = historyIndexRef (pushSnapshot m0 st).
Proof.
  intros Hm Ha. destruct a as [p | p | | | position | | |]; try contradiction;
    cbn [act].
  - unfold handleDown, saveHistoryState. rewrite Hm.
    unfold drawAt, setDrawing, pushSnapshot.
    cbn [maskCanvasRef historyRef historyIndexRef]. rewrite Hm.
    cbn [maskCanvasRef historyRef historyIndexRef]. eauto.
  - unfold applyPresetMask, saveToHistory. rewrite Hm.
    cbn [setMask maskCanvasRef historyRef historyIndexRef]. eauto.
  - unfold clearMask, saveToHistory. rewrite Hm.
    cbn [setMask maskCanvasRef historyRef historyIndexRef]. eauto.
Qed.

(** Pointer motion and release leave the history alone. *)
Lemma motion_keeps_history (st : Selector) (a : Action) :
  is_Some (maskCanvasRef st) ->
  match a with Move _ | Up | Leave => True | _ => False end ->
  is_Some (maskCanvasRef (act fillRect fillArc st a))
  /\ historyRef (act fillRect fillArc st a) = historyRef st
  /\ historyIndexRef (act fillRect fillArc st a) = historyIndexRef st.
Proof.
  intros [m Hm] Ha. destruct a as [p | p | | | position | | |]; try contradiction;
    cbn [act].
  - unfold handleMove. destruct (isDrawingRef st); [|rewrite Hm; eauto].
    unfold drawAt. rewrite Hm. cbn. eauto.
  - unfold handleUp. destruct (isDrawingRef st); cbn; rewrite Hm; eauto.
  - cbn. rewrite Hm. eauto.
Qed.

Lemma motions_keep_history (st : Selector) (tail : list Action) :
  is_Some (maskCanvasRef st) ->
  Forall (fun a => match a with Move _ | Up | Leave => True | _ => False end) tail ->
  is_Some (maskCanvasRef (fold_left (act fillRect fillArc) tail st))
  /\ historyRef (fold_left (act fillRect fillArc) tail st) = historyRef st
  /\ historyIndexRef (fold_left (act fillRect fillArc) tail st) = historyIndexRef st.
Proof.
  intros Hm Htail. revert st Hm.
  induction Htail as [|a tail Ha _ IH]; intros st Hm; [auto|].
  cbn [fold_left].
  destruct (motion_keeps_history st a Hm Ha) as (H1 & H2 & H3).
  destruct (IH _ H1) as (I1 & I2 & I3). rewrite I2, I3. auto.
Qed.

(** X11.  An edit (the start of a stroke, a preset, a clear), followed by
    any pointer motion, pushes the canvas as it was before the edit and
    leaves the cursor on that snapshot at the end of the history.  Hence
    redo does nothing right after an edit; undo shows the snapshot the
    cursor was on before the edit; and redo after that undo shows the
    canvas as it was before the edit, not the edit itself. *)
Theorem edit_then_undo_redo (st : Selector) (a : Action) (tail : list Action) :
  hist_ok st ->
  match a with Down _ | Preset _ | Clear => True | _ => False end ->
  Forall (fun b => match b with Move _ | Up | Leave => True | _ => False end) tail ->
  let st1 := fold_left (act fillRect fillArc) (a :: tail) st in
  redo st1 = st1
  /\ maskCanvasRef (undo st1) = historyRef st !! Z.to_nat (historyIndexRef st)
  /\ maskCanvasRef (redo (undo st1)) = maskCanvasRef st
  /\ historyRef (redo (undo st1)) = historyRef st1
  /\ historyIndexRef (redo (undo st1)) = historyIndexRef st1.
Proof.
  intros Hok Ha Htail. cbn zeta. cbn [fold_left].
  pose proof Hok as ([m0 Hm0] & Hlen & Hidx).
  destruct (edit_pushes st a m0 Hm0 Ha) as (E1 & E2 & E3).
  destruct (motions_keep_history _ tail E1 Htail) as (M1 & M2 & M3).
  destruct (pushSnapshot_cursor m0 st Hok) as (P1 & P2 & P3 & P4).
  cbn zeta in P1, P2, P3, P4.
  set (st1 := fold_left (act fillRect fillArc) tail (act fillRect fillArc st a)) in *.
  assert (H1 : historyRef st1 = historyRef (pushSnapshot m0 st)) by congruence.
  assert (H2 : historyIndexRef st1 = historyIndexRef (pushSnapshot m0 st))
    by congruence.
  rewrite <- H2 in P1, P2, P3, P4. rewrite <- H1 in P2, P3, P4.
  assert (Hprev : is_Some (historyRef st !! Z.to_nat (historyIndexRef st))).
  { apply lookup_lt_is_Some. lia. }
  destruct Hprev as [mp Hmp]. rewrite Hmp in P4.
  destruct (undo_restores st1 mp M1 P1 P4) as (U1 & U2 & U3).
  assert (R0 : js_index (historyRef (undo st1)) (historyIndexRef (undo st1) + 1)
               = Some m0).
  { rewrite U2, U3. replace (historyIndexRef st1 - 1 + 1) with (historyIndexRef st1)
      by lia. exact P3. }
  destruct (redo_restores (undo st1) m0) as (R1 & R2 & R3);
    [rewrite U1; eauto | rewrite U2, U3; lia | exact R0 |].
  split; [|split; [|split; [|split]]].
  - unfold redo. rewrite P2, Z.leb_refl. reflexivity.
  - rewrite U1, Hmp. reflexivity.
  - rewrite R1, Hm0. reflexivity.
  - rewrite R2, U2. reflexivity.
  - rewrite R3, U3. lia.
Qed.

End EditProofs.

Lemma edit_then_undo_redo_witness :
  let a := Down (mkPoint 1 1) in
  let tail := [Move (mkPoint 2 2); Up] in
  let st1 := fold_left (act sample_fillRect sample_fillArc) (a :: tail)
               sample_mounted in
  redo st1 = st1
  /\ maskCanvasRef (undo st1)
     = historyRef sample_mounted !! Z.to_nat (historyIndexRef sample_mounted)
  /\ maskCanvasRef (redo (undo st1)) = maskCanvasRef sample_mounted
  /\ historyRef (redo (undo st1)) = historyRef st1
  /\ historyIndexRef (redo (undo st1)) = historyIndexRef st1.
Proof.
  apply (edit_then_undo_redo sample_fillRect sample_fillArc sample_mounted
           (Down (mkPoint 1 1)) [Move (mkPoint 2 2); Up]).
  - apply hist_ok_mount.
  - exact I.
  - repeat constructor.
Defined.

(** X12.  When the mask canvas shows the snapshot under the cursor, undo
    and redo are inverse to each other: redo after an undo that moved,
    and undo after a redo that moved, give back the very same state.
    Undo and redo keep the canvas on the snapshot under the cursor, and a
    freshly mounted editor starts that way. *)
Theorem undo_redo_round_trip (st : Selector) :
  hist_ok st ->
  maskCanvasRef st = js_index (historyRef st) (historyIndexRef st) ->
  (0 < historyIndexRef st -> redo (undo st) = st)
  /\ (historyIndexRef st < Z.of_nat (length (historyRef st)) - 1 ->
      undo (redo st) = st)
  /\ maskCanvasRef (undo st)
     = js_index (historyRef (undo st)) (historyIndexRef (undo st))
  /\ maskCanvasRef (redo st)
     = js_index (historyRef (redo st)) (historyIndexRef (redo st))
  /\ (forall fillRect w h preset st0,
        let m := mount fillRect w h true preset st0 in
        maskCanvasRef m = js_index (historyRef m) (historyIndexRef m)).
Proof.
  intros (Hm & Hlen & Hidx) Hsync.
  destruct st as [mask hist idx drawing lastp bsize tool msize].
  cbn [maskCanvasRef historyRef historyIndexRef] in *.
  destruct Hm as [m ->].
  assert (Hprev : 0 < idx -> exists mp, js_index hist (idx - 1) = Some mp).
  { intros H. rewrite js_index_nonneg by lia.
    apply lookup_lt_is_Some. lia. }
  assert (Hnext : idx < Z.of_nat (length hist) - 1 ->
                  exists mn, js_index hist (idx + 1) = Some mn).
  { intros H. rewrite js_index_nonneg by lia.
    apply lookup_lt_is_Some. lia. }
  split; [|split; [|split; [|split]]];
    [| | | |intros fillRect w h [position|] st0; reflexivity].
  - intros H. destruct (Hprev H) as [mp Hmp].
    unfold undo, redo, restore.
    cbn [maskCanvasRef historyRef historyIndexRef].
    destruct (Z.leb_spec idx 0); [lia|]. rewrite Hmp.
    cbn [maskCanvasRef historyRef historyIndexRef].
    destruct (Z.leb_spec (Z.of_nat (length hist) - 1) (idx - 1)); [lia|].
    replace (idx - 1 + 1) with idx by lia. rewrite <- Hsync. reflexivity.
  - intros H. destruct (Hnext H) as [mn Hmn].
    unfold undo, redo, restore.
    cbn [maskCanvasRef historyRef historyIndexRef].
    destruct (Z.leb_spec (Z.of_nat (length hist) - 1) idx); [lia|]. rewrite Hmn.
    cbn [maskCanvasRef historyRef historyIndexRef].
    destruct (Z.leb_spec (idx + 1) 0); [lia|].
    replace (idx + 1 - 1) with idx by lia. rewrite <- Hsync. reflexivity.
  - unfold undo, restore. cbn [maskCanvasRef historyRef historyIndexRef].
    destruct (Z.leb_spec idx 0); [exact Hsync|].
    destruct (js_index hist (idx - 1)) as [mp|] eqn:Hmp; [|exact Hsync].
    cbn [maskCanvasRef historyRef historyIndexRef]. rewrite Hmp. reflexivity.
  - unfold redo, restore. cbn [maskCanvasRef historyRef historyIndexRef].
    destruct (Z.leb_spec (Z.of_nat (length hist) - 1) idx); [exact Hsync|].
    destruct (js_index hist (idx + 1)) as [mn|] eqn:Hmn; [|exact Hsync].
    cbn [maskCanvasRef historyRef historyIndexRef]. rewrite Hmn. reflexivity.
Qed.

Lemma undo_redo_round_trip_witness :
  (0 < historyIndexRef sample_mounted -> redo (undo sample_mounted) = sample_mounted)
  /\ (historyIndexRef sample_mounted
        < Z.of_nat (length (historyRef sample_mounted)) - 1 ->
      undo (redo sample_mounted) = sample_mounted)
  /\ maskCanvasRef (undo sample_mounted)
     = js_index (historyRef (undo sample_mounted))
         (historyIndexRef (undo sample_mounted))
  /\ maskCanvasRef (redo sample_mounted)
     = js_index (historyRef (redo sample_mounted))
         (historyIndexRef (redo sample_mounted))
  /\ (forall fillRect w h preset st0,
        let m := mount fillRect w h true preset st0 in
        maskCanvasRef m = js_index (historyRef m) (historyIndexRef m)).
Proof.
  apply (undo_redo_round_trip sample_mounted).
  - apply hist_ok_mount.
  - reflexivity.
Defined.

(** ** The mask editor: geometry *)

(** A binary64 operation whose exact result [x] lies in [-2^k, 2^k]
    returns a number within [2^(k-53)] of it, in the same interval and
    of the same sign. *)
Lemma double_near (x : Q) (k : Z) :
  -1021 <= k < 1024 -> (- pow2 k <= x <= pow2 k)%Q ->
  exists q : Q,
    double x = Num q
    /\ (- pow2 (k - 53) <= q - x <= pow2 (k - 53))%Q
    /\ (- pow2 k <= q <= pow2 k)%Q
    /\ ((0 <= x)%Q -> (0 <= q)%Q).
Proof.
  intros Hk Hx.
  destruct (round_to_error 53 (-1074) 1024 ltac:(lia) x k) as (q & Hq & He & Hb);
    [apply Qabs_Qle_condition; exact Hx | lia | lia |].
  exists q. split; [exact Hq|]. split; [apply Qabs_Qle_condition; exact He|].
  split; [apply Qabs_Qle_condition; exact Hb|].
  intros H0.
  destruct (round_to_bound 53 (-1074) 1024 ltac:(lia) x k H0 (proj2 Hx))
    as (q' & Hq' & Hq0 & _); [lia | lia |].
  unfold double in Hq. rewrite Hq in Hq'. injection Hq' as <-. exact Hq0.
Qed.

Lemma scale_near (a t t0 e A : Q) :
  (0 <= a <= A)%Q -> (- e <= t - t0 <= e)%Q ->
  (- (A * e) <= a * t - a * t0 <= A * e)%Q.
Proof. intros Ha He. Lqa.nra. Qed.

Lemma Math_min_Z (a b : Z) :
  Math_min (Num (inject_Z a)) (Num (inject_Z b)) = Num (inject_Z (Z.min a b)).
Proof.
  unfold Math_min, js_le, Qle_bool. cbn [Qnum Qden inject_Z]. rewrite !Z.mul_1_r.
  destruct (Z.leb_spec a b); f_equal; f_equal; lia.
Qed.

Ltac eval_pow2 :=
  repeat match goal with
         | H : context [pow2 ?k] |- _ =>
             let v := eval vm_compute in (pow2 k) in
             change (pow2 k) with v in H
         | |- context [pow2 ?k] =>
             let v := eval vm_compute in (pow2 k) in
             change (pow2 k) with v
         end.

Ltac div_consts :=
  repeat match goal with
         | H : context [(?x / 100)%Q] |- _ =>
             change (x / 100)%Q with (x * (1 # 100))%Q in H
         | |- context [(?x / 100)%Q] =>
             change (x / 100)%Q with (x * (1 # 100))%Q
         | H : context [(?x / 2)%Q] |- _ =>
             change (x / 2)%Q with (x * (1 # 2))%Q in H
         | |- context [(?x / 2)%Q] =>
             change (x / 2)%Q with (x * (1 # 2))%Q
         end.

(** One binary64 operation on a canvas measurement: the exact result [x]
    of magnitude at most [2^16] becomes a number within [2^-37] of it. *)
Lemma double_canvas (x : Q) :
  (- (65536) <= x <= 65536)%Q ->
  exists q : Q,
    double x = Num q
    /\ (- (1 # 137438953472) <= q - x <= 1 # 137438953472)%Q
    /\ (- (65536) <= q <= 65536)%Q
    /\ ((0 <= x)%Q -> (0 <= q)%Q).
Proof.
  intros Hx. destruct (double_near x 16) as (q & Hq & He & Hb & H0); [lia| |].
  - eval_pow2. exact Hx.
  - exists q. eval_pow2. auto.
Qed.

(** The extent [side * (size / 100)] of the rectangle along one side. *)
Lemma preset_extent (side size : Z) :
  1 <= side <= 65536 -> 0 <= size <= 97 ->
  exists m : Q,
    js_mul (Num (inject_Z side)) (js_div (Num (inject_Z size)) (Num 100)) = Num m
    /\ (0 <= m)%Q
    /\ (- (1 # 68719476736) <= m - inject_Z side * (inject_Z size / 100)
        <= 1 # 68719476736)%Q
    /\ (inject_Z side * (inject_Z size / 100) <= (97 # 100) * inject_Z side)%Q.
Proof.
  intros Hside Hsize.
  assert (Hq : (1 <= inject_Z side <= 65536)%Q).
  { split; [change 1%Q with (inject_Z 1) | change 65536%Q with (inject_Z 65536)];
      rewrite <- Zle_Qle; lia. }
  assert (Hs : (0 <= inject_Z size <= 97)%Q).
  { split; [change 0%Q with (inject_Z 0) | change 97%Q with (inject_Z 97)];
      rewrite <- Zle_Qle; lia. }
  set (a := inject_Z side) in *. set (s := inject_Z size) in *.
  change (js_div (Num s) (Num 100)) with (double (s / 100)).
  destruct (double_near (s / 100) 0) as (t & Ht & Het & _ & Ht0); [lia| |].
  { eval_pow2. div_consts. Lqa.lra. }
  eval_pow2. rewrite Ht. change (js_mul (Num a) (Num t)) with (double (a * t)).
  div_consts.
  assert (Ht1 : (0 <= t <= 1)%Q) by (split; [apply Ht0|]; Lqa.lra).
  assert (Hat : (0 <= a * t <= 65536)%Q) by Lqa.nra.
  destruct (double_canvas (a * t)) as (m & Hm & Hem & _ & Hm0); [Lqa.lra|].
  exists m. split; [exact Hm|]. split; [apply Hm0; Lqa.lra|].
  pose proof (scale_near a t (s / 100) (1 # 9007199254740992) 65536
                ltac:(Lqa.lra) Het) as Hsc.
  div_consts. split; [Lqa.lra | Lqa.nra].
Qed.

(** The margin [Math.min(width, height) * 0.02]. *)
Lemma preset_padding (w h : Z) :
  1 <= w <= 65536 -> 1 <= h <= 65536 ->
  exists p : Q,
    js_mul (Math_min (Num (inject_Z w)) (Num (inject_Z h))) (js_lit (2 # 100))
    = Num p
    /\ (0 <= p)%Q
    /\ (- (1 # 2199023255552) <= p - inject_Z (Z.min w h) * (2 # 100)
        <= 1 # 2199023255552)%Q.
Proof.
  intros Hw Hh. rewrite Math_min_Z.
  assert (Hm : (1 <= inject_Z (Z.min w h) <= 65536)%Q).
  { split; [change 1%Q with (inject_Z 1) | change 65536%Q with (inject_Z 65536)];
      rewrite <- Zle_Qle; lia. }
  set (a := inject_Z (Z.min w h)) in *.
  unfold js_lit.
  destruct (double_near (2 # 100) (-5)) as (c & Hc & Hec & _ & Hc0); [lia| |].
  { eval_pow2. Lqa.lra. }
  eval_pow2. rewrite Hc. change (js_mul (Num a) (Num c)) with (double (a * c)).
  assert (Hc1 : (0 <= c <= 1 # 32)%Q) by (split; [apply Hc0|]; Lqa.lra).
  assert (Hac : (0 <= a * c <= 2048)%Q) by Lqa.nra.
  destruct (double_near (a * c) 11) as (p & Hp & Hep & _ & Hp0); [lia| |].
  { eval_pow2. Lqa.lra. }
  eval_pow2. exists p. split; [exact Hp|]. split; [apply Hp0; Lqa.lra|].
  pose proof (scale_near a c (2 # 100) (1 # 288230376151711744) 65536
                ltac:(Lqa.lra) Hec) as Hsc.
  Lqa.lra.
Qed.

Lemma canvas_sub (a b : Q) :
  (- (65536) <= a - b <= 65536)%Q ->
  exists q : Q,
    js_sub (Num a) (Num b) = Num q
    /\ (- (1 # 137438953472) <= q - (a - b) <= 1 # 137438953472)%Q
    /\ (- (65536) <= q <= 65536)%Q
    /\ ((0 <= a - b)%Q -> (0 <= q)%Q).
Proof. intros H. exact (double_canvas (a + - b) H). Qed.

Lemma canvas_half (a : Q) :
  (- (65536) <= a <= 65536)%Q ->
  exists q : Q,
    js_div (Num a) (Num 2) = Num q
    /\ (- (1 # 137438953472) <= q - a * (1 # 2) <= 1 # 137438953472)%Q
    /\ ((0 <= a)%Q -> (0 <= q)%Q).
Proof.
  intros H. destruct (double_canvas (a * (1 # 2))) as (q & Hq & He & _ & H0);
    [Lqa.lra|].
  exists q. split; [exact Hq|]. split; [exact He|]. intros Ha. apply H0. Lqa.lra.
Qed.

(** The horizontal or vertical placements of a preset along a side of
    length [side]: against the far edge and centred. *)
Lemma preset_placement (side m p : Q) :
  (1 <= side <= 65536)%Q -> (0 <= m <= (97 # 100) * side + (1 # 68719476736))%Q ->
  ((1 # 100) <= p <= (2 # 100) * side + (1 # 2199023255552))%Q ->
  exists far mid : Q,
    js_sub (js_sub (Num side) (Num m)) (Num p) = Num far
    /\ js_div (js_sub (Num side) (Num m)) (Num 2) = Num mid
    /\ (0 <= far /\ far + m <= side /\ 0 <= mid /\ mid + m <= side)%Q
    /\ (- (1 # 68719476736) <= side - (far + m) - p <= 1 # 68719476736)%Q
    /\ (- (1 # 68719476736) <= mid + m * (1 # 2) - side * (1 # 2)
        <= 1 # 68719476736)%Q.
Proof.
  intros Hs Hm Hp.
  destruct (canvas_sub side m) as (a & Ha & Hea & Hab & Ha0); [Lqa.lra|].
  rewrite Ha.
  destruct (canvas_sub a p) as (far & Hfar & Hef & _ & Hf0); [Lqa.lra|].
  destruct (canvas_half a) as (mid & Hmid & Hem & Hm0); [Lqa.lra|].
  exists far, mid. split; [exact Hfar|]. split; [exact Hmid|].
  assert (0 <= far)%Q by (apply Hf0; Lqa.lra).
  assert (0 <= mid)%Q by (apply Hm0; Lqa.lra).
  repeat split; Lqa.lra.
Qed.

(** X13.  The rectangle of a preset, computed as the page computes it,
    in binary64: every product, quotient and difference is rounded, so
    that on a 200 pixel wide canvas a mask size of 7 percent gives the
    width 14.000000000000002.  On a canvas of 1 to 65536 pixels a side
    and for a whole mask size of at most 97 percent (the slider offers
    5 to 40) the four numbers are finite and the rectangle lies inside
    the canvas.  Up to [2^-35] of a pixel it covers the given percentage
    of the width and of the height, the corner and bottom presets keep a
    margin of 2 percent of the shorter side from the edges they are
    named after, and the centre preset is centred. *)
Theorem presetRect_inside (position : PresetPosition) (w h size : Z) :
  1 <= w <= 65536 -> 1 <= h <= 65536 -> 0 <= size <= 97 ->
  exists rx ry rw rh : Q,
    presetRect position (Num (inject_Z w)) (Num (inject_Z h)) (Num (inject_Z size))
    = (Num rx, Num ry, Num rw, Num rh)
    /\ (0 <= rx /\ rx + rw <= inject_Z w /\ 0 <= ry /\ ry + rh <= inject_Z h)%Q
    /\ let near := fun x y : Q => (Qabs (x - y) <= 1 # 34359738368)%Q in
       let padding := (inject_Z (Z.min w h) * (2 # 100))%Q in
       near rw (inject_Z w * (inject_Z size / 100))%Q
       /\ near rh (inject_Z h * (inject_Z size / 100))%Q
       /\ match position with
          | bottom_right =>
              near (inject_Z w - (rx + rw))%Q padding
              /\ near (inject_Z h - (ry + rh))%Q padding
          | bottom_left =>
              near rx padding /\ near (inject_Z h - (ry + rh))%Q padding
          | top_right =>
              near (inject_Z w - (rx + rw))%Q padding /\ near ry padding
          | top_left => near rx padding /\ near ry padding
          | center =>
              near (rx + rw / 2)%Q (inject_Z w / 2)%Q
              /\ near (ry + rh / 2)%Q (inject_Z h / 2)%Q
          | bottom_center =>
              near (rx + rw / 2)%Q (inject_Z w / 2)%Q
              /\ near (inject_Z h - (ry + rh))%Q padding
          end.
Proof.
  intros Hw Hh Hs.
  destruct (preset_extent w size Hw Hs) as (mw & Emw & Hmw0 & Hmw & Hiw).
  destruct (preset_extent h size Hh Hs) as (mh & Emh & Hmh0 & Hmh & Hih).
  destruct (preset_padding w h Hw Hh) as (p & Ep & Hp0 & Hp).
  assert (Hqw : (1 <= inject_Z w <= 65536)%Q).
  { split; [change 1%Q with (inject_Z 1) | change 65536%Q with (inject_Z 65536)];
      rewrite <- Zle_Qle; lia. }
  assert (Hqh : (1 <= inject_Z h <= 65536)%Q).
  { split; [change 1%Q with (inject_Z 1) | change 65536%Q with (inject_Z 65536)];
      rewrite <- Zle_Qle; lia. }
  assert (Hmin : (1 <= inject_Z (Z.min w h))%Q
                 /\ (inject_Z (Z.min w h) <= inject_Z w)%Q
                 /\ (inject_Z (Z.min w h) <= inject_Z h)%Q).
  { split; [change 1%Q with (inject_Z 1)|split]; rewrite <- Zle_Qle; lia. }
  destruct Hmin as (Hmin1 & Hminw & Hminh).
  div_consts.
  set (W := inject_Z w) in *. set (H := inject_Z h) in *.
  set (M := inject_Z (Z.min w h)) in *.
  destruct (preset_placement W mw p) as (fx & cx & Efx & Ecx & Hinx & Hfx & Hcx);
    [exact Hqw | Lqa.lra | Lqa.lra |].
  destruct (preset_placement H mh p) as (fy & cy & Efy & Ecy & Hiny & Hfy & Hcy);
    [exact Hqh | Lqa.lra | Lqa.lra |].
  unfold presetRect. rewrite Emw, Emh, Ep, Efx, Ecx, Efy, Ecy.
  destruct position;
    [exists fx, fy, mw, mh | exists p, fy, mw, mh | exists fx, p, mw, mh
    | exists p, p, mw, mh | exists cx, cy, mw, mh | exists cx, fy, mw, mh];
    (split; [reflexivity|]); cbn zeta; div_consts;
    (split; [|rewrite !Qabs_Qle_condition]); repeat split; Lqa.lra.
Qed.

Lemma presetRect_inside_witness :
  exists rx ry rw rh : Q,
    presetRect bottom_right (Num (inject_Z 200)) (Num (inject_Z 100))
      (Num (inject_Z 7))
    = (Num rx, Num ry, Num rw, Num rh)
    /\ (0 <= rx /\ rx + rw <= inject_Z 200 /\ 0 <= ry /\ ry + rh <= inject_Z 100)%Q
    /\ let near := fun x y : Q => (Qabs (x - y) <= 1 # 34359738368)%Q in
       let padding := (inject_Z (Z.min 200 100) * (2 # 100))%Q in
       near rw (inject_Z 200 * (inject_Z 7 / 100))%Q
       /\ near rh (inject_Z 100 * (inject_Z 7 / 100))%Q
       /\ near (inject_Z 200 - (rx + rw))%Q padding
       /\ near (inject_Z 100 - (ry + rh))%Q padding.
Proof.
  apply (presetRect_inside bottom_right 200 100 7); lia.
Defined.

(** The width of the default preset on a 200 pixel wide canvas:
    14.000000000000002, one unit in the last place above 14. *)
Example presetRect_200_7 :
  snd (fst (presetRect bottom_right (Num 200) (Num 100) (Num 7)))
  = Num (7881299347898369 # 562949953421312).
Proof. vm_compute. reflexivity. Qed.

Local Open Scope R_scope.

(** X14.  On a laid-out canvas the brush cursor is drawn where the
    pointer is: the display position computed from the canvas point of a
    pointer event is the pointer's offset in the canvas rectangle.  The
    corners of the rectangle map to the corners of the canvas, a pointer
    inside the rectangle gives a point inside the canvas, and the cursor
    is a square whose side is the brush size scaled by the horizontal
    factor alone. *)
Theorem cursor_follows_pointer (canvasWidth canvasHeight : R) (rect : DOMRect)
    (st : Selector) (clientX clientY : R) :
  0 < canvasWidth -> 0 < canvasHeight ->
  0 < rect_width rect -> 0 < rect_height rect ->
  let point := getCanvasCoords canvasWidth canvasHeight rect clientX clientY in
  let cursor := updateCursorImmediate canvasWidth canvasHeight rect st point in
  cursor_left cursor = clientX - rect_left rect
  /\ cursor_top cursor = clientY - rect_top rect
  /\ cursor_width cursor = cursor_height cursor
  /\ cursor_width cursor * canvasWidth = brushSizeRef st * rect_width rect
  /\ getCanvasCoords canvasWidth canvasHeight rect (rect_left rect) (rect_top rect)
     = mkPoint 0 0
  /\ getCanvasCoords canvasWidth canvasHeight rect
       (rect_left rect + rect_width rect) (rect_top rect + rect_height rect)
     = mkPoint canvasWidth canvasHeight
  /\ (rect_left rect <= clientX <= rect_left rect + rect_width rect ->
      0 <= x point <= canvasWidth)
  /\ (rect_top rect <= clientY <= rect_top rect + rect_height rect ->
      0 <= y point <= canvasHeight).
Proof.
  intros Hcw Hch Hrw Hrh. cbn zeta.
  unfold updateCursorImmediate, getCanvasCoords.
  cbn [cursor_left cursor_top cursor_width cursor_height x y].
  repeat split.
  - field. lra.
  - field. lra.
  - field. lra.
  - f_equal; field; lra.
  - f_equal; field; lra.
  - apply Rmult_le_pos; [lra|]. apply Rlt_le, Rdiv_lt_0_compat; assumption.
  - replace canvasWidth with (rect_width rect * (canvasWidth / rect_width rect))
      at 2 by (field; lra).
    apply Rmult_le_compat_r; [|lra].
    apply Rlt_le, Rdiv_lt_0_compat; assumption.
  - apply Rmult_le_pos; [lra|]. apply Rlt_le, Rdiv_lt_0_compat; assumption.
  - replace canvasHeight with (rect_height rect * (canvasHeight / rect_height rect))
      at 2 by (field; lra).
    apply Rmult_le_compat_r; [|lra].
    apply Rlt_le, Rdiv_lt_0_compat; assumption.
Qed.

Lemma cursor_follows_pointer_witness :
  let rect := mkRect 10 20 400 300 in
  let point := getCanvasCoords 800 600 rect 110 170 in
  let cursor := updateCursorImmediate 800 600 rect initial point in
  cursor_left cursor = 110 - rect_left rect
  /\ cursor_top cursor = 170 - rect_top rect
  /\ cursor_width cursor = cursor_height cursor
  /\ cursor_width cursor * 800 = brushSizeRef initial * rect_width rect
  /\ getCanvasCoords 800 600 rect (rect_left rect) (rect_top rect)
     = mkPoint 0 0
  /\ getCanvasCoords 800 600 rect
       (rect_left rect + rect_width rect) (rect_top rect + rect_height rect)
     = mkPoint 800 600
  /\ (rect_left rect <= 110 <= rect_left rect + rect_width rect ->
      0 <= x point <= 800)
  /\ (rect_top rect <= 170 <= rect_top rect + rect_height rect ->
      0 <= y point <= 600).
Proof.
  apply (cursor_follows_pointer 800 600 (mkRect 10 20 400 300) initial 110 170);
    cbn [rect_width rect_height]; lra.
Defined.

(** ** The mask editor: keyboard and overlay *)

Lemma undo_keeps_settings (st : Selector) :
  brushSizeRef (undo st) = brushSizeRef st
  /\ historyRef (undo st) = historyRef st
  /\ maskSize (undo st) = maskSize st.
Proof.
  unfold undo, restore. destruct (_ <=? _)%Z; [auto|].
  destruct (maskCanvasRef st); [|auto].
  destruct (js_index _ _); auto.
Qed.

Lemma redo_keeps_settings (st : Selector) :
  brushSizeRef (redo st) = brushSizeRef st
  /\ historyRef (redo st) = historyRef st
  /\ maskSize (redo st) = maskSize st.
Proof.
  unfold redo, restore. destruct (_ <=? _)%Z; [auto|].
  destruct (maskCanvasRef st); [|auto].
  destruct (js_index _ _); auto.
Qed.

Lemma handleKeyDown_step (isFocused : bool) (e : KeyboardEvent) (st : Selector) :
  5 <= brushSizeRef st <= 100 ->
  5 <= brushSizeRef (handleKeyDown isFocused e st) <= 100
  /\ historyRef (handleKeyDown isFocused e st) = historyRef st
  /\ maskSize (handleKeyDown isFocused e st) = maskSize st.
Proof.
  intros Hb. unfold handleKeyDown.
  destruct (negb isFocused); [auto|].
  destruct (targetIsField e); [auto|].
  destruct (String.eqb (key e) "[").
  { cbn [setBrushSize brushSizeRef historyRef maskSize]. repeat split.
    - apply Rmax_l.
    - apply Rmax_lub; lra. }
  destruct (String.eqb (key e) "]").
  { cbn [setBrushSize brushSizeRef historyRef maskSize]. repeat split.
    - apply Rmin_glb; lra.
    - apply Rmin_l. }
  destruct (String.eqb (key e) "b" || String.eqb (key e) "B"); [auto|].
  destruct (String.eqb (key e) "e" || String.eqb (key e) "E"); [auto|].
  destruct ((metaKey e || ctrlKey e) && String.eqb (key e) "z"); [|auto].
  destruct (shiftKey e).
  - destruct (redo_keeps_settings st) as (-> & -> & ->). auto.
  - destruct (undo_keeps_settings st) as (-> & -> & ->). auto.
Qed.

(** X15.  Under any sequence of key presses the brush size stays between
    5 and 100, and the snapshots of the history and the preset size are
    left as they are.  A key press while the canvas is not focused, or in
    a text field, does nothing; neither does the key [Z] in upper case,
    whatever the modifiers.  Widening and then narrowing the brush gives
    back a size of at most 95, narrowing and then widening one of at
    least 10. *)
Theorem keyboard_keeps_brush_in_range
    (keys : list (bool * KeyboardEvent)) (st : Selector) :
  5 <= brushSizeRef st <= 100 ->
  let press := fun s (k : bool * KeyboardEvent) => handleKeyDown (fst k) (snd k) s in
  let wider := mkKey "]" false false false false in
  let narrower := mkKey "[" false false false false in
  (let st' := fold_left press keys st in
   5 <= brushSizeRef st' <= 100
   /\ historyRef st' = historyRef st
   /\ maskSize st' = maskSize st)
  /\ (forall e, handleKeyDown false e st = st)
  /\ (forall f e, targetIsField e = true -> handleKeyDown f e st = st)
  /\ (forall f e, key e = "Z"%string -> handleKeyDown f e st = st)
  /\ (brushSizeRef st <= 95 ->
      brushSizeRef (handleKeyDown true narrower (handleKeyDown true wider st))
      = brushSizeRef st)
  /\ (10 <= brushSizeRef st ->
      brushSizeRef (handleKeyDown true wider (handleKeyDown true narrower st))
      = brushSizeRef st).
Proof.
  intros Hb. cbn zeta. split; [|split; [|split; [|split; [|split]]]].
  - revert st Hb. induction keys as [|[f e] keys IH]; intros st Hb; [auto|].
    cbn [fold_left fst snd].
    destruct (handleKeyDown_step f e st Hb) as (H1 & H2 & H3).
    destruct (IH _ H1) as (I1 & I2 & I3). rewrite I2, I3. auto.
  - intros e. reflexivity.
  - intros f e He. unfold handleKeyDown. rewrite He. destruct (negb f); reflexivity.
  - intros f e He. unfold handleKeyDown. rewrite He. cbn.
    destruct (negb f), (targetIsField e), (metaKey e || ctrlKey e); reflexivity.
  - intros H. cbn. rewrite (Rmin_right 100) by lra. rewrite Rmax_right by lra. lra.
  - intros H. cbn. rewrite (Rmax_right 5) by lra. rewrite Rmin_right by lra. lra.
Qed.

Lemma keyboard_keeps_brush_in_range_witness :
  let st := initial in
  let press := fun s (k : bool * KeyboardEvent) => handleKeyDown (fst k) (snd k) s in
  let wider := mkKey "]" false false false false in
  let narrower := mkKey "[" false false false false in
  (let st' := fold_left press [(true, wider); (true, wider); (true, narrower)] st in
   5 <= brushSizeRef st' <= 100
   /\ historyRef st' = historyRef st
   /\ maskSize st' = maskSize st)
  /\ (forall e, handleKeyDown false e st = st)
  /\ (forall f e, targetIsField e = true -> handleKeyDown f e st = st)
  /\ (forall f e, key e = "Z"%string -> handleKeyDown f e st = st)
  /\ (brushSizeRef st <= 95 ->
      brushSizeRef (handleKeyDown true narrower (handleKeyDown true wider st))
      = brushSizeRef st)
  /\ (10 <= brushSizeRef st ->
      brushSizeRef (handleKeyDown true wider (handleKeyDown true narrower st))
      = brushSizeRef st).
Proof.
  apply (keyboard_keeps_brush_in_range
           [(true, mkKey "]" false false false false);
            (true, mkKey "]" false false false false);
            (true, mkKey "[" false false false false)] initial).
  cbn [initial brushSizeRef]. lra.
Defined.

Local Close Scope R_scope.

Section OverlayLoop.
Variable maskOpacity : number.
Variable maskData : list Z.
Variable overlayLength : nat.

Lemma overlay_loop_S n :
  overlay_loop maskOpacity maskData overlayLength (S n)
  = overlay_step maskOpacity maskData
      (overlay_loop maskOpacity maskData overlayLength n) n.
Proof.
  unfold overlay_loop. rewrite seq_S, fold_left_app. reflexivity.
Qed.

Lemma overlay_loop_length n :
  length (overlay_loop maskOpacity maskData overlayLength n) = overlayLength.
Proof.
  induction n as [|n IH].
  - unfold overlay_loop. cbn [seq fold_left]. apply length_replicate.
  - rewrite overlay_loop_S. unfold overlay_step.
    destruct (js_gt _ _); rewrite !length_insert; exact IH.
Qed.

(** The loop has not yet written past the pixels it has visited. *)
Lemma overlay_loop_untouched n p :
  (n * 4 <= p)%nat -> (p < overlayLength)%nat ->
  overlay_loop maskOpacity maskData overlayLength n !! p = Some 0.
Proof.
  induction n as [|n IH]; intros Hp Hlen.
  - unfold overlay_loop. cbn [seq fold_left]. apply lookup_replicate_2. exact Hlen.
  - rewrite overlay_loop_S. unfold overlay_step.
    destruct (js_gt _ _); rewrite !list_lookup_insert_ne by lia; apply IH; lia.
Qed.

Lemma overlay_loop_pixel n k j :
  (k < n)%nat -> (j < 4)%nat -> (k * 4 + j < overlayLength)%nat ->
  overlay_loop maskOpacity maskData overlayLength n !! (k * 4 + j)%nat
  = Some (if js_gt (byte_to_number (maskData !! (k * 4)%nat)) (Num 127)
          then nth j [239; 68; 68; overlay_alpha maskOpacity] 0
          else 0).
Proof.
  induction n as [|n IH]; intros Hk Hj Hlen; [lia|].
  rewrite overlay_loop_S. unfold overlay_step.
  pose proof (overlay_loop_length n) as Hl.
  pose proof (overlay_loop_untouched n) as Hun.
  set (l := overlay_loop maskOpacity maskData overlayLength n) in *.
  destruct (decide (k = n)) as [->|Hne].
  - destruct (js_gt (byte_to_number (maskData !! (n * 4)%nat)) (Num 127)).
    + assert (j = 0 \/ j = 1 \/ j = 2 \/ j = 3)%nat as [-> | [-> | [-> | ->]]] by lia.
      * replace (n * 4 + 0)%nat with (n * 4)%nat by lia.
        rewrite !list_lookup_insert_ne by lia.
        apply list_lookup_insert_eq. lia.
      * rewrite !list_lookup_insert_ne by lia.
        apply list_lookup_insert_eq. rewrite !length_insert. lia.
      * rewrite !list_lookup_insert_ne by lia.
        apply list_lookup_insert_eq. rewrite !length_insert. lia.
      * apply list_lookup_insert_eq. rewrite !length_insert. lia.
    + destruct (decide (j = 3%nat)) as [->|Hj3].
      * apply list_lookup_insert_eq. lia.
      * rewrite list_lookup_insert_ne by lia. apply Hun; lia.
  - destruct (js_gt (byte_to_number (maskData !! (n * 4)%nat)) (Num 127));
      rewrite !list_lookup_insert_ne by lia; apply IH; lia.
Qed.

End OverlayLoop.

(** The alpha byte for a whole opacity from 0 to 100, checked on each
    of the 101 values: the binary64 quotient and product round to the
    same byte as the exact share of 255. *)
Lemma overlay_alpha_percent (p : Z) :
  0 <= p <= 100 ->
  overlay_alpha (Num (inject_Z p)) = Qfloor (inject_Z p / 100 * 255 + (1 # 2))
  /\ overlay_alpha (Num (inject_Z p)) = (255 * p + 50) / 100
  /\ 0 <= overlay_alpha (Num (inject_Z p)) <= 255.
Proof.
  intros Hp.
  pose (check := fun n : nat =>
    let p := Z.of_nat n in
    let a := overlay_alpha (Num (inject_Z p)) in
    Z.eqb a (Qfloor (inject_Z p / 100 * 255 + (1 # 2)))
    && Z.eqb a ((255 * p + 50) / 100)
    && Z.leb 0 a && Z.leb a 255).
  assert (Hall : forallb check (seq 0 101) = true) by (vm_compute; reflexivity).
  rewrite List.forallb_forall in Hall.
  assert (Hin : In (Z.to_nat p) (seq 0 101)) by (apply in_seq; lia).
  specialize (Hall _ Hin). unfold check in Hall. cbn zeta in Hall.
  rewrite Z2Nat.id in Hall by lia.
  apply andb_prop in Hall as [Hall H4]. apply andb_prop in Hall as [Hall H3].
  apply andb_prop in Hall as [H1 H2].
  apply Z.eqb_eq in H1, H2. apply Z.leb_le in H3, H4.
  split; [exact H1|]. split; [exact H2|]. split; assumption.
Qed.

(** X16.  The red overlay marks exactly the pixels the worker treats as
    masked.  For a mask opacity between 20 and 100 (the range of the
    slider) every pixel whose mask value exceeds 127 is painted
    (239, 68, 68) with an alpha between 51 and 255, the rounded share of
    255; every other pixel of the overlay stays transparent black. *)
Theorem overlay_marks_masked_pixels (opacity : Z) (maskData : list Z)
    (overlayLength k : nat) :
  20 <= opacity <= 100 ->
  (k * 4 < length maskData)%nat -> (k * 4 + 3 < overlayLength)%nat ->
  let ov := overlay (Num (inject_Z opacity)) maskData overlayLength in
  let alpha := Qfloor (inject_Z opacity / 100 * 255 + (1 # 2)) in
  51 <= alpha <= 255
  /\ map (fun j => ov !! (k * 4 + j)%nat) (seq 0 4)
     = (if js_eq (InpaintingWorker.mask_value maskData k) (Num 1)
        then [Some 239; Some 68; Some 68; Some alpha]
        else [Some 0; Some 0; Some 0; Some 0]).
Proof.
  intros Hop Hk Hlen. cbn zeta.
  destruct (overlay_alpha_percent opacity) as (Ha & Hb & Hc); [lia|].
  rewrite <- Ha. split.
  - split; [|lia]. rewrite Hb. apply Z.div_le_lower_bound; lia.
  - assert (Hit : (k < overlay_iterations maskData)%nat).
    { unfold overlay_iterations.
      apply Nat.div_le_lower_bound; lia. }
    unfold overlay. cbn [map seq].
    rewrite !(overlay_loop_pixel _ _ _ _ k) by (lia || exact Hit).
    unfold InpaintingWorker.mask_value.
    destruct (js_gt (byte_to_number (maskData !! (k * 4)%nat)) (Num 127));
      reflexivity.
Qed.

Lemma overlay_marks_masked_pixels_witness :
  let ov := overlay (Num (inject_Z 50)) [255; 255; 255; 255; 0; 0; 0; 255] 8 in
  let alpha := Qfloor (inject_Z 50 / 100 * 255 + (1 # 2)) in
  51 <= alpha <= 255
  /\ map (fun j => ov !! (0 * 4 + j)%nat) (seq 0 4)
     = (if js_eq (InpaintingWorker.mask_value
                    [255; 255; 255; 255; 0; 0; 0; 255] 0) (Num 1)
        then [Some 239; Some 68; Some 68; Some alpha]
        else [Some 0; Some 0; Some 0; Some 0]).
Proof.
  apply (overlay_marks_masked_pixels 50 [255; 255; 255; 255; 0; 0; 0; 255] 8 0).
  - lia.
  - cbn [length]. lia.
  - lia.
Defined.

(** ** The head tags of a blog post *)

Local Open Scope string_scope.

Lemma trim_end_blank (t : string) : String.eqb (trim_end t) EmptyString = blank t.
Proof.
  destruct t as [|c rest]; [reflexivity|].
  cbn [trim_end]. destruct (blank (String c rest)); reflexivity.
Qed.

Lemma trim_start_blank (skip : nat) (s : string) :
  blank (trim_start_from skip s) = blank_from skip s.
Proof.
  revert skip. induction s as [|c rest IH]; intros skip; [reflexivity|].
  destruct skip as [|k]; [|apply IH].
  unfold blank. cbn [trim_start_from blank_from].
  destruct (ws_len (String c rest)) as [|k] eqn:Hws.
  - cbn [blank_from]. rewrite Hws. reflexivity.
  - apply IH.
Qed.

(** [trim] gives the empty string on white space only, and only there. *)
Lemma trim_blank (s : string) : String.eqb (trim s) EmptyString = blank s.
Proof. unfold trim. rewrite trim_end_blank. apply trim_start_blank. Qed.

(** A no-break space (U+00A0) and a line separator (U+2028) are white
    space to [trim], as a space is. *)
Example trim_unicode_space :
  trim (bytes_to_string [194; 160; 32; 97; 32; 98; 226; 128; 168; 9]%nat) = "a b"
  /\ blank (bytes_to_string [194; 160; 226; 128; 168; 32]%nat) = true
  /\ blank (bytes_to_string [194; 97]%nat) = false.
Proof. repeat split; vm_compute; reflexivity. Qed.

Lemma trim_length_blank (s : string) :
  (0 <? String.length (trim s))%nat = negb (blank s).
Proof.
  rewrite <- trim_blank. destruct (trim s); reflexivity.
Qed.

Lemma filter_fmap_all {A B : Type} (f : A -> B) (p : B -> bool) (l : list A) :
  (forall a, p (f a) = true) -> List.filter p (map f l) = map f l.
Proof.
  intros H. induction l as [|a l IH]; [reflexivity|]. cbn. rewrite H, IH. reflexivity.
Qed.

Lemma filter_fmap_none {A B : Type} (f : A -> B) (p : B -> bool) (l : list A) :
  (forall a, p (f a) = false) -> List.filter p (map f l) = [].
Proof.
  intros H. induction l as [|a l IH]; [reflexivity|]. cbn. rewrite H. exact IH.
Qed.

Section BlogHead.
Variable Date_getTime : string -> option Z.
Variable toISOString : Z -> string.

(** The description of a post as [getBlogPostSeo] computes it. *)
Lemma blog_description_eq (e : option string) :
  truthy_or (trim <$> e) DEFAULT_DESCRIPTION
  = match e with
    | Some e => if blank e then DEFAULT_DESCRIPTION else trim e
    | None => DEFAULT_DESCRIPTION
    end.
Proof.
  destruct e as [e|]; [|reflexivity]. cbn [fmap option_fmap option_map truthy_or].
  rewrite trim_blank. reflexivity.
Qed.

(** X17.  The description of a blog post is its excerpt without the
    white space around it, or the site's default description when the
    excerpt is absent or holds white space only; it is never empty.  The
    head carries it once under each of [description], [og:description]
    and [twitter:description], and the JSON-LD object carries the same
    text. *)
Theorem blog_description_fallback (post : BlogSeoPayload) :
  let head := getBlogPostSeo Date_getTime toISOString post in
  let description :=
    match excerpt post with
    | Some e => if blank e then DEFAULT_DESCRIPTION else trim e
    | None => DEFAULT_DESCRIPTION
    end in
  description <> EmptyString
  /\ List.filter (has_name "description") (meta head)
     = [metaName "description" description]
  /\ List.filter (has_property "og:description") (meta head)
     = [metaProperty "og:description" description]
  /\ List.filter (has_property "twitter:description") (meta head)
     = [metaProperty "twitter:description" description]
  /\ get_field "description" (prune (blogJsonLd Date_getTime toISOString post)) = Some (VString description).
Proof.
  cbn zeta. rewrite <- blog_description_eq.
  split; [|split; [|split; [|split]]].
  - rewrite blog_description_eq. destruct (excerpt post) as [e|]; [|discriminate].
    destruct (blank e) eqn:Hb; [discriminate|].
    apply String.eqb_neq. rewrite trim_blank. exact Hb.
  - unfold getBlogPostSeo. cbn [meta]. rewrite List.filter_app.
    rewrite (filter_fmap_none _ (has_name "description")) by reflexivity.
    rewrite app_nil_r.
    destruct (getIsoDate Date_getTime toISOString (date post)); reflexivity.
  - unfold getBlogPostSeo. cbn [meta]. rewrite List.filter_app.
    rewrite (filter_fmap_none _ (has_property "og:description")) by reflexivity.
    rewrite app_nil_r.
    destruct (getIsoDate Date_getTime toISOString (date post)); reflexivity.
  - unfold getBlogPostSeo. cbn [meta]. rewrite List.filter_app.
    rewrite (filter_fmap_none _ (has_property "twitter:description")) by reflexivity.
    rewrite app_nil_r.
    destruct (getIsoDate Date_getTime toISOString (date post)); reflexivity.
  - reflexivity.
Qed.

Lemma blog_tag_filter (tag : string) :
  negb (String.eqb tag EmptyString) && (0 <? String.length (trim tag))%nat
  = negb (blank tag).
Proof.
  rewrite trim_length_blank. destruct tag; reflexivity.
Qed.

(** X18.  A blog post receives one [article:tag] per tag that is not
    blank, in the order of the post, while the [keywords] tag and the
    JSON-LD keywords join all its tags, blank ones included.  A post
    with no tags has the site's default keywords in the head and no
    keywords in the JSON-LD object. *)
Theorem blog_tags_and_keywords (post : BlogSeoPayload) :
  let head := getBlogPostSeo Date_getTime toISOString post in
  let ts := default [] (tags post) in
  map content (List.filter (has_property "article:tag") (meta head))
  = map Some (List.filter (fun tag => negb (blank tag)) ts)
  /\ List.filter (has_name "keywords") (meta head)
     = [metaName "keywords"
          (match ts with [] => join ", " DEFAULT_KEYWORDS | _ => join ", " ts end)]
  /\ get_field "keywords" (prune (blogJsonLd Date_getTime toISOString post))
     = match ts with [] => None | _ => Some (VString (join ", " ts)) end.
Proof.
  cbn zeta. split; [|split].
  - unfold getBlogPostSeo. cbn [meta]. rewrite List.filter_app.
    rewrite (filter_fmap_all _ (has_property "article:tag")) by reflexivity.
    rewrite (List.filter_ext _ _ blog_tag_filter).
    rewrite map_app, map_map. cbn [content metaProperty].
    destruct (getIsoDate Date_getTime toISOString (date post)); reflexivity.
  - unfold getBlogPostSeo. cbn [meta]. rewrite List.filter_app.
    rewrite (filter_fmap_none _ (has_name "keywords")) by reflexivity.
    rewrite app_nil_r. unfold post_keywords.
    destruct (tags post) as [[|t ts]|];
      destruct (getIsoDate Date_getTime toISOString (date post)); reflexivity.
  - unfold blogJsonLd, post_keywords.
    destruct (tags post) as [[|t ts]|];
      destruct (getIsoDate Date_getTime toISOString (date post)); reflexivity.
Qed.

(** X19.  For a post whose date parses, the head carries
    [article:published_time] and [article:modified_time], in this order
    and once each, both with the ISO form of the date, and the JSON-LD
    object carries the same text as [datePublished] and [dateModified]. *)
Theorem blog_dates_when_parsable (post : BlogSeoPayload) (d : string) (t : Z) :
  date post = Some d -> d <> EmptyString -> Date_getTime d = Some t ->
  let head := getBlogPostSeo Date_getTime toISOString post in
  let iso := toISOString t in
  List.filter (fun m => has_property "article:published_time" m
                        || has_property "article:modified_time" m) (meta head)
  = [metaProperty "article:published_time" iso;
     metaProperty "article:modified_time" iso]
  /\ get_field "datePublished" (prune (blogJsonLd Date_getTime toISOString post)) = Some (VString iso)
  /\ get_field "dateModified" (prune (blogJsonLd Date_getTime toISOString post)) = Some (VString iso).
Proof.
  intros Hd Hne Ht. cbn zeta.
  assert (Hiso : getIsoDate Date_getTime toISOString (date post)
                 = Some (toISOString t)).
  { unfold getIsoDate. rewrite Hd.
    destruct (String.eqb_spec d EmptyString); [contradiction|].
    rewrite Ht. reflexivity. }
  split; [|split].
  - unfold getBlogPostSeo. rewrite Hiso. cbn [meta]. rewrite List.filter_app.
    rewrite (filter_fmap_none _
               (fun m => has_property "article:published_time" m
                         || has_property "article:modified_time" m))
      by reflexivity.
    rewrite app_nil_r. reflexivity.
  - unfold blogJsonLd. rewrite Hiso. reflexivity.
  - unfold blogJsonLd. rewrite Hiso. reflexivity.
Qed.

End BlogHead.

Lemma blog_dates_when_parsable_witness :
  let head := getBlogPostSeo (fun _ => Some 0%Z) sample_toISOString sample_post in
  let iso := sample_toISOString 0%Z in
  List.filter (fun m => has_property "article:published_time" m
                        || has_property "article:modified_time" m) (meta head)
  = [metaProperty "article:published_time" iso;
     metaProperty "article:modified_time" iso]
  /\ get_field "datePublished"
       (prune (blogJsonLd (fun _ => Some 0%Z) sample_toISOString sample_post))
     = Some (VString iso)
  /\ get_field "dateModified"
       (prune (blogJsonLd (fun _ => Some 0%Z) sample_toISOString sample_post))
     = Some (VString iso).
Proof.
  apply (blog_dates_when_parsable (fun _ => Some 0%Z) sample_toISOString
           sample_post "not a date" 0%Z).
  - reflexivity.
  - discriminate.
  - reflexivity.
Defined.

Local Close Scope string_scope.

(** ** The page and its worker *)

Ltac page_fields :=
  cbn [App.imageElement App.maskCanvas App.resultUrl App.isProcessing
       App.isLoadingModel App.modelProgress App.error App.workerRef
       App.processingRef App.sent App.usage
       App.setImageElement App.setMaskCanvas App.setResultUrl
       App.setIsProcessing App.setIsLoadingModel App.setModelProgress
       App.setError App.setWorkerRef App.setProcessingRef App.postMessage
       App.recordUsage App.finally App.catch] in *.

Lemma page_inv_mount : App.page_inv 0 (App.mount App.initial).
Proof.
  unfold App.page_inv. cbn. repeat split; try lia.
  exists []. split; reflexivity.
Qed.

Lemma filter_process_snoc (l : list WorkerMessage) (m : WorkerMessage) :
  length (List.filter App.is_process (l ++ [m]))
  = (length (List.filter App.is_process l) + if App.is_process m then 1 else 0)%nat.
Proof.
  rewrite List.filter_app, length_app. cbn [List.filter].
  destruct (App.is_process m); reflexivity.
Qed.

Ltac page_close H4 :=
  repeat split; try assumption; try lia; try discriminate;
  try (match goal with
       | Hl : _ = true |- _ =>
           destruct (H4 Hl) as (? & ? & ? & ?);
           first [assumption | discriminate | congruence]
       end).

Lemma page_inv_settleProcess (n : nat) (outcome : result string) (a : App.Page) :
  App.page_inv n a -> App.page_inv (S n) (App.settleProcess outcome a).
Proof.
  intros (H1 & H2 & H3 & H4 & H5 & H6). unfold App.settleProcess.
  destruct a as [img msk url proc loading progress err wref pref snt use].
  page_fields. subst pref.
  destruct proc.
  - unfold App.page_inv. destruct outcome; page_fields; page_close H4.
  - unfold App.page_inv. page_fields. page_close H4.
Qed.

Lemma page_inv_step (n : nat) (a : App.Page) (ev : App.PageEvent) :
  App.page_inv n a ->
  App.page_inv (n + if App.is_process_answer ev then 1 else 0) (App.step a ev).
Proof.
  intros Hinv. pose proof Hinv as (H1 & H2 & H3 & H4 & H5 & H6).
  destruct ev as [ | w h | | env | env message]; cbn [App.step App.is_process_answer].
  - rewrite Nat.add_0_r. unfold App.handleImageSelect, App.page_inv.
    page_fields. page_close H4.
  - rewrite Nat.add_0_r. unfold App.imageLoaded, App.page_inv.
    page_fields. page_close H4.
  - rewrite Nat.add_0_r. unfold App.handleMaskChange, App.page_inv.
    page_fields. page_close H4.
  - rewrite Nat.add_0_r. unfold App.clickProcess.
    destruct (App.imageElement a) as [[w h]|] eqn:Himg; [|exact Hinv].
    destruct (App.maskCanvas a) eqn:Hmsk; [|exact Hinv].
    destruct (App.isProcessing a) eqn:Hproc; [exact Hinv|].
    destruct (App.isLoadingModel a) eqn:Hload; [exact Hinv|]. cbn [orb].
    unfold App.handleProcess. rewrite Himg, Hmsk.
    destruct (App.canProcess env); cbn [negb].
    2:{ unfold App.page_inv. page_fields. rewrite Hproc, Hload.
        page_close H4. }
    rewrite H2, Hload. cbn [negb orb].
    destruct H3 as (ps & Hs & Hps).
    destruct (App.pageImageCtx env); cbn [negb].
    2:{ unfold App.page_inv. page_fields. rewrite Hload.
        page_close H4. eauto. }
    destruct (App.pageMaskCtx env); cbn [negb].
    2:{ unfold App.page_inv. page_fields. rewrite Hload.
        page_close H4. eauto. }
    unfold App.page_inv. page_fields. rewrite Hload.
    rewrite filter_process_snoc. cbn [App.is_process].
    page_close H4.
    exists (ps ++ [Process (App.imagePixels env) (App.maskPixels env) w h]).
    rewrite Hs. split; [reflexivity|].
    rewrite forallb_app, Hps. reflexivity.
  - unfold App.handleWorkerMessage.
    destruct message as [percent | | e | resultData | e].
    + rewrite Nat.add_0_r. unfold App.page_inv. page_fields. page_close H4.
    + rewrite Nat.add_0_r. unfold App.page_inv. page_fields. page_close H4.
    + rewrite Nat.add_0_r. unfold App.page_inv. page_fields. page_close H4.
    + rewrite Nat.add_1_r.
      destruct (App.pageResultCtx env); apply page_inv_settleProcess, Hinv.
    + rewrite Nat.add_1_r. apply page_inv_settleProcess, Hinv.
Qed.

Lemma page_inv_fold (evs : list App.PageEvent) (n : nat) (a : App.Page) :
  App.page_inv n a ->
  App.page_inv (n + length (List.filter App.is_process_answer evs))
    (fold_left App.step evs a).
Proof.
  revert n a. induction evs as [|ev evs IH]; intros n a Hinv.
  - cbn. rewrite Nat.add_0_r. exact Hinv.
  - cbn [fold_left List.filter].
    pose proof (IH _ _ (page_inv_step n a ev Hinv)) as H.
    destruct (App.is_process_answer ev); cbn [length].
    + replace (n + S (length (List.filter App.is_process_answer evs)))%nat
        with (n + 1 + length (List.filter App.is_process_answer evs))%nat by lia.
      exact H.
    + rewrite Nat.add_0_r in H. exact H.
Qed.

(** X20.  Whatever the user does and whatever the worker sends, the
    page has at most one [process] request in flight: the requests it
    has posted never outnumber the answers it has received by more than
    the one it is waiting for, and each was recorded by the usage
    tracker.  The first message to the worker is [load], every later one
    is a [process] request, and while the model is loading nothing but
    [load] has been posted and no result is shown. *)
Theorem page_one_request_in_flight (evs : list App.PageEvent) :
  let a := App.run_events evs in
  let requests := length (List.filter App.is_process (App.sent a)) in
  let answered := length (List.filter App.is_process_answer evs) in
  (requests <= answered + (if App.isProcessing a then 1 else 0))%nat
  /\ (requests <= App.usage a)%nat
  /\ App.processingRef a = App.isProcessing a
  /\ (exists ps, App.sent a = Load :: ps /\ forallb App.is_process ps = true)
  /\ (App.isLoadingModel a = true ->
      App.sent a = [Load] /\ App.isProcessing a = false
      /\ App.resultUrl a = None).
Proof.
  cbn zeta. unfold App.run_events.
  destruct (page_inv_fold evs 0 _ page_inv_mount) as (H1 & H2 & H3 & H4 & H5 & H6).
  cbn [Nat.add] in H5.
  page_close H4.
Qed.

Lemma page_one_request_in_flight_witness :
  App.sent (App.run_events []) = [Load]
  /\ App.isProcessing (App.run_events []) = false
  /\ App.resultUrl (App.run_events []) = None.
Proof.
  apply (proj2 (proj2 (proj2 (proj2 (page_one_request_in_flight []))))).
  reflexivity.
Defined.


Lemma map_snd_tagged {A : Type} (rid : nat) (l : list A) :
  map snd (map (fun resp => (rid, resp)) l) = l.
Proof.
  induction l as [|x l IH]; [reflexivity|]. cbn. rewrite IH. reflexivity.
Qed.

Lemma new_posts_app (w w' : Worker) (l : list (nat * WorkerResponse)) :
  posted w' = posted w ++ l -> App.new_posts w w' = map snd l.
Proof.
  intros H. unfold App.new_posts. rewrite H, drop_app_length. reflexivity.
Qed.

(** Progress reports touch the progress bar only. *)
Lemma deliver_progress (env : App.PageEnv) (percents : list Z) (a : App.Page) :
  exists p, App.deliver env (map LoadProgress percents) a = App.setModelProgress p a.
Proof.
  revert a. induction percents as [|pc ps IH]; intros a.
  - exists (App.modelProgress a). destruct a. reflexivity.
  - cbn [map App.deliver fold_left App.handleWorkerMessage].
    destruct (IH (App.setModelProgress pc a)) as [p Hp].
    exists p. unfold App.deliver in Hp. rewrite Hp. reflexivity.
Qed.

Lemma deliver_app (env : App.PageEnv) (l1 l2 : list WorkerResponse) (a : App.Page) :
  App.deliver env (l1 ++ l2) a = App.deliver env l2 (App.deliver env l1 a).
Proof. unfold App.deliver. apply fold_left_app. Qed.

(** The worker after the page's [load] request and the end of the load
    attempt it started. *)
Lemma first_load_settled (penv : ProcessEnv) (lenv : LoadEnv) :
  let w2 := settle 0 lenv (onmessage Load penv init) in
  session w2 = match snd (load_body lenv) with Ok s => Some s | Throw _ => None end
  /\ inputNames w2
     = match snd (load_body lenv) with Ok s => session_inputNames s | Throw _ => [] end
  /\ outputNames w2
     = match snd (load_body lenv) with Ok s => session_outputNames s | Throw _ => [] end
  /\ inbox w2 = [Load]
  /\ posted w2
     = map (fun resp => (0%nat, resp))
         (map LoadProgress (fst (load_body lenv))
          ++ [load_terminal (snd (load_body lenv))]).
Proof.
  cbn zeta.
  rewrite (settle_eq 0 0 lenv (onmessage Load penv init));
    [|apply worker_inv_onmessage, worker_inv_init|reflexivity].
  worker_fields. repeat split.
  cbn -[load_body]. unfold resumed_posts. cbn -[load_body].
  rewrite app_nil_r. reflexivity.
Qed.

(** X21.  The page and its worker, end to end.  The page asks for the
    model on mount; when the load attempt ends the page stops showing
    the loading state, so that a user who has chosen an image and a mask
    can post one [process] request.  If the load failed, the page shows
    the load error and the request is answered with
    [Processing failed: Model not loaded]; if it succeeded, the page
    shows the data URL of the worker's result, or the message of the
    error that [processImage] threw.  In every case the page has left
    the processing state once the answer is delivered. *)
Theorem page_worker_round_trip (penv : ProcessEnv) (lenv : LoadEnv)
    (genv : App.PageEnv) (w h : Z) :
  App.canProcess genv = true ->
  App.pageImageCtx genv = true -> App.pageMaskCtx genv = true ->
  let request := Process (App.imagePixels genv) (App.maskPixels genv) w h in
  let w2 := settle 0 lenv (onmessage Load penv init) in
  let a1 := App.deliver genv (App.new_posts init w2) (App.mount App.initial) in
  let a2 := App.clickProcess genv (App.handleMaskChange (App.imageLoaded w h a1)) in
  let w3 := onmessage request penv w2 in
  let a3 := App.deliver genv (App.new_posts w2 w3) a2 in
  App.isLoadingModel a1 = false
  /\ App.sent a2 = [Load; request] /\ App.isProcessing a2 = true
  /\ App.isProcessing a3 = false /\ App.processingRef a3 = false
  /\ match snd (load_body lenv) with
     | Throw e =>
         App.error a1 = Some ("Failed to load model: " ++ error_message e)%string
         /\ App.error a3 = Some "Processing failed: Model not loaded"%string
         /\ App.resultUrl a3 = None
     | Ok s =>
         App.error a1 = None
         /\ match snd (processImage penv (Some s) (session_inputNames s)
                         (session_outputNames s)
                         (App.imagePixels genv) (App.maskPixels genv) w h) with
            | Ok resultData =>
                if App.pageResultCtx genv
                then App.resultUrl a3 = Some (App.toDataURL genv resultData)
                     /\ App.error a3 = None
                else App.resultUrl a3 = None
                     /\ App.error a3
                        = Some "Processing failed: Failed to create result canvas"%string
            | Throw e =>
                App.resultUrl a3 = None
                /\ App.error a3
                   = Some ("Processing failed: " ++ error_message e)%string
            end
     end.
Proof.
  intros Hcan Hictx Hmctx. cbn zeta.
  destruct (first_load_settled penv lenv) as (Hs & Hin & Hout & Hinbox & Hposted).
  cbn zeta in Hs, Hin, Hout, Hinbox, Hposted.
  set (w2 := settle 0 lenv (onmessage Load penv init)) in *.
  (* the answers to the load request *)
  assert (Hnew1 : App.new_posts init w2
                  = map LoadProgress (fst (load_body lenv))
                    ++ [load_terminal (snd (load_body lenv))]).
  { rewrite (new_posts_app init w2 (posted w2)) by reflexivity.
    rewrite Hposted. apply map_snd_tagged. }
  rewrite Hnew1, deliver_app.
  destruct (deliver_progress genv (fst (load_body lenv)) (App.mount App.initial))
    as [p Hp].
  rewrite Hp. clear Hp Hnew1.
  (* the answer to the process request *)
  set (request := Process (App.imagePixels genv) (App.maskPixels genv) w h).
  assert (Hnew2 : App.new_posts w2 (onmessage request penv w2)
                  = [process_terminal
                       (snd (processImage penv (session w2) (inputNames w2)
                               (outputNames w2) (App.imagePixels genv)
                               (App.maskPixels genv) w h))]).
  { apply (new_posts_app w2 _
             [(length (inbox w2),
               process_terminal
                 (snd (processImage penv (session w2) (inputNames w2)
                         (outputNames w2) (App.imagePixels genv)
                         (App.maskPixels genv) w h)))]).
    unfold onmessage, request. worker_fields.
    destruct (processImage penv (session w2) (inputNames w2) (outputNames w2)
                (App.imagePixels genv) (App.maskPixels genv) w h) as [calls r].
    rewrite process_case_eq. unfold finish. worker_fields. reflexivity. }
  rewrite Hnew2, Hs, Hin, Hout. clear Hnew2.
  destruct (snd (load_body lenv)) as [s|e]; cbn [load_terminal].
  - unfold App.clickProcess, App.handleProcess.
    cbn [App.deliver fold_left App.handleWorkerMessage App.mount App.initial
         App.handleMaskChange App.imageLoaded]. page_fields.
    rewrite Hcan, Hictx, Hmctx. cbn [negb orb]. page_fields.
    destruct (snd (processImage penv (Some s) (session_inputNames s)
                     (session_outputNames s) (App.imagePixels genv)
                     (App.maskPixels genv) w h)) as [resultData|e];
      cbn [process_terminal fold_left App.handleWorkerMessage].
    + destruct (App.pageResultCtx genv);
        unfold App.settleProcess; page_fields; repeat split.
    + unfold App.settleProcess; page_fields; repeat split.
  - unfold App.clickProcess, App.handleProcess.
    cbn [App.deliver fold_left App.handleWorkerMessage App.mount App.initial
         App.handleMaskChange App.imageLoaded]. page_fields.
    rewrite Hcan, Hictx, Hmctx. cbn [negb orb]. page_fields.
    cbn [processImage snd process_terminal fold_left App.handleWorkerMessage
         error_message].
    unfold App.settleProcess; page_fields; repeat split.
Qed.

Lemma page_worker_round_trip_witness :
  let penv := sample_process_env in
  let genv := App.mkPageEnv true true sample_image true sample_mask true
                (fun _ => "data:image/png;base64,"%string) in
  let request := Process (App.imagePixels genv) (App.maskPixels genv) 1 1 in
  let w2 := settle 0 sample_load_404 (onmessage Load penv init) in
  let a1 := App.deliver genv (App.new_posts init w2) (App.mount App.initial) in
  let a2 := App.clickProcess genv (App.handleMaskChange (App.imageLoaded 1 1 a1)) in
  let w3 := onmessage request penv w2 in
  let a3 := App.deliver genv (App.new_posts w2 w3) a2 in
  App.isLoadingModel a1 = false
  /\ App.sent a2 = [Load; request] /\ App.isProcessing a2 = true
  /\ App.isProcessing a3 = false /\ App.processingRef a3 = false
  /\ App.error a1
     = Some "Failed to load model: Model file not found at /models/lama_fp32.onnx"%string
  /\ App.error a3 = Some "Processing failed: Model not loaded"%string
  /\ App.resultUrl a3 = None.
Proof.
  exact (page_worker_round_trip sample_process_env sample_load_404
           (App.mkPageEnv true true sample_image true sample_mask true
              (fun _ => "data:image/png;base64,"%string)) 1 1
           eq_refl eq_refl eq_refl).
Defined.

(** ** The two copies of the model loader *)

Lemma downloadModel_copies (env : LoadEnv) (cb : option nat) :
  let worker := InpaintingWorker.downloadModel env in
  let main := ModelLoader.downloadModel cb env in
  (forall d, snd worker = Ok d <-> snd main = Ok d)
  /\ (forall e, snd worker = Throw e ->
      exists e', snd main = Throw e'
        /\ (e' = e
            \/ (exists r, fetched env = Ok r /\ ok r = false /\ status r = 404)
               /\ e = Error ("Model file not found at " ++ MODEL_URL)
               /\ e' = Error ("Model file not found. Please ensure " ++ MODEL_URL
                              ++ " exists in the public directory. "
                              ++ "See MODEL_SETUP.md for instructions."))).
Proof.
  cbn zeta. unfold InpaintingWorker.downloadModel, ModelLoader.downloadModel,
    downloadModel_core.
  destruct (fetched env) as [r|e0] eqn:Hf.
  2:{ split; [intros d; split; discriminate|].
      intros e He. exists e. split; [exact He|left; reflexivity]. }
  destruct (ok r) eqn:Hok; cbn [negb].
  - destruct (body r) as [b|].
    2:{ split; [intros d; split; discriminate|].
        intros e He. exists e. split; [exact He|left; reflexivity]. }
    destruct (failure b) as [e0|].
    + split; [intros d; split; discriminate|].
      intros e He. exists e. split; [exact He|left; reflexivity].
    + split; [intros d; split; intros H; exact H|]. intros e He. discriminate.
  - destruct (Z.eqb_spec (status r) 404) as [H404|Hne].
    + split; [intros d; split; discriminate|].
      intros e He. cbn [snd] in *. injection He as <-.
      eexists. split; [reflexivity|]. right. split; [eauto|]. split; reflexivity.
    + split; [intros d; split; discriminate|].
      intros e He. exists e. split; [exact He|left; reflexivity].
Qed.

(** X22.  The loader of the worker and the loader of the main thread.
    The main thread first tests for IndexedDB and the worker does not.
    Where the test succeeds the two end alike in the same circumstances:
    one yields a session exactly when the other yields that session, and
    when they fail they throw the same error, except after a 404 answer,
    where each has its own message; they differ in what they report on a
    cache hit: the worker reports 100 percent, the main thread nothing.
    Where the test fails the main thread skips the cache and loads as on
    a cache miss, while a worker whose [indexedDB.open] throws fails
    with that error before any download. *)
Theorem loaders_agree (hasIndexedDB : bool) (env : LoadEnv) (cb : option nat) :
  let worker := InpaintingWorker.load_body env in
  let main := ModelLoader.load_body hasIndexedDB cb env in
  (hasIndexedDB = true ->
   (forall s, snd worker = Ok s <-> snd main = Ok s)
   /\ (forall e, snd worker = Throw e ->
       exists e', snd main = Throw e'
         /\ (e' = e
             \/ (exists r, fetched env = Ok r /\ ok r = false /\ status r = 404)
                /\ e = Error ("Model file not found at " ++ MODEL_URL)
                /\ e' = Error ("Model file not found. Please ensure " ++ MODEL_URL
                               ++ " exists in the public directory. "
                               ++ "See MODEL_SETUP.md for instructions.")))
   /\ (forall d, cache_promise (cacheRead env) = Ok (Some d) ->
       fst worker = [100] /\ fst main = []))
  /\ (hasIndexedDB = false ->
      main = ModelLoader.load_body true cb
               {| cacheRead := GetResult None; fetched := fetched env;
                  cacheWrite := cacheWrite env; created := created env |}
      /\ (forall e, cacheRead env = OpenThrows e -> worker = ([], Throw e))
      /\ (forall e d s, cacheRead env = OpenThrows e ->
            snd (ModelLoader.downloadModel cb env) = Ok d ->
            created env d = Ok s ->
            snd worker = Throw e /\ snd main = Ok s)).
Proof.
  cbn zeta. split; intros ->.
  2:{ assert (Hw : forall e, cacheRead env = OpenThrows e ->
                   InpaintingWorker.load_body env = ([], Throw e)).
      { intros e He. unfold InpaintingWorker.load_body. rewrite He. reflexivity. }
      split; [reflexivity|]. split; [exact Hw|].
      intros e d s He Hd Hs. rewrite (Hw e He). split; [reflexivity|].
      unfold ModelLoader.load_body, ModelLoader.loadModelFromCache. cbn [negb].
      destruct (ModelLoader.downloadModel cb env) as [reports r].
      cbn [snd] in Hd. rewrite Hd. exact Hs. }
  unfold InpaintingWorker.load_body, ModelLoader.load_body,
    ModelLoader.loadModelFromCache. cbn [negb].
  destruct (cache_promise (cacheRead env)) as [[d|]|e0].
  - split; [intros s; split; intros H; exact H|]. split.
    + intros e He. exists e. split; [exact He|left; reflexivity].
    + intros d' _. split; reflexivity.
  - pose proof (downloadModel_copies env cb) as [Hok Hthrow]. cbn zeta in Hok, Hthrow.
    destruct (InpaintingWorker.downloadModel env) as [wp [wd|we]];
      destruct (ModelLoader.downloadModel cb env) as [mp [md|me]];
      cbn [fst snd] in *.
    + assert (md = wd) as ->.
      { pose proof (proj1 (Hok wd) eq_refl) as H. congruence. }
      split; [intros s; split; intros H; exact H|]. split; [|discriminate].
      intros e He. exists e. split; [exact He|left; reflexivity].
    + pose proof (proj1 (Hok wd) eq_refl). discriminate.
    + pose proof (proj2 (Hok md) eq_refl). discriminate.
    + split; [intros s; split; discriminate|]. split; [|discriminate].
      intros e He. injection He as <-.
      destruct (Hthrow we eq_refl) as (e' & He' & Hcase).
      injection He' as <-. exists me. split; [reflexivity|exact Hcase].
  - split; [intros s; split; discriminate|]. split; [|discriminate].
    intros e He. exists e. split; [exact He|left; reflexivity].
Qed.

Lemma loaders_agree_witness :
  (fst (InpaintingWorker.load_body sample_load_cached) = [100]
   /\ fst (ModelLoader.load_body true None sample_load_cached) = [])
  /\ (snd (InpaintingWorker.load_body sample_load_no_indexedDB)
      = Throw (Error "indexedDB is not defined")
      /\ snd (ModelLoader.load_body false None sample_load_no_indexedDB)
         = Ok sample_session).
Proof.
  split.
  - apply (proj2 (proj2 (proj1 (loaders_agree true sample_load_cached None)
                           eq_refl)) [1; 2; 3]).
    reflexivity.
  - apply (proj2 (proj2 (proj2 (loaders_agree false sample_load_no_indexedDB None)
                           eq_refl))
             (Error "indexedDB is not defined") [1; 2; 3; 4] sample_session);
      reflexivity.
Defined.
